(** * Streaming delivery pipeline of the Telegram agent

    A shallow embedding of the rate limiter ([TokenBucket], [BackoffStrategy],
    [AdvancedRateLimiter]), the error analyzer ([TelegramErrorAnalyzer]), the
    session store ([StreamStateManager]) and the stream handler
    ([TelegramStreamHandler]), with the properties the design document states
    about them, and of two helpers beside them: the address check of the
    webhook ([isIPInCIDR]) and the simulated stream of the demonstrations.
    Each module first proves what the design document states, then further
    properties read off the code: bounds, conservation of requests and of
    text fragments, behaviour on unknown keys, and how operations compose.

    Conventions of the embedding.
    - Integers are [Z]. The backoff delay is computed in binary64, every
      rounding written out ([Binary64]); the token counts of the bucket,
      the rates and the latencies are exact rationals [Q].
    - [Date.now()] and [Math.random()] are inputs of the operation that reads
      them; one synchronous run of an operation reads one clock value.
    - Strings are sequences of 8-bit characters; on ASCII text this is the
      JavaScript string, and [toLowerCase] folds the letters A-Z.
    - An [async] method is cut at its [await]s: the code between two
      suspension points is one atomic transition. *)

From Stdlib Require Import ZArith QArith Qminmax Qround Qpower Lqa Lia Bool List.
From Stdlib Require Import Ascii String.
From Stdlib Require Import HexadecimalString.
From stdpp Require Import base option list gmap strings pretty sorting.

Open Scope Z_scope.

(** ** JavaScript strings *)

Module JsString.

(** [c.toLowerCase()] on one ASCII character. *)
Definition lowerChar (c : ascii) : ascii :=
  let n := nat_of_ascii c in
  if ((65 <=? n) && (n <=? 90))%nat then ascii_of_nat (n + 32) else c.

(** [s.toLowerCase()] *)
Fixpoint toLowerCase (s : string) : string :=
  match s with
  | EmptyString => EmptyString
  | String c s' => String (lowerChar c) (toLowerCase s')
  end.

(** [s.startsWith(p)] *)
Fixpoint startsWith (p s : string) : bool :=
  match p, s with
  | EmptyString, _ => true
  | String a p', String b s' => Ascii.eqb a b && startsWith p' s'
  | String _ _, EmptyString => false
  end.

(** [s.includes(sub)]: [sub] occurs at some offset of [s]. *)
Fixpoint includes (s sub : string) : bool :=
  startsWith sub s ||
  match s with
  | EmptyString => false
  | String _ s' => includes s' sub
  end.

(** [patterns.some(p => s.includes(p))], the shape of every test of the
    analyzers. *)
Definition includesAny (s : string) (patterns : list string) : bool :=
  existsb (includes s) patterns.

Lemma startsWith_lower p s :
  startsWith p s = true -> startsWith (toLowerCase p) (toLowerCase s) = true.
Proof.
  revert s; induction p as [|a p IH]; intros [|b s]; simpl; try done.
  intros [Hab Hps]%andb_prop.
  apply Ascii.eqb_eq in Hab as ->.
  rewrite Ascii.eqb_refl. simpl. by apply IH.
Qed.

Lemma includes_lower s sub :
  includes s sub = true -> includes (toLowerCase s) (toLowerCase sub) = true.
Proof.
  induction s as [|c s IH]; simpl.
  - rewrite orb_false_r. intros H.
    apply (startsWith_lower sub EmptyString) in H. simpl in H.
    by rewrite H.
  - intros [H|H]%orb_prop.
    + apply (startsWith_lower sub (String c s)) in H. simpl in H.
      by rewrite H.
    + rewrite (IH H). apply orb_true_r.
Qed.

End JsString.

(** ** Error analysis: [TelegramErrorAnalyzer] *)

Module ErrorRecovery.
Import JsString.

Inductive TelegramErrorType :=
| RATE_LIMIT | MESSAGE_TOO_OLD | MESSAGE_DELETED | PERMISSION_DENIED
| BOT_BLOCKED | CHAT_NOT_FOUND | NETWORK_ERROR | TIMEOUT | SERVER_ERROR
| PARSE_ERROR | UNKNOWN.

Inductive RecoveryStrategy :=
| RETRY | FALLBACK | SKIP | ABORT | RECREATE_MESSAGE.

Record ErrorAnalysis := {
  type : TelegramErrorType;
  isRetryable : bool;
  maxRetries : Z;
  strategy : RecoveryStrategy;
  backoffMultiplier : Q;
  gracefulDegradation : option string
}.

(** A JavaScript [Error]: the analyzers read its [message] only. *)
Record Error := { message : string }.

Definition rateLimitPatterns : list string :=
  ["rate limit"; "too many requests"; "429"]%string.
Definition tooOldPatterns : list string :=
  ["message is not modified"; "message to edit not found";
   "message_id_invalid"]%string.
Definition deletedPatterns : list string :=
  ["message to delete not found"; "message was deleted"]%string.
Definition permissionPatterns : list string :=
  ["forbidden"; "not enough rights"; "chat member status"]%string.
Definition blockedPatterns : list string :=
  ["bot was blocked"; "user is deactivated"; "chat not found"]%string.
Definition networkPatterns : list string :=
  ["timeout"; "network"; "connection"]%string.
Definition serverPatterns : list string :=
  ["500"; "502"; "503"; "504"; "internal server error"]%string.
Definition parsePatterns : list string :=
  ["parse_mode"; "bad request"; "can't parse"]%string.

(** [TelegramErrorAnalyzer.analyzeError]: the first matching group of
    patterns, in the order of the source, decides. *)
Definition analyzeError (error : Error) : ErrorAnalysis :=
  let message := toLowerCase (message error) in
  if includesAny message rateLimitPatterns then
    {| type := RATE_LIMIT; isRetryable := true; maxRetries := 5;
       strategy := RETRY; backoffMultiplier := 2;
       gracefulDegradation := None |}
  else if includesAny message tooOldPatterns then
    {| type := MESSAGE_TOO_OLD; isRetryable := false; maxRetries := 0;
       strategy := RECREATE_MESSAGE; backoffMultiplier := 1;
       gracefulDegradation := Some "消息已过期，将发送新消息"%string |}
  else if includesAny message deletedPatterns then
    {| type := MESSAGE_DELETED; isRetryable := false; maxRetries := 0;
       strategy := RECREATE_MESSAGE; backoffMultiplier := 1;
       gracefulDegradation := Some "消息已被删除，将发送新消息"%string |}
  else if includesAny message permissionPatterns then
    {| type := PERMISSION_DENIED; isRetryable := false; maxRetries := 0;
       strategy := ABORT; backoffMultiplier := 1;
       gracefulDegradation := Some "权限不足，无法编辑消息"%string |}
  else if includesAny message blockedPatterns then
    {| type := BOT_BLOCKED; isRetryable := false; maxRetries := 0;
       strategy := ABORT; backoffMultiplier := 1;
       gracefulDegradation := Some "用户已阻止机器人或聊天不存在"%string |}
  else if includesAny message networkPatterns then
    {| type := NETWORK_ERROR; isRetryable := true; maxRetries := 3;
       strategy := RETRY; backoffMultiplier := 3 # 2;
       gracefulDegradation := None |}
  else if includesAny message serverPatterns then
    {| type := SERVER_ERROR; isRetryable := true; maxRetries := 3;
       strategy := RETRY; backoffMultiplier := 6 # 5;
       gracefulDegradation := None |}
  else if includesAny message parsePatterns then
    {| type := PARSE_ERROR; isRetryable := true; maxRetries := 1;
       strategy := FALLBACK; backoffMultiplier := 1;
       gracefulDegradation := Some "格式化失败，使用纯文本"%string |}
  else
    {| type := UNKNOWN; isRetryable := true; maxRetries := 2;
       strategy := RETRY; backoffMultiplier := 3 # 2;
       gracefulDegradation := None |}.

(** Every pattern the analyzer recognizes. *)
Definition recognizedPatterns : list string :=
  rateLimitPatterns ++ tooOldPatterns ++ deletedPatterns ++
  permissionPatterns ++ blockedPatterns ++ networkPatterns ++
  serverPatterns ++ parsePatterns.

(** The failure's message mentions a deleted or expired edit target. *)
Definition indicatesStaleTarget (error : Error) : bool :=
  includesAny (toLowerCase (message error)) (tooOldPatterns ++ deletedPatterns).

Definition rateLimitedAnalysis : ErrorAnalysis :=
  {| type := RATE_LIMIT; isRetryable := true; maxRetries := 5;
     strategy := RETRY; backoffMultiplier := 2; gracefulDegradation := None |}.

Definition unknownAnalysis : ErrorAnalysis :=
  {| type := UNKNOWN; isRetryable := true; maxRetries := 2;
     strategy := RETRY; backoffMultiplier := 3 # 2;
     gracefulDegradation := None |}.


Lemma includesAny_app s l1 l2 :
  includesAny s (l1 ++ l2) = includesAny s l1 || includesAny s l2.
Proof. apply existsb_app. Qed.

Lemma analyzeError_too_many_requests e :
  includes (message e) "too many requests" = true ->
  analyzeError e = rateLimitedAnalysis.
Proof.
  intros H. apply includes_lower in H.
  change (toLowerCase "too many requests") with "too many requests"%string in H.
  unfold analyzeError.
  assert (E : includesAny (toLowerCase (message e)) rateLimitPatterns = true).
  { unfold includesAny, rateLimitPatterns. simpl existsb. rewrite H.
    by rewrite orb_true_r. }
  by rewrite E.
Qed.

Lemma analyzeError_stale e :
  indicatesStaleTarget e = true ->
  includesAny (toLowerCase (message e)) rateLimitPatterns = false ->
  isRetryable (analyzeError e) = false /\ maxRetries (analyzeError e) = 0 /\
  strategy (analyzeError e) = RECREATE_MESSAGE.
Proof.
  unfold indicatesStaleTarget, analyzeError. rewrite includesAny_app.
  intros Hstale ->.
  destruct (includesAny _ tooOldPatterns); [done|].
  rewrite orb_false_l in Hstale. by rewrite Hstale.
Qed.

Lemma analyzeError_unrecognized e :
  includesAny (toLowerCase (message e)) recognizedPatterns = false ->
  analyzeError e = unknownAnalysis.
Proof.
  unfold recognizedPatterns, analyzeError.
  rewrite !includesAny_app, !orb_false_iff.
  intros (-> & -> & -> & -> & -> & -> & -> & ->). done.
Qed.

(** C5, as the code has it. The classifier is total. A failure whose message
    contains "too many requests" is rate-limited: retryable, 5 retries,
    strategy retry, multiplier 2. A failure whose message mentions a deleted
    or expired edit target, and none of the rate-limit patterns ("rate
    limit", "too many requests", "429") that are tested first, is not
    retryable, has 0 retries and strategy recreate. A failure that matches no
    pattern at all is unknown: retryable, 2 retries, multiplier 1.5. *)
Theorem analyzeError_policy (e : Error) :
  (exists a, analyzeError e = a) /\
  (includes (message e) "too many requests" = true ->
   analyzeError e = rateLimitedAnalysis /\
   type (analyzeError e) = RATE_LIMIT /\
   isRetryable (analyzeError e) = true /\ maxRetries (analyzeError e) = 5 /\
   strategy (analyzeError e) = RETRY /\
   (backoffMultiplier (analyzeError e) == 2)%Q) /\
  (indicatesStaleTarget e = true ->
   includesAny (toLowerCase (message e)) rateLimitPatterns = false ->
   isRetryable (analyzeError e) = false /\ maxRetries (analyzeError e) = 0 /\
   strategy (analyzeError e) = RECREATE_MESSAGE) /\
  (includesAny (toLowerCase (message e)) recognizedPatterns = false ->
   analyzeError e = unknownAnalysis /\
   type (analyzeError e) = UNKNOWN /\
   isRetryable (analyzeError e) = true /\ maxRetries (analyzeError e) = 2 /\
   (backoffMultiplier (analyzeError e) == 3 # 2)%Q).
Proof.
  split; [by eexists|]. split; [|split].
  - intros H. by rewrite (analyzeError_too_many_requests e H).
  - apply analyzeError_stale.
  - intros H. by rewrite (analyzeError_unrecognized e H).
Qed.

(** Three failures as Telegram words them. *)
Definition tooManyRequests : Error :=
  {| message := "Telegram API error: too many requests: retry after 5 (Code: 400)" |}.
Definition editTargetGone : Error :=
  {| message := "Telegram API error: Bad Request: message to edit not found (Code: 400)" |}.
Definition unheardOf : Error := {| message := "something else went wrong" |}.

Lemma analyzeError_policy_witness :
  analyzeError tooManyRequests = rateLimitedAnalysis /\
  strategy (analyzeError editTargetGone) = RECREATE_MESSAGE /\
  analyzeError unheardOf = unknownAnalysis.
Proof.
  split; [|split].
  - apply (proj1 (proj2 (analyzeError_policy tooManyRequests))).
    reflexivity.
  - apply (proj1 (proj2 (proj2 (analyzeError_policy editTargetGone))));
      reflexivity.
  - apply (proj2 (proj2 (proj2 (analyzeError_policy unheardOf)))).
    reflexivity.
Defined.

(** A failure that names an expired edit target and whose text holds the
    digits 429. *)
Definition editTargetGone4290 : Error :=
  {| message := "Bad Request: message to edit not found (message_id 4290)" |}.

(** C5 as worded fails on it: the message indicates an expired edit target,
    yet the rate-limit test comes first and the failure is classified
    retryable, with 5 retries and strategy retry. *)
Lemma analyzeError_stale_target_ranked_after_rate_limit :
  indicatesStaleTarget editTargetGone4290 = true /\
  analyzeError editTargetGone4290 = rateLimitedAnalysis /\
  isRetryable (analyzeError editTargetGone4290) = true /\
  maxRetries (analyzeError editTargetGone4290) = 5 /\
  strategy (analyzeError editTargetGone4290) <> RECREATE_MESSAGE.
Proof. repeat split; try reflexivity. discriminate. Qed.

(** X22. Whatever the failure, the analysis is coherent: it is retryable
    exactly when it allows at least one retry, which is exactly when the
    strategy is retry or fallback; otherwise the strategy is recreate or
    abort. The strategy is never skip and the type never CHAT_NOT_FOUND or
    TIMEOUT; there are at most 5 retries, the multiplier lies between 1 and
    2, and a degradation notice is missing exactly for the strategy retry. *)
Theorem analyzeError_is_coherent (e : Error) :
  let a := analyzeError e in
  (isRetryable a = true <-> 0 < maxRetries a) /\
  (isRetryable a = true <-> strategy a = RETRY \/ strategy a = FALLBACK) /\
  (isRetryable a = false <->
   strategy a = RECREATE_MESSAGE \/ strategy a = ABORT) /\
  strategy a <> SKIP /\
  type a <> CHAT_NOT_FOUND /\ type a <> TIMEOUT /\
  0 <= maxRetries a <= 5 /\
  (1 <= backoffMultiplier a)%Q /\ (backoffMultiplier a <= 2)%Q /\
  (gracefulDegradation a = None <-> strategy a = RETRY).
Proof.
  unfold analyzeError.
  repeat match goal with
         | |- context [includesAny ?m ?ps] => destruct (includesAny m ps)
         end;
    cbn zeta; cbn [type isRetryable maxRetries strategy backoffMultiplier
                   gracefulDegradation];
    repeat match goal with
           | |- _ /\ _ => split
           | |- _ <-> _ => split
           end;
    try done; try lia;
    try (intros [H | H]; done);
    try (by left); try (by right).
Qed.

End ErrorRecovery.

(** ** Rate limiting: configuration and numbers *)

Module Js.

(** A JavaScript number that may be [Infinity] (a division by a zero rate). *)
Inductive Number :=
| Finite (q : Q)
| PosInfinity.

(** [x > 0] *)
Definition isPositive (x : Number) : bool :=
  match x with
  | Finite q => negb (Qle_bool q 0)
  | PosInfinity => true
  end.

(** [x >= y] and [x > y] on exact numbers. *)
Definition geb (x y : Q) : bool := Qle_bool y x.
Definition gtb (x y : Q) : bool := negb (Qle_bool x y).

Lemma geb_true x y : geb x y = true <-> (y <= x)%Q.
Proof. apply Qle_bool_iff. Qed.

Lemma geb_false x y : geb x y = false <-> (x < y)%Q.
Proof.
  unfold geb. split.
  - intros H. apply Qnot_le_lt. intros Hle.
    apply Qle_bool_iff in Hle. congruence.
  - intros H. destruct (Qle_bool y x) eqn:E; [|done].
    apply Qle_bool_iff in E. exfalso. eapply Qlt_not_le; eauto.
Qed.


Lemma gtb_false x y : gtb x y = false <-> (x <= y)%Q.
Proof.
  unfold gtb. rewrite negb_false_iff. apply Qle_bool_iff.
Qed.

End Js.

(** ** Binary64 arithmetic *)

Module Binary64.

(** A JavaScript number: a rational, an infinity or [NaN]. The sign of a
    zero is not kept. *)
Inductive Double :=
| Finite (q : Q)
| PosInfinity
| NegInfinity
| NaN.

(** Rounding to the nearest integer, a tie to the even one. *)
Definition roundHalfEven (x : Q) : Z :=
  let f := Qfloor x in
  match (x - inject_Z f ?= 1 # 2)%Q with
  | Lt => f
  | Gt => f + 1
  | Eq => if Z.even f then f else f + 1
  end.

(** The integer part of the binary logarithm of a positive rational. *)
Definition ilog2 (a : Q) : Z :=
  let k := Z.log2 (Qnum a) - Z.log2 (Zpos (Qden a)) in
  if Qle_bool (2 ^ k) a then k else k - 1.

(** The exponent of the last place of the binary64 numbers next to [a]:
    53 significant bits, and no exponent below -1074. *)
Definition exponentOf (a : Q) : Z := Z.max (-1074) (ilog2 a - 52).

(** The multiple of [2 ^ exponentOf a] nearest to [a > 0]. *)
Definition nearest (a : Q) : Q :=
  (inject_Z (roundHalfEven (a / 2 ^ exponentOf a)) * 2 ^ exponentOf a)%Q.

(** A positive rational rounded to binary64: to the nearest, a tie to the
    even significand; past the largest finite number the result is
    [Infinity]. *)
Definition roundPositive (a : Q) : Double :=
  if Qle_bool (2 ^ 1024) (nearest a) then PosInfinity
  else Finite (Qred (nearest a)).

Definition negate (x : Double) : Double :=
  match x with
  | Finite q => Finite (Qred (- q))
  | PosInfinity => NegInfinity
  | NegInfinity => PosInfinity
  | NaN => NaN
  end.

(** A rational rounded to binary64. *)
Definition round (q : Q) : Double :=
  match (q ?= 0)%Q with
  | Eq => Finite 0
  | Gt => roundPositive q
  | Lt => negate (roundPositive (- q))
  end.

(** [x <= y]; nothing compares with [NaN]. *)
Definition le (x y : Double) : Prop :=
  match x, y with
  | NaN, _ | _, NaN => False
  | NegInfinity, _ | _, PosInfinity => True
  | Finite a, Finite b => (a <= b)%Q
  | _, _ => False
  end.

Definition leb (x y : Double) : bool :=
  match x, y with
  | NaN, _ | _, NaN => false
  | NegInfinity, _ | _, PosInfinity => true
  | Finite a, Finite b => Qle_bool a b
  | _, _ => false
  end.

(** The sign of a number that is not [NaN]. *)
Definition sign (x : Double) : comparison :=
  match x with
  | Finite q => (q ?= 0)%Q
  | PosInfinity => Gt
  | NegInfinity => Lt
  | NaN => Eq
  end.

(** [x * y] *)
Definition mul (x y : Double) : Double :=
  match x, y with
  | NaN, _ | _, NaN => NaN
  | Finite a, Finite b => round (a * b)
  | _, _ =>
      match sign x, sign y with
      | Eq, _ | _, Eq => NaN
      | Gt, Gt | Lt, Lt => PosInfinity
      | _, _ => NegInfinity
      end
  end.

(** [x + y] *)
Definition add (x y : Double) : Double :=
  match x, y with
  | NaN, _ | _, NaN => NaN
  | Finite a, Finite b => round (a + b)
  | PosInfinity, NegInfinity | NegInfinity, PosInfinity => NaN
  | PosInfinity, _ | _, PosInfinity => PosInfinity
  | NegInfinity, _ | _, NegInfinity => NegInfinity
  end.

(** [Math.min(x, y)] *)
Definition min (x y : Double) : Double :=
  match x, y with
  | NaN, _ | _, NaN => NaN
  | _, _ => if leb x y then x else y
  end.

(** [Math.floor(x)] *)
Definition floor (x : Double) : Double :=
  match x with
  | Finite q => Finite (inject_Z (Qfloor q))
  | _ => x
  end.

(** [Math.pow(2, n)] for a natural number [n]. *)
Definition pow2 (n : nat) : Double := round (inject_Z (2 ^ Z.of_nat n)).


(** Known values of binary64 arithmetic: [0.1 + 0.2] is
    [0.30000000000000004], which is not the number [0.3]; [2 ^ 53 + 1] is
    rounded to the even neighbour [2 ^ 53]; the largest finite number and
    the smallest positive one are kept, half of the latter is rounded to 0
    and [2 ^ 1024] to [Infinity]; [0 * Infinity] is [NaN]. *)
Lemma round_examples :
  add (round (1 # 10)) (round (2 # 10)) =
    Finite (1351079888211149 # 4503599627370496) /\
  round (3 # 10) = Finite (5404319552844595 # 18014398509481984) /\
  round (inject_Z (2 ^ 53 + 1)) = Finite (inject_Z (2 ^ 53)) /\
  round (inject_Z ((2 ^ 53 - 1) * 2 ^ 971)) =
    Finite (inject_Z ((2 ^ 53 - 1) * 2 ^ 971)) /\
  round (1 # 2 ^ 1074) = Finite (1 # 2 ^ 1074) /\
  round (1 # 2 ^ 1075) = Finite 0 /\
  round (inject_Z (2 ^ 1024)) = PosInfinity /\
  mul (Finite 0) PosInfinity = NaN.
Proof. repeat split; by vm_compute. Qed.

(** *** Rounding keeps the order *)

Lemma roundHalfEven_bounds x :
  Qfloor x <= roundHalfEven x <= Qfloor x + 1.
Proof.
  unfold roundHalfEven.
  destruct (_ ?= _)%Q; [destruct (Z.even _)| |]; lia.
Qed.

(** The rounding is to a nearest integer: it is off by a half at most. *)
Lemma roundHalfEven_error x :
  (x - (1 # 2) <= inject_Z (roundHalfEven x))%Q /\
  (inject_Z (roundHalfEven x) <= x + (1 # 2))%Q.
Proof.
  pose proof (Qfloor_le x) as Hlo. pose proof (Qlt_floor x) as Hhi.
  rewrite inject_Z_plus in Hhi. change (inject_Z 1) with 1%Q in Hhi.
  unfold roundHalfEven.
  destruct (Qcompare_spec (x - inject_Z (Qfloor x)) (1 # 2)) as [H|H|H];
    [destruct (Z.even _)| |];
    rewrite ?inject_Z_plus; change (inject_Z 1) with 1%Q; split; lra.
Qed.

Lemma roundHalfEven_above x z : (inject_Z z <= x)%Q -> z <= roundHalfEven x.
Proof.
  intros H. apply Qfloor_resp_le in H. rewrite Qfloor_Z in H.
  pose proof (roundHalfEven_bounds x). lia.
Qed.

Lemma roundHalfEven_below x z : (x <= inject_Z z)%Q -> roundHalfEven x <= z.
Proof.
  intros H. pose proof (Qfloor_resp_le _ _ H) as Hf. rewrite Qfloor_Z in Hf.
  pose proof (roundHalfEven_bounds x) as Hb.
  destruct (Z.eq_dec (Qfloor x) z) as [E|E]; [|lia].
  unfold roundHalfEven. rewrite E.
  destruct (Qcompare_spec (x - inject_Z z) (1 # 2)) as [H1|H1|H1]; [lra|lia|lra].
Qed.

Lemma roundHalfEven_mono x y :
  (x <= y)%Q -> roundHalfEven x <= roundHalfEven y.
Proof.
  intros H. pose proof (Qfloor_resp_le _ _ H) as Hf.
  pose proof (roundHalfEven_bounds x) as Hx.
  pose proof (roundHalfEven_bounds y) as Hy.
  destruct (Z.eq_dec (Qfloor x) (Qfloor y)) as [E|E]; [|lia].
  unfold roundHalfEven in *. rewrite E in *.
  destruct (Qcompare_spec (x - inject_Z (Qfloor y)) (1 # 2)) as [H1|H1|H1];
    destruct (Qcompare_spec (y - inject_Z (Qfloor y)) (1 # 2)) as [H2|H2|H2];
    try lia; try lra; destruct (Z.even (Qfloor y)); lia.
Qed.

Lemma roundHalfEven_comp x y : (x == y)%Q -> roundHalfEven x = roundHalfEven y.
Proof.
  intros H. apply Z.le_antisymm; apply roundHalfEven_mono; rewrite H; lra.
Qed.

Lemma two_power_pos (e : Z) : (0 < 2 ^ e)%Q.
Proof. by apply Qpower_0_lt. Qed.

Lemma two_power_plus (a b : Z) : (2 ^ (a + b) == 2 ^ a * 2 ^ b)%Q.
Proof. by apply Qpower_plus. Qed.

Lemma two_power_le (a b : Z) : a <= b -> (2 ^ a <= 2 ^ b)%Q.
Proof. intros H. apply Qpower_le_compat_l; [done | lra]. Qed.

Lemma two_power_lt_inv (a b : Z) : (2 ^ a < 2 ^ b)%Q -> a < b.
Proof. intros H. apply (Qpower_lt_compat_l_inv 2); [done | lra]. Qed.


Lemma two_power_Z (e : Z) : 0 <= e -> (2 ^ e == inject_Z (2 ^ e))%Q.
Proof. intros H. symmetry. by apply (Zpower_Qpower 2). Qed.

Lemma ilog2_spec a :
  (0 < a)%Q -> (2 ^ ilog2 a <= a)%Q /\ (a < 2 ^ (ilog2 a + 1))%Q.
Proof.
  intros Ha. destruct a as [n d].
  assert (Hn : 0 < n) by (unfold Qlt in Ha; simpl in Ha; lia).
  pose proof (Z.log2_spec n Hn) as [Hn1 Hn2].
  pose proof (Z.log2_spec (Zpos d) eq_refl) as [Hd1 Hd2].
  pose proof (Z.log2_nonneg n) as Hln.
  pose proof (Z.log2_nonneg (Zpos d)) as Hld.
  unfold ilog2. cbn [Qnum Qden].
  set (ln := Z.log2 n) in *. set (ld := Z.log2 (Zpos d)) in *.
  assert (Hup : (n # d < 2 ^ (ln - ld + 1))%Q).
  { apply (Qmult_lt_r _ _ (2 ^ ld)); [apply two_power_pos|].
    rewrite <- two_power_plus.
    replace (ln - ld + 1 + ld) with (Z.succ ln) by lia.
    rewrite (two_power_Z ld), (two_power_Z (Z.succ ln)) by lia.
    unfold Qlt. simpl. nia. }
  assert (Hlow : (2 ^ (ln - ld - 1) <= n # d)%Q).
  { apply (Qmult_le_r _ _ (2 ^ Z.succ ld)); [apply two_power_pos|].
    rewrite <- two_power_plus.
    replace (ln - ld - 1 + Z.succ ld) with ln by lia.
    rewrite (two_power_Z ln), (two_power_Z (Z.succ ld)) by lia.
    unfold Qle. simpl. nia. }
  destruct (Qle_bool (2 ^ (ln - ld)) (n # d)) eqn:E.
  - apply Qle_bool_iff in E. by split.
  - split; [done|]. replace (ln - ld - 1 + 1) with (ln - ld) by lia.
    apply Qnot_le_lt. intros H. apply Qle_bool_iff in H. congruence.
Qed.

Lemma ilog2_mono a b : (0 < a)%Q -> (a <= b)%Q -> ilog2 a <= ilog2 b.
Proof.
  intros Ha Hab.
  destruct (ilog2_spec a Ha) as [H1 _].
  destruct (ilog2_spec b) as [_ H2]; [lra|].
  assert (H : ilog2 a < ilog2 b + 1) by (apply two_power_lt_inv; lra).
  lia.
Qed.

Lemma exponentOf_mono a b : (0 < a)%Q -> (a <= b)%Q -> exponentOf a <= exponentOf b.
Proof.
  intros Ha Hab. unfold exponentOf. pose proof (ilog2_mono a b Ha Hab). lia.
Qed.

(** The quotient of [a] by the weight of its last place is less than
    [2 ^ 53], and it is at least [2 ^ 52] unless [a] is subnormal. *)
Lemma significand_below a :
  (0 < a)%Q -> (a / 2 ^ exponentOf a <= inject_Z (2 ^ 53))%Q.
Proof.
  intros Ha. destruct (ilog2_spec a Ha) as [_ H].
  apply Qle_shift_div_r; [apply two_power_pos|].
  rewrite <- (two_power_Z 53), <- two_power_plus by lia.
  apply Qlt_le_weak. eapply Qlt_le_trans; [exact H|].
  apply two_power_le. unfold exponentOf. lia.
Qed.

Lemma significand_above a :
  (0 < a)%Q -> - 1074 < exponentOf a ->
  (inject_Z (2 ^ 52) <= a / 2 ^ exponentOf a)%Q.
Proof.
  intros Ha He. destruct (ilog2_spec a Ha) as [H _].
  apply Qle_shift_div_l; [apply two_power_pos|].
  rewrite <- (two_power_Z 52), <- two_power_plus by lia.
  eapply Qle_trans; [|exact H].
  apply two_power_le. unfold exponentOf in *. lia.
Qed.

Lemma nearest_mono a b : (0 < a)%Q -> (a <= b)%Q -> (nearest a <= nearest b)%Q.
Proof.
  intros Ha Hab. assert (Hb : (0 < b)%Q) by lra.
  pose proof (exponentOf_mono a b Ha Hab) as He.
  unfold nearest.
  destruct (Z.eq_dec (exponentOf a) (exponentOf b)) as [E|E].
  - rewrite E. apply Qmult_le_compat_r; [|apply Qlt_le_weak, two_power_pos].
    rewrite <- Zle_Qle. apply roundHalfEven_mono.
    apply Qmult_le_compat_r; [done|].
    apply Qlt_le_weak, Qinv_lt_0_compat, two_power_pos.
  - apply (Qle_trans _ (2 ^ (exponentOf a + 53))).
    + rewrite two_power_plus, (Qmult_comm (2 ^ exponentOf a)),
        (two_power_Z 53) by lia.
      apply Qmult_le_compat_r; [|apply Qlt_le_weak, two_power_pos].
      rewrite <- Zle_Qle. apply roundHalfEven_below.
      by apply significand_below.
    + apply (Qle_trans _ (2 ^ (exponentOf b + 52))).
      * apply two_power_le. lia.
      * rewrite two_power_plus, (Qmult_comm (2 ^ exponentOf b)),
          (two_power_Z 52) by lia.
        apply Qmult_le_compat_r; [|apply Qlt_le_weak, two_power_pos].
        rewrite <- Zle_Qle. apply roundHalfEven_above.
        apply significand_above; [done|]. unfold exponentOf in *. lia.
Qed.


(** [nearest a] is a multiple of the weight of the last place of [a] that
    is off from [a] by half that weight at most. *)
Lemma nearest_error a :
  (a - 2 ^ exponentOf a * (1 # 2) <= nearest a)%Q /\
  (nearest a <= a + 2 ^ exponentOf a * (1 # 2))%Q.
Proof.
  pose proof (two_power_pos (exponentOf a)) as Hpos.
  destruct (roundHalfEven_error (a / 2 ^ exponentOf a)) as [Hlo Hhi].
  unfold nearest.
  set (w := (2 ^ exponentOf a)%Q) in *.
  set (m := inject_Z (roundHalfEven (a / w))) in *.
  assert (E : (a == a / w * w)%Q) by (field; lra).
  split.
  - apply (Qmult_le_compat_r _ _ w) in Hlo; [|lra].
    rewrite E at 1. lra.
  - apply (Qmult_le_compat_r _ _ w) in Hhi; [|lra].
    rewrite E at 1. lra.
Qed.

Lemma nearest_comp a b : (0 < a)%Q -> (a == b)%Q -> (nearest a == nearest b)%Q.
Proof.
  intros Ha E. apply Qle_antisym; apply nearest_mono; lra.
Qed.

Lemma nearest_nonneg a : (0 < a)%Q -> (0 <= nearest a)%Q.
Proof.
  intros Ha. unfold nearest.
  apply Qmult_le_0_compat; [|apply Qlt_le_weak, two_power_pos].
  change 0%Q with (inject_Z 0). rewrite <- Zle_Qle.
  apply roundHalfEven_above. apply Qlt_le_weak.
  apply Qlt_shift_div_l; [apply two_power_pos|]. by rewrite Qmult_0_l.
Qed.

Lemma le_trans x y z : le x y -> le y z -> le x z.
Proof.
  destruct x, y, z; simpl; try done. apply Qle_trans.
Qed.

Lemma le_Finite_refl q : le (Finite q) (Finite q).
Proof. simpl. apply Qle_refl. Qed.

Lemma roundPositive_mono a b :
  (0 < a)%Q -> (a <= b)%Q -> le (roundPositive a) (roundPositive b).
Proof.
  intros Ha Hab. pose proof (nearest_mono a b Ha Hab) as H.
  unfold roundPositive.
  destruct (Qle_bool _ (nearest b)) eqn:Eb.
  - by destruct (Qle_bool _ (nearest a)).
  - destruct (Qle_bool _ (nearest a)) eqn:Ea.
    + apply Qle_bool_iff in Ea.
      assert (Hb : (2 ^ 1024 <= nearest b)%Q) by lra.
      apply Qle_bool_iff in Hb. congruence.
    + simpl. by rewrite !Qred_correct.
Qed.

Lemma roundPositive_comp a b :
  (0 < a)%Q -> (a == b)%Q -> roundPositive a = roundPositive b.
Proof.
  intros Ha E. pose proof (nearest_comp a b Ha E) as H.
  unfold roundPositive.
  assert (Hb : Qle_bool (2 ^ 1024) (nearest a) = Qle_bool (2 ^ 1024) (nearest b)).
  { destruct (Qle_bool _ (nearest b)) eqn:Eb.
    - apply Qle_bool_iff. apply Qle_bool_iff in Eb. lra.
    - destruct (Qle_bool _ (nearest a)) eqn:Ea; [|done].
      apply Qle_bool_iff in Ea.
      assert (Hb : (2 ^ 1024 <= nearest b)%Q) by lra.
      apply Qle_bool_iff in Hb. congruence. }
  rewrite Hb. destruct (Qle_bool _ (nearest b)); [done|].
  f_equal. by apply Qred_complete.
Qed.

Lemma roundPositive_nonneg a : (0 < a)%Q -> le (Finite 0) (roundPositive a).
Proof.
  intros Ha. unfold roundPositive. destruct (Qle_bool _ _); [done|].
  simpl. rewrite Qred_correct. by apply nearest_nonneg.
Qed.

Lemma negate_le x y : le x y -> le (negate y) (negate x).
Proof.
  destruct x, y; simpl; try done. rewrite !Qred_correct. lra.
Qed.

Lemma negate_nonpos x : le (Finite 0) x -> le (negate x) (Finite 0).
Proof.
  destruct x; simpl; try done. rewrite Qred_correct. lra.
Qed.

Lemma round_mono a b : (a <= b)%Q -> le (round a) (round b).
Proof.
  intros Hab. unfold round.
  destruct (Qcompare_spec a 0) as [Ha|Ha|Ha];
    destruct (Qcompare_spec b 0) as [Hb|Hb|Hb]; try lra.
  - apply le_Finite_refl.
  - by apply roundPositive_nonneg.
  - apply negate_nonpos, roundPositive_nonneg. lra.
  - apply negate_le, roundPositive_mono; lra.
  - eapply le_trans; [apply negate_nonpos, roundPositive_nonneg; lra|].
    by apply roundPositive_nonneg.
  - by apply roundPositive_mono.
Qed.

Lemma round_comp a b : (a == b)%Q -> round a = round b.
Proof.
  intros E. unfold round.
  destruct (Qcompare_spec a 0) as [Ha|Ha|Ha];
    destruct (Qcompare_spec b 0) as [Hb|Hb|Hb]; try lra.
  - done.
  - f_equal. apply roundPositive_comp; lra.
  - by apply roundPositive_comp.
Qed.

Lemma round_not_NaN q : round q <> NaN.
Proof.
  unfold round, roundPositive.
  destruct (_ ?= _)%Q; try done; by destruct (Qle_bool _ _).
Qed.

Lemma round_nonneg q : (0 <= q)%Q -> le (Finite 0) (round q).
Proof. intros H. apply (round_mono 0 q H). Qed.

(** What lies between two finite numbers is finite. *)
Lemma le_between a x b :
  le (Finite a) x -> le x (Finite b) ->
  exists q, x = Finite q /\ (a <= q)%Q /\ (q <= b)%Q.
Proof. destruct x; simpl; try done. by exists q. Qed.

(** *** The operations keep the order *)

Lemma le_PosInfinity x : x <> NaN -> le x PosInfinity.
Proof. by destruct x. Qed.

Lemma le_NegInfinity x : x <> NaN -> le NegInfinity x.
Proof. by destruct x. Qed.

Lemma mul_mono_l x y c :
  le x y -> (0 < c)%Q -> le (mul x (Finite c)) (mul y (Finite c)).
Proof.
  intros H Hc.
  assert (Hs : (c ?= 0)%Q = Gt) by (by apply Qgt_alt).
  destruct x as [a| | |], y as [b| | |]; simpl in *; try done;
    rewrite ?Hs; try done.
  - apply round_mono. apply Qmult_le_compat_r; [done | lra].
  - apply le_PosInfinity, round_not_NaN.
  - apply le_NegInfinity, round_not_NaN.
Qed.

Lemma mul_comm x y : mul x y = mul y x.
Proof.
  destruct x as [a| | |], y as [b| | |]; simpl; try done;
    try (by destruct (_ ?= _)%Q).
  apply round_comp, Qmult_comm.
Qed.

Lemma mul_mono_r x y c :
  le x y -> (0 < c)%Q -> le (mul (Finite c) x) (mul (Finite c) y).
Proof.
  intros H Hc. rewrite (mul_comm _ x), (mul_comm _ y). by apply mul_mono_l.
Qed.

Lemma add_mono_l x y c : le x y -> le (add x (Finite c)) (add y (Finite c)).
Proof.
  intros H.
  destruct x as [a| | |], y as [b| | |]; simpl in *; try done.
  - apply round_mono. lra.
  - apply le_PosInfinity, round_not_NaN.
  - apply le_NegInfinity, round_not_NaN.
Qed.

Lemma floor_mono x y : le x y -> le (floor x) (floor y).
Proof.
  destruct x as [a| | |], y as [b| | |]; simpl; try done.
  intros H. rewrite <- Zle_Qle. by apply Qfloor_resp_le.
Qed.

Lemma leb_le x y : leb x y = true <-> le x y.
Proof.
  destruct x as [a| | |], y as [b| | |]; simpl; try done.
  apply Qle_bool_iff.
Qed.

Lemma le_total x y : x <> NaN -> y <> NaN -> le x y \/ le y x.
Proof.
  destruct x as [a| | |], y as [b| | |]; simpl; try done; try tauto.
  intros _ _. destruct (Qlt_le_dec a b); [left; lra | by right].
Qed.

Lemma min_le_r x y : x <> NaN -> y <> NaN -> le (min x y) y.
Proof.
  intros Hx Hy. unfold min.
  destruct (leb x y) eqn:E.
  - apply leb_le in E. by destruct x, y.
  - destruct x, y; try done; simpl; try apply Qle_refl.
Qed.

Lemma min_mono_l x x' y :
  le x x' -> y <> NaN -> le (min x y) (min x' y).
Proof.
  intros H Hy. unfold min.
  destruct (leb x y) eqn:E, (leb x' y) eqn:E'.
  - by destruct x, x', y.
  - assert (Hle : le y x').
    { destruct (le_total x' y) as [H1|H1]; try done.
      - by destruct x, x'.
      - apply leb_le in H1. congruence. }
    apply leb_le in E. destruct x, x', y; try done.
  - apply leb_le in E'.
    assert (le x y) by (eapply le_trans; eauto).
    apply leb_le in H0. congruence.
  - destruct x, x', y; try done; simpl; apply Qle_refl.
Qed.

(** When [x] has reached [y], [Math.min(x, y)] is [y]. *)
Lemma min_r x q : le (Finite q) x -> exists q', min x (Finite q) = Finite q' /\ (q' == q)%Q.
Proof.
  destruct x as [a| | |]; simpl; try done.
  - intros H. destruct (Qle_bool a q) eqn:E.
    + apply Qle_bool_iff in E. exists a. split; [done | lra].
    + by exists q.
  - intros _. by exists q.
Qed.


(** *** Equal values *)

(** The same number, whatever fraction writes it. *)
Definition eq (x y : Double) : Prop :=
  match x, y with
  | Finite a, Finite b => (a == b)%Q
  | PosInfinity, PosInfinity | NegInfinity, NegInfinity | NaN, NaN => True
  | _, _ => False
  end.

Lemma mul_comp x x' y : eq x x' -> mul x y = mul x' y.
Proof.
  destruct x as [a| | |], x' as [a'| | |]; simpl; try done.
  intros E. destruct y as [b| | |]; simpl; try done.
  - apply round_comp. by rewrite E.
  - by rewrite E.
  - by rewrite E.
Qed.

Lemma min_comm x y : eq (min x y) (min y x).
Proof.
  destruct x as [a| | |], y as [b| | |]; simpl; try done.
  destruct (Qle_bool a b) eqn:E1, (Qle_bool b a) eqn:E2; simpl; try done.
  - apply Qle_bool_iff in E1, E2. lra.
  - assert (H : ~ (a <= b)%Q) by (intros H; apply Qle_bool_iff in H; congruence).
    assert (H' : (b <= a)%Q) by lra. apply Qle_bool_iff in H'. congruence.
Qed.

Lemma min_glb z x y : le z x -> le z y -> le z (min x y).
Proof.
  intros Hx Hy. unfold min. destruct (leb x y); by destruct x, y, z.
Qed.

(** A product by a larger positive factor is not smaller, when the other
    factor is not negative. *)
Lemma mul_mono_factor x c c' :
  le (Finite 0) x -> (0 < c)%Q -> (c <= c')%Q ->
  le (mul x (Finite c)) (mul x (Finite c')).
Proof.
  intros Hx Hc Hcc.
  assert (Hs : (c ?= 0)%Q = Gt) by (by apply Qgt_alt).
  assert (Hs' : (c' ?= 0)%Q = Gt) by (apply Qgt_alt; lra).
  destruct x as [a| | |]; simpl in *; try done.
  - apply round_mono. rewrite !(Qmult_comm a).
    apply Qmult_le_compat_r; done.
  - by rewrite Hs, Hs'.
Qed.

Lemma pow2_mono (n n' : nat) : (n <= n')%nat -> le (pow2 n) (pow2 n').
Proof.
  intros H. apply round_mono. rewrite <- Zle_Qle.
  apply Z.pow_le_mono_r; lia.
Qed.

Lemma pow2_above_one (n : nat) : le (Finite 1) (pow2 n).
Proof.
  replace (Finite 1) with (round (inject_Z (2 ^ Z.of_nat 0))) by (by vm_compute).
  apply (pow2_mono 0 n). lia.
Qed.

Lemma floor_nonneg x : le (Finite 0) x -> le (Finite 0) (floor x).
Proof. apply (floor_mono (Finite 0) x). Qed.

End Binary64.


Record RateLimitConfig := {
  bucketCapacity : Q;
  refillRate : Q;
  maxQueueSize : Z;
  baseBackoffDelay : Q;
  maxBackoffDelay : Q;
  monitoringWindow : Q
}.

(** The defaults of [AdvancedRateLimiter]'s constructor. *)
Definition defaultRateLimitConfig : RateLimitConfig :=
  {| bucketCapacity := 30; refillRate := 1 # 2; maxQueueSize := 100;
     baseBackoffDelay := 1000; maxBackoffDelay := 30000;
     monitoringWindow := 60 |}.

(** ** [TokenBucket] *)

Module TokenBucket.

Record t := {
  tokens : Q;
  lastRefillTime : Z;
  config : RateLimitConfig
}.

(** [new TokenBucket(config)] at clock value [now]. *)
Definition make (cfg : RateLimitConfig) (now : Z) : t :=
  {| tokens := bucketCapacity cfg; lastRefillTime := now; config := cfg |}.

(** [refill()]: lazily credits the time elapsed since the last refill. *)
Definition refill (now : Z) (b : t) : t :=
  let timePassed := (inject_Z (now - lastRefillTime b) / 1000)%Q in
  if Js.gtb timePassed 0 then
    let tokensToAdd := (timePassed * refillRate (config b))%Q in
    {| tokens := Qmin (bucketCapacity (config b)) (tokens b + tokensToAdd);
       lastRefillTime := now;
       config := config b |}
  else b.

(** [consume(count)] *)
Definition consume (now : Z) (count : Q) (b : t) : t * bool :=
  let b := refill now b in
  if Js.geb (tokens b) count then
    ({| tokens := (tokens b - count)%Q;
        lastRefillTime := lastRefillTime b;
        config := config b |}, true)
  else (b, false).

(** [getAvailableTokens()] *)
Definition getAvailableTokens (now : Z) (b : t) : t * Q :=
  let b := refill now b in (b, tokens b).

(** [getNextTokenTime(requiredTokens)] *)
Definition getNextTokenTime (now : Z) (requiredTokens : Q) (b : t)
  : t * Js.Number :=
  let b := refill now b in
  if Js.geb (tokens b) requiredTokens then (b, Js.Finite 0)
  else
    let tokensNeeded := (requiredTokens - tokens b)%Q in
    if Qeq_bool (refillRate (config b)) 0 then (b, Js.PosInfinity)
    else
      (b, Js.Finite
            (inject_Z (Qceiling (tokensNeeded / refillRate (config b))) * 1000)).

(** [reset()] *)
Definition reset (now : Z) (b : t) : t :=
  {| tokens := bucketCapacity (config b); lastRefillTime := now;
     config := config b |}.

(** The calls of the public interface, each made at some clock value. *)
Inductive Call :=
| Consume (count : Q)
| GetAvailableTokens
| GetNextTokenTime (requiredTokens : Q).

Definition perform (b : t) (c : Z * Call) : t :=
  match c with
  | (now, Consume count) => fst (consume now count b)
  | (now, GetAvailableTokens) => fst (getAvailableTokens now b)
  | (now, GetNextTokenTime n) => fst (getNextTokenTime now n b)
  end.

(** The bucket after a sequence of calls. *)
Definition run (b : t) (calls : list (Z * Call)) : t :=
  fold_left perform calls b.











(** A run of the default bucket: a burst of 30, a denied request, half a
    token back after one second, a full one after two. *)
Definition sampleCalls : list (Z * Call) :=
  [(0, Consume 30); (0, Consume 1); (1000, GetAvailableTokens);
   (2000, Consume 1); (2000, GetNextTokenTime 1)].


End TokenBucket.

(** ** [BackoffStrategy] *)

Module BackoffStrategy.
Import JsString.
Import ErrorRecovery(Error, message).

Record t := {
  consecutiveFailures : nat;
  config : RateLimitConfig
}.

Definition make (cfg : RateLimitConfig) : t :=
  {| consecutiveFailures := 0; config := cfg |}.

(** [getErrorMultiplier(error)]; the literals [2.0], [1.5], [1.2] and [1.0]
    are the binary64 numbers nearest to them. *)
Definition getErrorMultiplier (error : Error) : Binary64.Double :=
  let message := toLowerCase (message error) in
  if includes message "rate limit" || includes message "too many requests"
  then Binary64.round 2
  else if includes message "timeout" then Binary64.round (3 # 2)
  else if includes message "server error" || includes message "internal error"
  then Binary64.round (6 # 5)
  else Binary64.round 1.

(** The multiplier [calculateDelay(error?)] starts from. *)
Definition multiplierOf (error : option Error) : Binary64.Double :=
  match error with
  | Some e => getErrorMultiplier e
  | None => Binary64.round 1
  end.

(** [Math.min(base * Math.pow(2, consecutiveFailures), max)] *)
Definition exponentialDelay (s : t) : Binary64.Double :=
  Binary64.min
    (Binary64.mul (Binary64.Finite (baseBackoffDelay (config s)))
                  (Binary64.pow2 (consecutiveFailures s)))
    (Binary64.Finite (maxBackoffDelay (config s))).

(** [Math.random() * 0.3 + 0.85] *)
Definition jitter (random : Q) : Binary64.Double :=
  Binary64.add (Binary64.mul (Binary64.Finite random) (Binary64.round (3 # 10)))
               (Binary64.round (85 # 100)).

(** [calculateDelay(error?)], with the value [Math.random()] returned. *)
Definition calculateDelay (error : option Error) (random : Q) (s : t)
  : Binary64.Double :=
  let multiplier := multiplierOf error in
  Binary64.floor
    (Binary64.mul (Binary64.mul (exponentialDelay s) multiplier)
                  (jitter random)).

(** [recordSuccess()] *)
Definition recordSuccess (s : t) : t :=
  {| consecutiveFailures := 0; config := config s |}.

(** [recordFailure(error?)] *)
Definition recordFailure (error : option Error) (s : t) : t :=
  {| consecutiveFailures := S (consecutiveFailures s); config := config s |}.

(** [reset()] *)
Definition reset (s : t) : t :=
  {| consecutiveFailures := 0; config := config s |}.

(** The formula of the design document, evaluated in binary64 and without
    the rounding down. *)
Definition unroundedDelay (error : option Error) (random : Q) (s : t)
  : Binary64.Double :=
  Binary64.mul
    (Binary64.mul
       (Binary64.min
          (Binary64.Finite (maxBackoffDelay (config s)))
          (Binary64.mul (Binary64.Finite (baseBackoffDelay (config s)))
                        (Binary64.pow2 (consecutiveFailures s))))
       (multiplierOf error))
    (jitter random).

(** The three literals of the jitter, and the largest multiplier. *)
Lemma literals :
  Binary64.round (3 # 10) =
    Binary64.Finite (5404319552844595 # 18014398509481984) /\
  Binary64.round (85 # 100) =
    Binary64.Finite (7656119366529843 # 9007199254740992) /\
  Binary64.round (115 # 100) =
    Binary64.Finite (2589569785738035 # 2251799813685248) /\
  Binary64.round 1 = Binary64.Finite 1 /\
  Binary64.round 2 = Binary64.Finite 2.
Proof. repeat split; by vm_compute. Qed.

Lemma multiplierOf_range error :
  exists m, multiplierOf error = Binary64.Finite m /\ (1 <= m)%Q /\ (m <= 2)%Q.
Proof.
  destruct error as [e|]; simpl; [unfold getErrorMultiplier|].
  - repeat match goal with |- context [if ?c then _ else _] => destruct c end;
      eexists; (split; [by vm_compute|]); done.
  - eexists. split; [by vm_compute|]. done.
Qed.

Lemma jitter_range random :
  (0 <= random)%Q -> (random < 1)%Q ->
  exists j, jitter random = Binary64.Finite j /\
    Binary64.le (Binary64.round (85 # 100)) (Binary64.Finite j) /\
    Binary64.le (Binary64.Finite j) (Binary64.round (115 # 100)) /\
    (0 < j)%Q.
Proof.
  intros Hlo Hhi. unfold jitter.
  destruct literals as (E03 & E085 & E115 & _). rewrite E03, E085, E115.
  set (c03 := (5404319552844595 # 18014398509481984)%Q).
  set (c085 := (7656119366529843 # 9007199254740992)%Q).
  set (c115 := (2589569785738035 # 2251799813685248)%Q).
  assert (H03 : (0 < c03)%Q) by done.
  cbn [Binary64.mul].
  assert (Hlow : Binary64.le (Binary64.Finite 0) (Binary64.round (random * c03))).
  { apply Binary64.round_nonneg. by apply Qmult_le_0_compat; [|lra]. }
  assert (Hup : Binary64.le (Binary64.round (random * c03)) (Binary64.Finite c03)).
  { replace (Binary64.Finite c03) with (Binary64.round (1 * c03))
      by (by vm_compute).
    apply Binary64.round_mono. apply Qmult_le_compat_r; lra. }
  destruct (Binary64.le_between _ _ _ Hlow Hup) as (p & -> & Hp0 & Hp1).
  cbn [Binary64.add].
  assert (Hjlow : Binary64.le (Binary64.Finite c085) (Binary64.round (p + c085))).
  { replace (Binary64.Finite c085) with (Binary64.round (0 + c085))
      by (by vm_compute).
    apply Binary64.round_mono. lra. }
  assert (Hjup : Binary64.le (Binary64.round (p + c085)) (Binary64.Finite c115)).
  { replace (Binary64.Finite c115) with (Binary64.round (c03 + c085))
      by (by vm_compute).
    apply Binary64.round_mono. lra. }
  destruct (Binary64.le_between _ _ _ Hjlow Hjup) as (j & -> & Hj0 & Hj1).
  exists j. split; [reflexivity|]. split; [exact Hj0|]. split; [exact Hj1|].
  eapply Qlt_le_trans; [|exact Hj0]. reflexivity.
Qed.

Lemma product_nonneg s :
  (0 < baseBackoffDelay (config s))%Q ->
  Binary64.le (Binary64.Finite 0)
    (Binary64.mul (Binary64.Finite (baseBackoffDelay (config s)))
                  (Binary64.pow2 (consecutiveFailures s))).
Proof.
  intros Hbase.
  eapply Binary64.le_trans;
    [|apply Binary64.mul_mono_r;
      [apply Binary64.pow2_above_one | exact Hbase]].
  cbn [Binary64.mul]. apply Binary64.round_nonneg.
  apply Qmult_le_0_compat; lra.
Qed.

Lemma product_mono s s' :
  config s' = config s ->
  (0 < baseBackoffDelay (config s))%Q ->
  (consecutiveFailures s <= consecutiveFailures s')%nat ->
  Binary64.le
    (Binary64.mul (Binary64.Finite (baseBackoffDelay (config s)))
                  (Binary64.pow2 (consecutiveFailures s)))
    (Binary64.mul (Binary64.Finite (baseBackoffDelay (config s')))
                  (Binary64.pow2 (consecutiveFailures s'))).
Proof.
  intros -> Hbase Hle.
  apply Binary64.mul_mono_r; [by apply Binary64.pow2_mono | done].
Qed.

Lemma exponentialDelay_mono s s' :
  config s' = config s ->
  (0 < baseBackoffDelay (config s))%Q ->
  (consecutiveFailures s <= consecutiveFailures s')%nat ->
  Binary64.le (exponentialDelay s) (exponentialDelay s').
Proof.
  intros Hcfg Hbase Hle. unfold exponentialDelay.
  pose proof (product_mono s s' Hcfg Hbase Hle) as H.
  rewrite Hcfg in *. by apply Binary64.min_mono_l.
Qed.

Lemma calculateDelay_mono error random s s' :
  config s' = config s ->
  (0 < baseBackoffDelay (config s))%Q ->
  (0 <= random)%Q -> (random < 1)%Q ->
  (consecutiveFailures s <= consecutiveFailures s')%nat ->
  Binary64.le (calculateDelay error random s) (calculateDelay error random s').
Proof.
  intros Hcfg Hbase Hlo Hhi Hle. unfold calculateDelay.
  destruct (multiplierOf_range error) as (m & -> & Hm & _).
  destruct (jitter_range random Hlo Hhi) as (j & -> & _ & _ & Hj).
  apply Binary64.floor_mono.
  apply Binary64.mul_mono_l; [|done].
  apply Binary64.mul_mono_l; [|lra].
  by apply exponentialDelay_mono.
Qed.

Lemma exponentialDelay_capped s s' :
  config s' = config s ->
  (consecutiveFailures s <= consecutiveFailures s')%nat ->
  (0 < baseBackoffDelay (config s))%Q ->
  Binary64.le (Binary64.Finite (maxBackoffDelay (config s)))
    (Binary64.mul (Binary64.Finite (baseBackoffDelay (config s)))
                  (Binary64.pow2 (consecutiveFailures s))) ->
  Binary64.eq (exponentialDelay s') (exponentialDelay s).
Proof.
  intros Hcfg Hle Hbase Hcap. unfold exponentialDelay.
  pose proof (product_mono s s' Hcfg Hbase Hle) as Hmono.
  destruct (Binary64.min_r _ _ Hcap) as (q & -> & Hq).
  rewrite Hcfg in *.
  destruct (Binary64.min_r _ _ (Binary64.le_trans _ _ _ Hcap Hmono))
    as (q' & -> & Hq').
  simpl. by rewrite Hq, Hq'.
Qed.

Lemma unroundedDelay_floor error random s :
  calculateDelay error random s =
    Binary64.floor (unroundedDelay error random s).
Proof.
  unfold calculateDelay, unroundedDelay, exponentialDelay.
  do 2 f_equal. apply Binary64.mul_comp, Binary64.min_comm.
Qed.

(** C8, as the code has it. The delay is the product
    [min(maxDelay, baseDelay * 2^consecutiveFailures) * multiplier * jitter],
    every operation of it rounded to binary64, rounded down to a whole
    number of milliseconds; the jitter factor lies between the binary64
    numbers [0.85] and [1.15]. For a positive base delay and fixed error and
    jitter the delay does not decrease as the failure streak grows, the
    exponential part never exceeds [maxDelay], and the delay stays put once
    [baseDelay * 2^consecutiveFailures] has reached [maxDelay];
    [recordSuccess] sets the streak to zero, so that the next delay is the
    one computed from the base value, the least of all. *)
Theorem backoff_delay_rounded_growth_reset
  (s : t) (error : option Error) (random : Q) :
  (0 < baseBackoffDelay (config s))%Q -> (0 <= random)%Q -> (random < 1)%Q ->
  calculateDelay error random s =
    Binary64.floor (unroundedDelay error random s) /\
  (Binary64.le (Binary64.round (85 # 100)) (jitter random) /\
   Binary64.le (jitter random) (Binary64.round (115 # 100))) /\
  Binary64.le (exponentialDelay s)
    (Binary64.Finite (maxBackoffDelay (config s))) /\
  (forall s', config s' = config s ->
     (consecutiveFailures s <= consecutiveFailures s')%nat ->
     Binary64.le (calculateDelay error random s)
                 (calculateDelay error random s')) /\
  (forall s', config s' = config s ->
     (consecutiveFailures s <= consecutiveFailures s')%nat ->
     Binary64.le (Binary64.Finite (maxBackoffDelay (config s)))
       (Binary64.mul (Binary64.Finite (baseBackoffDelay (config s)))
                     (Binary64.pow2 (consecutiveFailures s))) ->
     calculateDelay error random s' = calculateDelay error random s) /\
  consecutiveFailures (recordSuccess s) = 0%nat /\
  calculateDelay error random (recordSuccess s) =
    Binary64.floor
      (Binary64.mul
         (Binary64.mul
            (Binary64.min (Binary64.Finite (maxBackoffDelay (config s)))
                          (Binary64.round (baseBackoffDelay (config s))))
            (multiplierOf error))
         (jitter random)) /\
  Binary64.le (calculateDelay error random (recordSuccess s))
              (calculateDelay error random s).
Proof.
  intros Hbase Hlo Hhi.
  split; [|split; [|split; [|split; [|split; [|split; [|split]]]]]].
  - apply unroundedDelay_floor.
  - destruct (jitter_range random Hlo Hhi) as (j & -> & H1 & H2 & _).
    by split.
  - unfold exponentialDelay. apply Binary64.min_le_r; [|done].
    pose proof (product_nonneg s Hbase) as H. intros E. by rewrite E in H.
  - intros s' Hcfg Hle. by apply calculateDelay_mono.
  - intros s' Hcfg Hle Hcap. unfold calculateDelay. do 2 f_equal.
    apply Binary64.mul_comp. by apply exponentialDelay_capped.
  - done.
  - rewrite unroundedDelay_floor. unfold unroundedDelay.
    change (consecutiveFailures (recordSuccess s)) with 0%nat.
    change (config (recordSuccess s)) with (config s).
    do 4 f_equal. change (Binary64.pow2 0) with (Binary64.round 1).
    destruct literals as (_ & _ & _ & -> & _). cbn [Binary64.mul].
    apply Binary64.round_comp. ring.
  - apply calculateDelay_mono; simpl; try done. lia.
Qed.

(** The default strategy after three failures in a row, a rate-limit error
    and the jitter sample one half. *)
Lemma backoff_delay_witness :
  Binary64.le
    (calculateDelay (Some {| message := "rate limit exceeded" |}) (1 # 2)
       (recordSuccess
          {| consecutiveFailures := 3; config := defaultRateLimitConfig |}))
    (calculateDelay (Some {| message := "rate limit exceeded" |}) (1 # 2)
       {| consecutiveFailures := 3; config := defaultRateLimitConfig |}).
Proof.
  refine (proj2 (proj2 (proj2 (proj2 (proj2 (proj2 (proj2
    (backoff_delay_rounded_growth_reset
       {| consecutiveFailures := 3; config := defaultRateLimitConfig |}
       (Some {| message := "rate limit exceeded" |}) (1 # 2) _ _ _)))))))).
  - done.
  - done.
  - done.
Defined.

(** C8 as worded, without the rounding down, fails: at the defaults, with
    no failure recorded, no error and [Math.random()] returning 0.25, the
    jitter is 0.9249999999999999, the product 924.9999999999999 and the
    delay 924. *)
Lemma backoff_delay_is_not_the_product :
  calculateDelay None (1 # 4) (make defaultRateLimitConfig) =
    Binary64.Finite 924 /\
  unroundedDelay None (1 # 4) (make defaultRateLimitConfig) =
    Binary64.Finite (8136386045542399 # 8796093022208) /\
  (924 < 8136386045542399 # 8796093022208)%Q /\
  (8136386045542399 # 8796093022208 < 925)%Q /\
  calculateDelay None (1 # 4) (make defaultRateLimitConfig) <>
    unroundedDelay None (1 # 4) (make defaultRateLimitConfig).
Proof.
  split; [by vm_compute|]. split; [by vm_compute|].
  split; [done|]. split; [done|].
  intros H. vm_compute in H. discriminate H.
Qed.

(** Why the base delay has to be positive: with a base delay of 0, the
    1024th failure in a row makes [Math.pow] overflow, and the delay is
    [0 * Infinity], which is [NaN]. *)
Lemma zero_base_delay_is_not_a_number :
  calculateDelay None (1 # 2)
    {| consecutiveFailures := 1024;
       config :=
         {| bucketCapacity := 30; refillRate := 1 # 2; maxQueueSize := 100;
            baseBackoffDelay := 0; maxBackoffDelay := 30000;
            monitoringWindow := 60 |} |} = Binary64.NaN.
Proof. by vm_compute. Qed.

(** X5. With a positive base delay and a maximum delay that is not
    negative, the delay [calculateDelay] answers is never negative and
    never more than the delay computed from the maximum delay, the largest
    multiplier, 2, and the largest jitter, 1.15, whatever the error and
    however long the streak of failures. *)
Theorem backoff_delay_within_bounds
  (s : t) (error : option Error) (random : Q) :
  (0 < baseBackoffDelay (config s))%Q -> (0 <= maxBackoffDelay (config s))%Q ->
  (0 <= random)%Q -> (random < 1)%Q ->
  Binary64.le (Binary64.Finite 0) (calculateDelay error random s) /\
  Binary64.le (calculateDelay error random s)
    (Binary64.floor
       (Binary64.mul
          (Binary64.mul (Binary64.Finite (maxBackoffDelay (config s)))
                        (Binary64.round 2))
          (Binary64.round (115 # 100)))).
Proof.
  intros Hbase Hmax Hlo Hhi. unfold calculateDelay.
  assert (He0 : Binary64.le (Binary64.Finite 0) (exponentialDelay s)).
  { apply Binary64.min_glb; [by apply product_nonneg | done]. }
  assert (He1 : Binary64.le (exponentialDelay s)
                  (Binary64.Finite (maxBackoffDelay (config s)))).
  { unfold exponentialDelay. apply Binary64.min_le_r; [|done].
    pose proof (product_nonneg s Hbase) as H. intros E. by rewrite E in H. }
  destruct (Binary64.le_between _ _ _ He0 He1) as (e & -> & He & He').
  destruct (multiplierOf_range error) as (m & -> & Hm0 & Hm1).
  destruct (jitter_range random Hlo Hhi) as (j & -> & _ & Hj1 & Hj0).
  destruct literals as (_ & _ & E115 & _ & E2). rewrite E115, E2 in *.
  set (c115 := (2589569785738035 # 2251799813685248)%Q) in *.
  set (M := maxBackoffDelay (config s)) in *.
  assert (Hx0 : Binary64.le (Binary64.Finite 0)
                  (Binary64.mul (Binary64.Finite e) (Binary64.Finite m))).
  { apply Binary64.round_nonneg. apply Qmult_le_0_compat; lra. }
  assert (Hxy : Binary64.le
                  (Binary64.mul (Binary64.Finite e) (Binary64.Finite m))
                  (Binary64.mul (Binary64.Finite M) (Binary64.Finite 2))).
  { apply Binary64.round_mono.
    apply (Qle_trans _ (M * m)); [apply Qmult_le_compat_r; lra|].
    rewrite !(Qmult_comm M). apply Qmult_le_compat_r; lra. }
  split.
  - apply Binary64.floor_nonneg.
    eapply Binary64.le_trans;
      [|apply Binary64.mul_mono_l; [exact Hx0 | exact Hj0]].
    cbn [Binary64.mul]. apply Binary64.round_nonneg. lra.
  - apply Binary64.floor_mono.
    eapply Binary64.le_trans;
      [apply Binary64.mul_mono_l; [exact Hxy | exact Hj0]|].
    apply Binary64.mul_mono_factor; [|done|exact Hj1].
    eapply Binary64.le_trans; [exact Hx0 | exact Hxy].
Qed.

(** The defaults after ten failures in a row, a rate-limit error and the
    jitter sample 0.99: the delay is within 69000 ms. *)
Lemma backoff_delay_bounds_witness :
  Binary64.le (Binary64.Finite 0)
    (calculateDelay (Some {| message := "Too Many Requests" |}) (99 # 100)
       {| consecutiveFailures := 10; config := defaultRateLimitConfig |}) /\
  Binary64.le
    (calculateDelay (Some {| message := "Too Many Requests" |}) (99 # 100)
       {| consecutiveFailures := 10; config := defaultRateLimitConfig |})
    (Binary64.Finite 69000).
Proof.
  apply (backoff_delay_within_bounds
           {| consecutiveFailures := 10; config := defaultRateLimitConfig |}
           (Some {| message := "Too Many Requests" |}) (99 # 100)).
  - done.
  - done.
  - done.
  - done.
Defined.

End BackoffStrategy.

(** ** [RateLimitMonitor] *)

Record RateLimitMetrics := {
  totalRequests : Z;
  successfulRequests : Z;
  failedRequests : Z;
  averageLatency : Q;
  queueSize : Z;
  tokensAvailable : Q;
  lastThrottleTime : Z;
  burstCount : Z
}.

Module RateLimitMonitor.

Record t := {
  metrics : RateLimitMetrics;
  latencyHistory : list Z;
  requestTimestamps : list Z;
  config : RateLimitConfig
}.

Definition zeroMetrics : RateLimitMetrics :=
  {| totalRequests := 0; successfulRequests := 0; failedRequests := 0;
     averageLatency := 0; queueSize := 0; tokensAvailable := 0;
     lastThrottleTime := 0; burstCount := 0 |}.

Definition make (cfg : RateLimitConfig) : t :=
  {| metrics := zeroMetrics; latencyHistory := []; requestTimestamps := [];
     config := cfg |}.

Definition withMetrics (f : RateLimitMetrics -> RateLimitMetrics) (m : t) : t :=
  {| metrics := f (metrics m); latencyHistory := latencyHistory m;
     requestTimestamps := requestTimestamps m; config := config m |}.

(** [cleanOldTimestamps()] *)
Definition cleanOldTimestamps (now : Z) (m : t) : t :=
  let windowStart := (inject_Z now - monitoringWindow (config m) * 1000)%Q in
  {| metrics := metrics m; latencyHistory := latencyHistory m;
     requestTimestamps :=
       List.filter (fun ts => Js.geb (inject_Z ts) windowStart)
                   (requestTimestamps m);
     config := config m |}.

(** [recordRequestStart()]; the request id it returns is read by nobody. *)
Definition recordRequestStart (now : Z) (m : t) : t :=
  let m := withMetrics (fun x =>
    {| totalRequests := totalRequests x + 1;
       successfulRequests := successfulRequests x;
       failedRequests := failedRequests x;
       averageLatency := averageLatency x; queueSize := queueSize x;
       tokensAvailable := tokensAvailable x;
       lastThrottleTime := lastThrottleTime x;
       burstCount := burstCount x |}) m in
  cleanOldTimestamps now
    {| metrics := metrics m; latencyHistory := latencyHistory m;
       requestTimestamps := requestTimestamps m ++ [now];
       config := config m |}.

(** [recordLatency(latency)] *)
Definition recordLatency (latency : Z) (m : t) : t :=
  let history := latencyHistory m ++ [latency] in
  {| metrics := metrics m;
     latencyHistory :=
       if (100 <? length history)%nat
       then skipn (length history - 50) history else history;
     requestTimestamps := requestTimestamps m; config := config m |}.

(** [recordRequestSuccess(requestId, latency)] *)
Definition recordRequestSuccess (latency : Z) (m : t) : t :=
  recordLatency latency (withMetrics (fun x =>
    {| totalRequests := totalRequests x;
       successfulRequests := successfulRequests x + 1;
       failedRequests := failedRequests x;
       averageLatency := averageLatency x; queueSize := queueSize x;
       tokensAvailable := tokensAvailable x;
       lastThrottleTime := lastThrottleTime x;
       burstCount := burstCount x |}) m).

(** [recordRequestFailure(requestId, error)] *)
Definition recordRequestFailure (m : t) : t :=
  withMetrics (fun x =>
    {| totalRequests := totalRequests x;
       successfulRequests := successfulRequests x;
       failedRequests := failedRequests x + 1;
       averageLatency := averageLatency x; queueSize := queueSize x;
       tokensAvailable := tokensAvailable x;
       lastThrottleTime := lastThrottleTime x;
       burstCount := burstCount x |}) m.

(** [recordThrottle(tokensAvailable)] *)
Definition recordThrottle (now : Z) (available : Q) (m : t) : t :=
  withMetrics (fun x =>
    {| totalRequests := totalRequests x;
       successfulRequests := successfulRequests x;
       failedRequests := failedRequests x;
       averageLatency := averageLatency x; queueSize := queueSize x;
       tokensAvailable := available;
       lastThrottleTime := now;
       burstCount := burstCount x |}) m.

(** [updateQueueSize(size)] *)
Definition updateQueueSize (size : nat) (m : t) : t :=
  withMetrics (fun x =>
    {| totalRequests := totalRequests x;
       successfulRequests := successfulRequests x;
       failedRequests := failedRequests x;
       averageLatency := averageLatency x; queueSize := Z.of_nat size;
       tokensAvailable := tokensAvailable x;
       lastThrottleTime := lastThrottleTime x;
       burstCount := burstCount x |}) m.

(** [reset()] *)
Definition reset (m : t) : t := make (config m).

(** [recordBurst()] *)
Definition recordBurst (m : t) : t :=
  withMetrics (fun x =>
    {| totalRequests := totalRequests x;
       successfulRequests := successfulRequests x;
       failedRequests := failedRequests x;
       averageLatency := averageLatency x; queueSize := queueSize x;
       tokensAvailable := tokensAvailable x;
       lastThrottleTime := lastThrottleTime x;
       burstCount := burstCount x + 1 |}) m.

(** [latencyHistory.reduce((a, b) => a + b, 0)] *)
Definition sumOf (history : list Z) : Z := fold_left Z.add history 0.

(** [updateAverageLatency()] *)
Definition updateAverageLatency (m : t) : t :=
  if (0 <? length (latencyHistory m))%nat then
    let sum := sumOf (latencyHistory m) in
    withMetrics (fun x =>
      {| totalRequests := totalRequests x;
         successfulRequests := successfulRequests x;
         failedRequests := failedRequests x;
         averageLatency :=
           (inject_Z sum / inject_Z (Z.of_nat (length (latencyHistory m))))%Q;
         queueSize := queueSize x;
         tokensAvailable := tokensAvailable x;
         lastThrottleTime := lastThrottleTime x;
         burstCount := burstCount x |}) m
  else m.

(** [getMetrics()]: the copy it returns, and the monitor after the call. *)
Definition getMetrics (m : t) : t * RateLimitMetrics :=
  let m := updateAverageLatency m in (m, metrics m).

(** The start of the monitoring window at clock value [now]. *)
Definition windowStart (cfg : RateLimitConfig) (now : Z) : Q :=
  (inject_Z now - monitoringWindow cfg * 1000)%Q.

Definition inWindow (cfg : RateLimitConfig) (now : Z) (ts : Z) : bool :=
  Js.geb (inject_Z ts) (windowStart cfg now).

(** A quotient of a count by a number that may be zero. *)
Inductive Rate :=
| PerSecond (q : Q)
| Unbounded
| NotANumber.

(** [count / window] *)
Definition ratio (count : nat) (window : Q) : Rate :=
  if Qeq_bool window 0 then
    if (count =? 0)%nat then NotANumber else Unbounded
  else PerSecond (inject_Z (Z.of_nat count) / window).

(** [getRequestRate()] *)
Definition getRequestRate (now : Z) (m : t) : Rate :=
  let recentRequests :=
    List.filter (inWindow (config m) now) (requestTimestamps m) in
  ratio (length recentRequests) (monitoringWindow (config m)).

(** The calls of the monitor's interface. *)
Inductive Call :=
| RecordRequestStart (now : Z)
| RecordRequestSuccess (latency : Z)
| RecordRequestFailure
| RecordThrottle (now : Z) (available : Q)
| RecordBurst
| UpdateQueueSize (size : nat)
| GetMetrics
| Reset.

Definition perform (m : t) (c : Call) : t :=
  match c with
  | RecordRequestStart now => recordRequestStart now m
  | RecordRequestSuccess latency => recordRequestSuccess latency m
  | RecordRequestFailure => recordRequestFailure m
  | RecordThrottle now available => recordThrottle now available m
  | RecordBurst => recordBurst m
  | UpdateQueueSize size => updateQueueSize size m
  | GetMetrics => fst (getMetrics m)
  | Reset => reset m
  end.

Definition run (m : t) (calls : list Call) : t := fold_left perform calls m.

(** The latencies recorded since the last [reset()], oldest first. *)
Definition noteLatency (acc : list Z) (c : Call) : list Z :=
  match c with
  | RecordRequestSuccess latency => acc ++ [latency]
  | Reset => []
  | _ => acc
  end.

Definition latenciesOf (calls : list Call) : list Z :=
  fold_left noteLatency calls [].

(** The clock values of the requests started since the last [reset()], and
    of all the requests started. *)
Definition noteStart (acc : list Z) (c : Call) : list Z :=
  match c with
  | RecordRequestStart now => acc ++ [now]
  | Reset => []
  | _ => acc
  end.

Definition startsOf (calls : list Call) : list Z := fold_left noteStart calls [].

Definition allStarts (calls : list Call) : list Z :=
  flat_map (fun c => match c with RecordRequestStart now => [now] | _ => [] end)
           calls.

Lemma perform_keeps_config m c : config (perform m c) = config m.
Proof.
  destruct c; try done. simpl. unfold updateAverageLatency.
  by destruct (_ <? _)%nat.
Qed.

Lemma run_calls_snoc m calls c : run m (calls ++ [c]) = perform (run m calls) c.
Proof. unfold run. by rewrite fold_left_app. Qed.

Lemma run_keeps_config calls : forall m, config (run m calls) = config m.
Proof.
  induction calls as [|c calls IH]; intros m; [done|].
  simpl. fold (run (perform m c) calls). by rewrite IH, perform_keeps_config.
Qed.

Lemma perform_latencyHistory m c :
  latencyHistory (perform m c) =
    match c with
    | RecordRequestSuccess latency =>
        let history := latencyHistory m ++ [latency] in
        if (100 <? length history)%nat
        then skipn (length history - 50) history else history
    | Reset => []
    | _ => latencyHistory m
    end.
Proof.
  destruct c; try done. simpl. unfold updateAverageLatency.
  by destruct (_ <? _)%nat.
Qed.

(** X3. Whatever calls the monitor has served, it keeps at most the 100
    latencies recorded last since the last [reset()], in the order they were
    recorded: all of them while there are at most 100, and at least the
    last 50 from then on. *)
Theorem latency_history_is_a_bounded_suffix
  (cfg : RateLimitConfig) (calls : list Call) :
  let history := latencyHistory (run (make cfg) calls) in
  (length history <= 100)%nat /\
  history `suffix_of` latenciesOf calls /\
  ((length (latenciesOf calls) <= 100)%nat -> history = latenciesOf calls) /\
  ((50 <= length (latenciesOf calls))%nat -> (50 <= length history)%nat).
Proof.
  simpl.
  assert (H : (length (latencyHistory (run (make cfg) calls)) <= 100)%nat /\
              latencyHistory (run (make cfg) calls) `suffix_of`
                latenciesOf calls /\
              (latencyHistory (run (make cfg) calls) = latenciesOf calls \/
               (50 <= length (latencyHistory (run (make cfg) calls)))%nat /\
               (100 < length (latenciesOf calls))%nat)).
  { induction calls as [|c calls IH] using rev_ind.
    - simpl. split; [lia|]. split; [done|]. by left.
    - destruct IH as (Hlen & Hsuf & Hcase).
      rewrite run_calls_snoc, perform_latencyHistory.
      unfold latenciesOf in *. rewrite fold_left_app. simpl.
      set (h := latencyHistory (run (make cfg) calls)) in *.
      set (L := fold_left noteLatency calls []) in *.
      destruct c; simpl; try (split; [done|]; split; [done|]; done).
      + rewrite length_app. simpl.
        destruct (100 <? length h + 1)%nat eqn:E.
        * apply Nat.ltb_lt in E. rewrite length_skipn, length_app. simpl.
          split; [lia|]. split.
          { etrans; [apply suffix_drop|]. by apply suffix_app. }
          right. split; [lia|]. rewrite length_app. simpl.
          destruct Hcase as [<-|[_ Hbig]]; lia.
        * apply Nat.ltb_ge in E.
          split; [rewrite length_app; simpl; lia|].
          split; [by apply suffix_app|].
          destruct Hcase as [->|[Hfifty Hbig]]; [by left|].
          right. rewrite !length_app. simpl. lia.
      + split; [simpl; lia|]. split; [done|]. by left. }
  destruct H as (Hlen & Hsuf & Hcase).
  split; [done|]. split; [done|]. split.
  - intros Hsmall. destruct Hcase as [->|[_ Hbig]]; [done|lia].
  - intros Hfifty. destruct Hcase as [->|[? _]]; done.
Qed.

Lemma filter_inWindow_later cfg t1 t2 (l : list Z) :
  t1 <= t2 ->
  List.filter (inWindow cfg t2) (List.filter (inWindow cfg t1) l) =
  List.filter (inWindow cfg t2) l.
Proof.
  intros Hle. induction l as [|ts l IH]; [done|]. simpl.
  destruct (inWindow cfg t1 ts) eqn:E1; simpl; rewrite IH; [done|].
  destruct (inWindow cfg t2 ts) eqn:E2; [|done]. exfalso.
  unfold inWindow, windowStart in *.
  apply Js.geb_true in E2. apply Js.geb_false in E1.
  assert (H : (inject_Z t1 <= inject_Z t2)%Q) by (by rewrite <- Zle_Qle).
  lra.
Qed.

Lemma last_elem_of (l : list Z) (d : Z) : l <> [] -> List.last l d ∈ l.
Proof.
  induction l as [|x l IH]; [done|]. intros _.
  destruct l as [|y l]; [by left|]. right. by apply IH.
Qed.

(** The timestamps the monitor holds are those of the requests started
    since the last reset that were in the window when the last one
    started. *)
Lemma requestTimestamps_run cfg calls :
  StronglySorted Z.le (allStarts calls) ->
  requestTimestamps (run (make cfg) calls) =
    List.filter (inWindow cfg (List.last (startsOf calls) 0)) (startsOf calls) /\
  startsOf calls `suffix_of` allStarts calls.
Proof.
  induction calls as [|c calls IH] using rev_ind; intros Hsorted.
  - done.
  - unfold allStarts in Hsorted. rewrite flat_map_app in Hsorted.
    fold (allStarts calls) in Hsorted.
    pose proof (StronglySorted_app_1_l _ _ _ Hsorted) as Hprefix.
    destruct (IH Hprefix) as [Hts Hsuf].
    rewrite run_calls_snoc. unfold startsOf in *. rewrite fold_left_app. simpl.
    unfold allStarts. rewrite flat_map_app. fold (allStarts calls).
    set (S := fold_left noteStart calls []) in *.
    destruct c; simpl; rewrite ?app_nil_r; try (split; [exact Hts | exact Hsuf]).
    + split; [|by apply suffix_app].
      rewrite last_last. unfold cleanOldTimestamps. simpl.
      rewrite run_keeps_config. simpl.
      change (fun ts => Js.geb (inject_Z ts)
                          (inject_Z now - monitoringWindow cfg * 1000))
        with (inWindow cfg now).
      rewrite Hts, !List.filter_app.
      destruct S as [|s S'] eqn:ES; [done|].
      f_equal. apply filter_inWindow_later.
      assert (Hin : List.last (s :: S') 0 ∈ allStarts calls).
      { destruct Hsuf as [k ->]. apply elem_of_app. right.
        by apply last_elem_of. }
      simpl in Hsorted.
      apply (StronglySorted_app_1_elem_of Z.le (allStarts calls) [now]
               _ now Hsorted Hin).
      by apply list_elem_of_singleton.
    + simpl. unfold updateAverageLatency.
      split; [|exact Hsuf]. by destruct (_ <? _)%nat.
    + split; [done|]. apply suffix_nil.
Qed.

(** X4. On a clock that does not go back, dropping old timestamps loses
    nothing that counts: [getRequestRate()] is the number of requests
    started since the last [reset()] at a clock value within the monitoring
    window of the present one, divided by the length of the window. *)
Theorem request_rate_counts_the_window
  (cfg : RateLimitConfig) (calls : list Call) (now : Z) :
  StronglySorted Z.le (allStarts calls ++ [now]) ->
  getRequestRate now (run (make cfg) calls) =
    ratio (length (List.filter (inWindow cfg now) (startsOf calls)))
          (monitoringWindow cfg).
Proof.
  intros Hsorted.
  pose proof (StronglySorted_app_1_l _ _ _ Hsorted) as Hprefix.
  destruct (requestTimestamps_run cfg calls Hprefix) as [Hts Hsuf].
  unfold getRequestRate. rewrite run_keeps_config. simpl. rewrite Hts.
  destruct (startsOf calls) as [|s S'] eqn:ES; [done|].
  f_equal. f_equal. apply filter_inWindow_later.
  assert (Hin : List.last (s :: S') 0 ∈ allStarts calls).
  { destruct Hsuf as [k ->]. apply elem_of_app. right.
    by apply last_elem_of. }
  apply (StronglySorted_app_1_elem_of Z.le (allStarts calls) [now]
           _ now Hsorted Hin).
  by apply list_elem_of_singleton.
Qed.

(** A one-second window: of three requests started at 0, 500 and 1400, the
    two started at 500 and 1400 count at 1500. *)
Definition oneSecondWindow : RateLimitConfig :=
  {| bucketCapacity := 30; refillRate := 1 # 2; maxQueueSize := 100;
     baseBackoffDelay := 1000; maxBackoffDelay := 30000;
     monitoringWindow := 1 |}.

Lemma request_rate_witness :
  getRequestRate 1500
    (run (make oneSecondWindow)
       [RecordRequestStart 0; RecordRequestStart 500; GetMetrics;
        RecordRequestStart 1400]) =
  ratio 2 1.
Proof.
  apply (request_rate_counts_the_window oneSecondWindow
           [RecordRequestStart 0; RecordRequestStart 500; GetMetrics;
            RecordRequestStart 1400] 1500).
  repeat constructor; lia.
Defined.

End RateLimitMonitor.

(** ** [AdvancedRateLimiter] *)

Module AdvancedRateLimiter.
Import JsString.
Import ErrorRecovery(Error, message).

Inductive RequestPriority := LOW | NORMAL | HIGH | URGENT.

(** The numeric value of the enumeration. *)
Definition priorityValue (p : RequestPriority) : Z :=
  match p with LOW => 0 | NORMAL => 1 | HIGH => 2 | URGENT => 3 end.

(** The operation a request carries: the stream handler submits sends and
    edits of a text; any other operation is opaque to the limiter. *)
Inductive Thunk :=
| SendMessage (text : string)
| EditMessage (text : string)
| Opaque (tag : nat).

(** What an operation answers with: the [message_id] of the response, when
    it has one. *)
Definition Response := option Z.

(** How a promise settles: with a value, with an [Error] (any value that
    carries a message string), or with a value that carries none, such as a
    thrown string or [undefined]; [reason] describes that value. *)
Inductive Outcome :=
| Fulfilled (value : Response)
| Failed (error : Error)
| Rejected (reason : string).

Record QueuedRequest := {
  id : string;
  priority : RequestPriority;
  timestamp : Z;
  retryCount : Z;
  data : Thunk
}.

(** Where [processQueue] is suspended. *)
Inductive Continuation :=
| NotRunning
| AwaitTokenDelay (request : QueuedRequest)
| AwaitRequest (request : QueuedRequest) (startTime : Z)
| AwaitBackoffDelay (request : QueuedRequest) (delay : Binary64.Double)
| AwaitExecuteRequest.

Record t := {
  tokenBucket : TokenBucket.t;
  monitor : RateLimitMonitor.t;
  backoffStrategy : BackoffStrategy.t;
  requestQueue : list QueuedRequest;
  processing : bool;
  config : RateLimitConfig;
  continuation : Continuation;
  (** the requests whose operation was invoked, in the order of the calls *)
  started : list QueuedRequest;
  (** the calls of [resolve] and [reject], in order *)
  settled : list (QueuedRequest * Outcome)
}.

(** [new AdvancedRateLimiter(config)] at clock value [now]. *)
Definition make (cfg : RateLimitConfig) (now : Z) : t :=
  {| tokenBucket := TokenBucket.make cfg now;
     monitor := RateLimitMonitor.make cfg;
     backoffStrategy := BackoffStrategy.make cfg;
     requestQueue := []; processing := false; config := cfg;
     continuation := NotRunning; started := []; settled := [] |}.

Definition withTokenBucket (b : TokenBucket.t) (l : t) : t :=
  {| tokenBucket := b; monitor := monitor l;
     backoffStrategy := backoffStrategy l; requestQueue := requestQueue l;
     processing := processing l; config := config l;
     continuation := continuation l; started := started l;
     settled := settled l |}.

Definition withMonitor (m : RateLimitMonitor.t) (l : t) : t :=
  {| tokenBucket := tokenBucket l; monitor := m;
     backoffStrategy := backoffStrategy l; requestQueue := requestQueue l;
     processing := processing l; config := config l;
     continuation := continuation l; started := started l;
     settled := settled l |}.

Definition withBackoffStrategy (s : BackoffStrategy.t) (l : t) : t :=
  {| tokenBucket := tokenBucket l; monitor := monitor l;
     backoffStrategy := s; requestQueue := requestQueue l;
     processing := processing l; config := config l;
     continuation := continuation l; started := started l;
     settled := settled l |}.

Definition withRequestQueue (q : list QueuedRequest) (l : t) : t :=
  {| tokenBucket := tokenBucket l; monitor := monitor l;
     backoffStrategy := backoffStrategy l; requestQueue := q;
     processing := processing l; config := config l;
     continuation := continuation l; started := started l;
     settled := settled l |}.

Definition withProcessing (p : bool) (l : t) : t :=
  {| tokenBucket := tokenBucket l; monitor := monitor l;
     backoffStrategy := backoffStrategy l; requestQueue := requestQueue l;
     processing := p; config := config l;
     continuation := continuation l; started := started l;
     settled := settled l |}.

Definition withContinuation (k : Continuation) (l : t) : t :=
  {| tokenBucket := tokenBucket l; monitor := monitor l;
     backoffStrategy := backoffStrategy l; requestQueue := requestQueue l;
     processing := processing l; config := config l;
     continuation := k; started := started l; settled := settled l |}.

(** [request.data()] is called. *)
Definition invoke (request : QueuedRequest) (l : t) : t :=
  {| tokenBucket := tokenBucket l; monitor := monitor l;
     backoffStrategy := backoffStrategy l; requestQueue := requestQueue l;
     processing := processing l; config := config l;
     continuation := continuation l; started := started l ++ [request];
     settled := settled l |}.

(** [request.resolve(value)] or [request.reject(error)] is called. *)
Definition settle (request : QueuedRequest) (o : Outcome) (l : t) : t :=
  {| tokenBucket := tokenBucket l; monitor := monitor l;
     backoffStrategy := backoffStrategy l; requestQueue := requestQueue l;
     processing := processing l; config := config l;
     continuation := continuation l; started := started l;
     settled := settled l ++ [(request, o)] |}.

Definition queueFullError : Error := {| message := "Request queue is full" |}.

(** The loop of [enqueueRequest]: the index of the first queued request of
    lower priority, the length of the queue when there is none. *)
Fixpoint insertIndexFrom (i : nat) (queue : list QueuedRequest)
  (p : RequestPriority) : nat :=
  match queue with
  | [] => i
  | r :: queue' =>
      if priorityValue (priority r) <? priorityValue p then i
      else insertIndexFrom (S i) queue' p
  end.

(** [queue.splice(index, 0, request)] *)
Definition splice (index : nat) (request : QueuedRequest)
  (queue : list QueuedRequest) : list QueuedRequest :=
  firstn index queue ++ request :: skipn index queue.

(** [enqueueRequest(request)] *)
Definition enqueueRequest (request : QueuedRequest) (l : t) : t :=
  if Z.of_nat (length (requestQueue l)) >=? maxQueueSize (config l) then
    settle request (Failed queueFullError) l
  else
    let insertIndex := insertIndexFrom 0 (requestQueue l) (priority request) in
    let queue := splice insertIndex request (requestQueue l) in
    withMonitor (RateLimitMonitor.updateQueueSize (length queue) (monitor l))
      (withRequestQueue queue l).

(** [shouldRetry(error)] *)
Definition shouldRetry (error : Error) : bool :=
  let message := toLowerCase (message error) in
  includes message "rate limit" ||
  includes message "timeout" ||
  includes message "network" ||
  includes message "server error" ||
  includes message "502" ||
  includes message "503" ||
  includes message "504".

(** [executeRequest] from the token check passed to [await request.data()]. *)
Definition beginRequest (now : Z) (request : QueuedRequest) (l : t) : t :=
  let l := withMonitor (RateLimitMonitor.recordRequestStart now (monitor l)) l in
  withContinuation (AwaitRequest request now) (invoke request l).

(** [executeRequest(request)] up to its first [await]. *)
Definition executeRequest (now : Z) (request : QueuedRequest) (l : t) : t :=
  let (bucket, granted) := TokenBucket.consume now 1 (tokenBucket l) in
  if granted then beginRequest now request (withTokenBucket bucket l)
  else
    let (bucket, waitTime) := TokenBucket.getNextTokenTime now 1 bucket in
    if Js.isPositive waitTime then
      let (bucket, available) := TokenBucket.getAvailableTokens now bucket in
      withContinuation (AwaitTokenDelay request)
        (withMonitor
           (RateLimitMonitor.recordThrottle now available (monitor l))
           (withTokenBucket bucket l))
    else beginRequest now request (withTokenBucket bucket l).

(** One turn of the loop of [processQueue], up to the next [await]. *)
Definition processQueueLoop (now : Z) (l : t) : t :=
  match requestQueue l with
  | [] => withContinuation NotRunning (withProcessing false l)
  | request :: rest =>
      let l := withRequestQueue rest l in
      let l :=
        withMonitor
          (RateLimitMonitor.updateQueueSize (length rest) (monitor l)) l in
      executeRequest now request l
  end.

(** [processQueue()] up to its first [await]. *)
Definition processQueue (now : Z) (l : t) : t :=
  if processing l || (length (requestQueue l) =? 0)%nat then l
  else processQueueLoop now (withProcessing true l).

(** [execute(request, priority, retryCount)]: the executor of the promise
    it returns runs at once. *)
Definition execute (now : Z) (id : string) (data : Thunk)
  (priority : RequestPriority) (retryCount : Z) (l : t) : t :=
  let queuedRequest :=
    {| id := id; priority := priority; timestamp := now;
       retryCount := retryCount; data := data |} in
  processQueue now (enqueueRequest queuedRequest l).

Definition retried (request : QueuedRequest) : QueuedRequest :=
  {| id := id request; priority := priority request;
     timestamp := timestamp request; retryCount := retryCount request + 1;
     data := data request |}.

(** [executeRequest] after [request.data()] has settled. *)
Definition afterRequest (now : Z) (random : Q) (request : QueuedRequest)
  (startTime : Z) (o : Outcome) (l : t) : t :=
  match o with
  | Fulfilled result =>
      let latency := now - startTime in
      let l :=
        withMonitor
          (RateLimitMonitor.recordRequestSuccess latency (monitor l)) l in
      let l :=
        withBackoffStrategy
          (BackoffStrategy.recordSuccess (backoffStrategy l)) l in
      withContinuation AwaitExecuteRequest
        (settle request (Fulfilled result) l)
  | Failed error =>
      let l :=
        withMonitor (RateLimitMonitor.recordRequestFailure (monitor l)) l in
      let l :=
        withBackoffStrategy
          (BackoffStrategy.recordFailure (Some error) (backoffStrategy l)) l in
      if (retryCount request <? 3) && shouldRetry error then
        let delay :=
          BackoffStrategy.calculateDelay (Some error) random
            (backoffStrategy l) in
        withContinuation (AwaitBackoffDelay request delay) l
      else
        withContinuation AwaitExecuteRequest
          (settle request (Failed error) l)
  | Rejected reason =>
      let l :=
        withMonitor (RateLimitMonitor.recordRequestFailure (monitor l)) l in
      let l :=
        withBackoffStrategy
          (BackoffStrategy.recordFailure None (backoffStrategy l)) l in
      if retryCount request <? 3 then
        (* [shouldRetry] throws a [TypeError] on [error.message.toLowerCase()];
           the [catch] of [processQueue] logs it and the loop goes on: the
           promise of the request is neither resolved nor rejected *)
        withContinuation AwaitExecuteRequest l
      else
        withContinuation AwaitExecuteRequest
          (settle request (Rejected reason) l)
  end.

(** [executeRequest] after the backoff delay: the retry is queued. *)
Definition afterBackoff (request : QueuedRequest) (l : t) : t :=
  withContinuation AwaitExecuteRequest (enqueueRequest (retried request) l).

(** What the event loop may run next. *)
Inductive Event :=
| Execute (now : Z) (id : string) (data : Thunk)
    (priority : RequestPriority) (retryCount : Z)
| TimerFires (now : Z)
| RequestSettles (now : Z) (random : Q) (o : Outcome)
| ProcessQueueResumes (now : Z).

(** One atomic run of the limiter's code. An event that the suspended
    [processQueue] does not wait for changes nothing. *)
Definition step (l : t) (ev : Event) : t :=
  match ev, continuation l with
  | Execute now id data priority retryCount, _ =>
      execute now id data priority retryCount l
  | TimerFires now, AwaitTokenDelay request => beginRequest now request l
  | TimerFires now, AwaitBackoffDelay request _ => afterBackoff request l
  | RequestSettles now random o, AwaitRequest request startTime =>
      afterRequest now random request startTime o l
  | ProcessQueueResumes now, AwaitExecuteRequest => processQueueLoop now l
  | _, _ => l
  end.

Definition run (l : t) (evs : list Event) : t := fold_left step evs l.

(** The states a limiter built with [cfg] can be in. *)
Inductive reachable (cfg : RateLimitConfig) : t -> Prop :=
| reachable_make now : reachable cfg (make cfg now)
| reachable_step l ev : reachable cfg l -> reachable cfg (step l ev).

(** Priority-descending order. *)
Fixpoint descending (queue : list QueuedRequest) : Prop :=
  match queue with
  | [] => True
  | r :: queue' =>
      Forall (fun r' => priorityValue (priority r') <=
                        priorityValue (priority r)) queue' /\
      descending queue'
  end.


(** *** The queue discipline *)

(** [enqueueRequest]'s insertion, by recursion on the queue. *)
Fixpoint insertByPriority (request : QueuedRequest)
  (queue : list QueuedRequest) : list QueuedRequest :=
  match queue with
  | [] => [request]
  | r :: queue' =>
      if priorityValue (priority r) <? priorityValue (priority request)
      then request :: r :: queue'
      else r :: insertByPriority request queue'
  end.

Lemma insertIndexFrom_S i queue p :
  insertIndexFrom (S i) queue p = S (insertIndexFrom i queue p).
Proof.
  revert i. induction queue as [|r queue IH]; intros i; simpl; [done|].
  destruct (_ <? _); [done|]. apply IH.
Qed.

Lemma splice_insertByPriority request queue :
  splice (insertIndexFrom 0 queue (priority request)) request queue =
  insertByPriority request queue.
Proof.
  unfold splice. induction queue as [|r queue IH]; simpl; [done|].
  destruct (_ <? _); [done|].
  rewrite insertIndexFrom_S. simpl. by rewrite IH.
Qed.

Lemma length_insertByPriority request queue :
  length (insertByPriority request queue) = S (length queue).
Proof.
  induction queue as [|r queue IH]; simpl; [done|].
  destruct (_ <? _); simpl; by rewrite ?IH.
Qed.

Lemma Forall_insertByPriority (P : QueuedRequest -> Prop) request queue :
  P request -> Forall P queue -> Forall P (insertByPriority request queue).
Proof.
  intros Hr. induction 1 as [|r queue Hx Hq IH]; simpl.
  - by constructor.
  - destruct (_ <? _); repeat constructor; done.
Qed.

Lemma descending_insertByPriority request queue :
  descending queue -> descending (insertByPriority request queue).
Proof.
  induction queue as [|r queue IH]; simpl.
  - intros _. split; [constructor | done].
  - intros [Hall Hdesc].
    destruct (priorityValue (priority r) <? priorityValue (priority request))
      eqn:E.
    + apply Z.ltb_lt in E. simpl. split; [|by split].
      constructor; [lia|].
      eapply Forall_impl; [exact Hall|]. simpl. intros. lia.
    + apply Z.ltb_ge in E. simpl. split; [|by apply IH].
      by apply Forall_insertByPriority.
Qed.

(** The new request goes behind every request of its priority or higher and
    before every request of lower priority; the others keep their order. *)
Lemma insertByPriority_stable request queue :
  descending queue ->
  exists before after,
    queue = before ++ after /\
    insertByPriority request queue = before ++ request :: after /\
    Forall (fun r => priorityValue (priority request) <=
                     priorityValue (priority r)) before /\
    Forall (fun r => priorityValue (priority r) <
                     priorityValue (priority request)) after.
Proof.
  induction queue as [|r queue IH]; simpl.
  - intros _. exists [], []. repeat split; constructor.
  - intros [Hall Hdesc].
    destruct (priorityValue (priority r) <? priorityValue (priority request))
      eqn:E.
    + apply Z.ltb_lt in E. exists [], (r :: queue).
      repeat split; try constructor; try done.
      eapply Forall_impl; [exact Hall|]. simpl. intros. lia.
    + apply Z.ltb_ge in E.
      destruct (IH Hdesc) as (before & after & -> & Hins & Hb & Ha).
      exists (r :: before), after. rewrite Hins.
      repeat split; try done. by constructor.
Qed.

(** *** Frame lemmas for the pieces of [processQueue] *)

Lemma enqueueRequest_full request l :
  Z.of_nat (length (requestQueue l)) >= maxQueueSize (config l) ->
  enqueueRequest request l = settle request (Failed queueFullError) l.
Proof.
  intros H. unfold enqueueRequest.
  destruct (_ >=? _) eqn:E; [done|]. rewrite Z.geb_leb in E.
  apply Z.leb_gt in E. lia.
Qed.

Lemma enqueueRequest_room request l :
  Z.of_nat (length (requestQueue l)) < maxQueueSize (config l) ->
  requestQueue (enqueueRequest request l) =
    insertByPriority request (requestQueue l) /\
  settled (enqueueRequest request l) = settled l /\
  started (enqueueRequest request l) = started l.
Proof.
  intros H. unfold enqueueRequest.
  destruct (_ >=? _) eqn:E.
  - apply Z.geb_le in E. lia.
  - simpl. by rewrite splice_insertByPriority.
Qed.

Lemma enqueueRequest_frame request l :
  processing (enqueueRequest request l) = processing l /\
  continuation (enqueueRequest request l) = continuation l /\
  config (enqueueRequest request l) = config l /\
  started (enqueueRequest request l) = started l /\
  tokenBucket (enqueueRequest request l) = tokenBucket l /\
  backoffStrategy (enqueueRequest request l) = backoffStrategy l.
Proof. unfold enqueueRequest. by destruct (_ >=? _). Qed.

Lemma enqueueRequest_descending request l :
  descending (requestQueue l) ->
  descending (requestQueue (enqueueRequest request l)).
Proof.
  intros H. unfold enqueueRequest. destruct (_ >=? _); simpl; [done|].
  rewrite splice_insertByPriority. by apply descending_insertByPriority.
Qed.

Lemma executeRequest_frame now request l :
  requestQueue (executeRequest now request l) = requestQueue l /\
  processing (executeRequest now request l) = processing l /\
  config (executeRequest now request l) = config l /\
  settled (executeRequest now request l) = settled l /\
  continuation (executeRequest now request l) <> NotRunning /\
  continuation (executeRequest now request l) <> AwaitExecuteRequest.
Proof.
  unfold executeRequest.
  destruct (TokenBucket.consume _ _ _) as [b1 [|]]; [done|].
  destruct (TokenBucket.getNextTokenTime _ _ _) as [b2 w].
  destruct (Js.isPositive w); [|done].
  by destruct (TokenBucket.getAvailableTokens _ _) as [b3 a].
Qed.

(** [executeRequest] either invokes the operation at once or waits for a
    token with the request in hand. *)
Lemma executeRequest_started now request l :
  (started (executeRequest now request l) = started l ++ [request] /\
   continuation (executeRequest now request l) = AwaitRequest request now) \/
  (started (executeRequest now request l) = started l /\
   continuation (executeRequest now request l) = AwaitTokenDelay request).
Proof.
  unfold executeRequest.
  destruct (TokenBucket.consume _ _ _) as [b1 [|]]; [by left|].
  destruct (TokenBucket.getNextTokenTime _ _ _) as [b2 w].
  destruct (Js.isPositive w); [|by left].
  destruct (TokenBucket.getAvailableTokens _ _) as [b3 a]. by right.
Qed.

(** What every reachable state satisfies: the queue is priority-descending,
    [processing] tells whether [processQueue] is suspended, and nothing is
    pending while it is not. *)
Definition invariant (cfg : RateLimitConfig) (l : t) : Prop :=
  config l = cfg /\
  descending (requestQueue l) /\
  (processing l = false -> requestQueue l = [] /\ continuation l = NotRunning) /\
  (processing l = true -> continuation l <> NotRunning).

Lemma processQueueLoop_invariant cfg now l :
  config l = cfg -> descending (requestQueue l) -> processing l = true ->
  invariant cfg (processQueueLoop now l).
Proof.
  intros Hcfg Hdesc Hproc. unfold processQueueLoop.
  destruct (requestQueue l) as [|request rest] eqn:E.
  - repeat split; simpl; rewrite ?E; try done.
  - match goal with |- invariant _ (executeRequest ?n ?r ?l') =>
      destruct (executeRequest_frame n r l') as (Hq & Hp & Hc & _ & Hk & _)
    end.
    simpl in *. destruct Hdesc as [_ Hdesc].
    unfold invariant. rewrite Hq, Hp, Hc, Hproc.
    repeat split; try done.
Qed.

Lemma step_invariant cfg l ev : invariant cfg l -> invariant cfg (step l ev).
Proof.
  intros Hinv. pose proof Hinv as (Hcfg & Hdesc & Hidle & Hbusy).
  assert (Hrun : continuation l <> NotRunning -> processing l = true).
  { intros Hk. destruct (processing l); [done|]. by destruct Hidle. }
  destruct ev as [now i d p rc|now|now random o|now]; simpl.
  - unfold execute, processQueue.
    set (request := {| id := i; priority := p; timestamp := now;
                       retryCount := rc; data := d |}).
    destruct (enqueueRequest_frame request l) as (Hp & Hk & Hc & _).
    pose proof (enqueueRequest_descending request l Hdesc) as Hd.
    destruct (processing l) eqn:Eproc.
    + rewrite Hp. simpl. unfold invariant. rewrite Hp, Hk, Hc.
      repeat split; try done.
    + rewrite Hp. simpl. destruct (Hidle eq_refl) as [Hq0 Hk0].
      destruct (length (requestQueue (enqueueRequest request l)) =? 0)%nat
        eqn:Elen.
      * apply Nat.eqb_eq in Elen. unfold invariant. rewrite Hp, Hk, Hc.
        repeat split; try done.
        by destruct (requestQueue (enqueueRequest request l)).
      * apply processQueueLoop_invariant; simpl; congruence.
  - destruct (continuation l) eqn:Ek; try exact Hinv.
    + unfold beginRequest, invariant. simpl. rewrite Hrun by done.
      repeat split; done.
    + unfold afterBackoff, invariant. simpl.
      destruct (enqueueRequest_frame (retried request) l)
        as (Hp & Hk & Hc & _).
      pose proof (enqueueRequest_descending (retried request) l Hdesc) as Hd.
      rewrite Hp, Hc, Hrun by done. repeat split; done.
  - destruct (continuation l) eqn:Ek; try exact Hinv.
    unfold afterRequest, invariant. destruct o as [v|e|r].
    + simpl. rewrite Hrun by done. repeat split; done.
    + destruct (_ && _); simpl; rewrite Hrun by done; repeat split; done.
    + destruct (_ <? _); simpl; rewrite Hrun by done; repeat split; done.
  - destruct (continuation l) eqn:Ek; try exact Hinv.
    apply processQueueLoop_invariant; try done.
    by apply Hrun.
Qed.

Lemma reachable_invariant cfg l : reachable cfg l -> invariant cfg l.
Proof.
  induction 1 as [now|l ev _ IH].
  - repeat split; simpl; done.
  - by apply step_invariant.
Qed.

Lemma run_app l evs evs' : run l (evs ++ evs') = run (run l evs) evs'.
Proof. apply fold_left_app. Qed.

Lemma run_reachable cfg l evs :
  reachable cfg l -> reachable cfg (run l evs).
Proof.
  revert l. induction evs as [|ev evs IH]; intros l H; [done|].
  simpl. apply IH. by constructor.
Qed.

(** *** The log of settlements is write-only *)

(** The limiter without its log of settlements. *)
Definition forget (l : t) : t :=
  {| tokenBucket := tokenBucket l; monitor := monitor l;
     backoffStrategy := backoffStrategy l; requestQueue := requestQueue l;
     processing := processing l; config := config l;
     continuation := continuation l; started := started l; settled := [] |}.

Ltac split_ifs :=
  repeat match goal with
         | |- context [if ?c then _ else _] => destruct c
         | |- context [let (_, _) := ?p in _] => destruct p
         | |- context [match ?x with _ => _ end] => destruct x
         end.

Lemma forget_enqueueRequest request l :
  forget (enqueueRequest request l) = forget (enqueueRequest request (forget l)).
Proof. destruct l. unfold enqueueRequest. simpl. by split_ifs. Qed.

Lemma forget_executeRequest now request l :
  forget (executeRequest now request l) =
  forget (executeRequest now request (forget l)).
Proof.
  destruct l. unfold executeRequest. simpl.
  destruct (TokenBucket.consume _ _ _) as [b1 [|]]; [done|].
  destruct (TokenBucket.getNextTokenTime _ _ _) as [b2 w].
  by destruct (Js.isPositive w).
Qed.

Lemma forget_processQueueLoop now l :
  forget (processQueueLoop now l) = forget (processQueueLoop now (forget l)).
Proof.
  unfold processQueueLoop.
  change (requestQueue (forget l)) with (requestQueue l).
  destruct (requestQueue l) as [|request rest]; [done|].
  rewrite forget_executeRequest. symmetry.
  by rewrite forget_executeRequest.
Qed.

Lemma forget_step l ev : forget (step l ev) = forget (step (forget l) ev).
Proof.
  destruct ev as [now i d p rc|now|now random o|now]; simpl.
  - unfold execute, processQueue.
    set (request := {| id := i; priority := p; timestamp := now;
                       retryCount := rc; data := d |}).
    pose proof (forget_enqueueRequest request l) as E.
    assert (Hp : processing (enqueueRequest request (forget l)) =
                 processing (enqueueRequest request l)).
    { change (processing (forget (enqueueRequest request (forget l))) =
              processing (forget (enqueueRequest request l))).
      by rewrite E. }
    assert (Hq : requestQueue (enqueueRequest request (forget l)) =
                 requestQueue (enqueueRequest request l)).
    { change (requestQueue (forget (enqueueRequest request (forget l))) =
              requestQueue (forget (enqueueRequest request l))).
      by rewrite E. }
    rewrite Hp, Hq.
    destruct (_ || _); [done|].
    rewrite forget_processQueueLoop. symmetry.
    rewrite forget_processQueueLoop.
    change (forget (withProcessing true ?x)) with (withProcessing true (forget x)).
    by rewrite E.
  - destruct (continuation l) eqn:Ek; try done.
    unfold afterBackoff.
    change (forget (withContinuation ?k ?x)) with (withContinuation k (forget x)).
    by rewrite forget_enqueueRequest.
  - destruct (continuation l) eqn:Ek; try done.
    unfold afterRequest. destruct o as [v|e|r]; [done| |].
    + simpl. by destruct (_ && _).
    + simpl. by destruct (_ <? _).
  - destruct (continuation l) eqn:Ek; try done.
    apply forget_processQueueLoop.
Qed.

Lemma forget_run evs : forall l,
  forget (run l evs) = forget (run (forget l) evs).
Proof.
  induction evs as [|ev evs IH]; intros l; [done|].
  simpl. fold (run (step l ev) evs). fold (run (step (forget l) ev) evs).
  rewrite IH, forget_step, <- IH. done.
Qed.

(** Two limiters that differ in their logs of settlements only stay so. *)
Lemma run_forget_eq l l' evs :
  forget l = forget l' ->
  requestQueue (run l evs) = requestQueue (run l' evs) /\
  started (run l evs) = started (run l' evs) /\
  continuation (run l evs) = continuation (run l' evs).
Proof.
  intros E.
  assert (H : forget (run l evs) = forget (run l' evs)).
  { by rewrite forget_run, E, <- forget_run. }
  repeat split.
  - change (requestQueue (forget (run l evs)) =
            requestQueue (forget (run l' evs))). by rewrite H.
  - change (started (forget (run l evs)) = started (forget (run l' evs))).
    by rewrite H.
  - change (continuation (forget (run l evs)) =
            continuation (forget (run l' evs))). by rewrite H.
Qed.

(** *** One operation at a time, from the head of the queue *)

Lemma processQueueLoop_started now l :
  (requestQueue l = [] /\ started (processQueueLoop now l) = started l) \/
  exists request rest,
    requestQueue l = request :: rest /\
    requestQueue (processQueueLoop now l) = rest /\
    ((started (processQueueLoop now l) = started l ++ [request] /\
      continuation (processQueueLoop now l) = AwaitRequest request now) \/
     (started (processQueueLoop now l) = started l /\
      continuation (processQueueLoop now l) = AwaitTokenDelay request)).
Proof.
  unfold processQueueLoop.
  destruct (requestQueue l) as [|request rest]; [by left|].
  right. exists request, rest. split; [done|].
  match goal with |- context [executeRequest ?n ?r ?l'] =>
    destruct (executeRequest_frame n r l') as (Hq & _);
    destruct (executeRequest_started n r l') as [[Hs Hk]|[Hs Hk]]
  end; (split; [exact Hq|]); [left|right]; by rewrite Hs, Hk.
Qed.

(** The submission an [Execute] event makes. *)
Definition submitted (ev : Event) : option QueuedRequest :=
  match ev with
  | Execute now i d p rc =>
      Some {| id := i; priority := p; timestamp := now; retryCount := rc;
              data := d |}
  | _ => None
  end.

Lemma step_started cfg l ev :
  invariant cfg l ->
  started (step l ev) = started l \/
  exists request,
    started (step l ev) = started l ++ [request] /\
    (exists startTime,
        continuation (step l ev) = AwaitRequest request startTime) /\
    (forall r startTime, continuation l <> AwaitRequest r startTime) /\
    (continuation l = AwaitTokenDelay request \/
     (continuation l = AwaitExecuteRequest /\
      requestQueue l = request :: requestQueue (step l ev)) \/
     (continuation l = NotRunning /\ requestQueue l = [] /\
      submitted ev = Some request)).
Proof.
  intros (Hcfg & Hdesc & Hidle & Hbusy).
  destruct ev as [now i d p rc|now|now random o|now]; simpl.
  - unfold execute, processQueue.
    set (request := {| id := i; priority := p; timestamp := now;
                       retryCount := rc; data := d |}).
    destruct (enqueueRequest_frame request l) as (Hp & Hk & Hc & Hs & _).
    rewrite Hp. destruct (processing l) eqn:Eproc; simpl; [by left|].
    destruct (Hidle eq_refl) as [Hq0 Hk0].
    destruct (_ =? _)%nat eqn:Elen; [by left|].
    assert (Hq : requestQueue (enqueueRequest request l) = [request]).
    { unfold enqueueRequest in *. rewrite Hq0 in *.
      destruct (_ >=? _); simpl in *; [by rewrite Hq0 in Elen | done]. }
    destruct (processQueueLoop_started now
                (withProcessing true (enqueueRequest request l)))
      as [[Hnil _]|(r & rest & Hhead & _ & [[Hst Hkk]|[Hst Hkk]])].
    + simpl in Hnil. congruence.
    + simpl in Hhead, Hst. rewrite Hq in Hhead. injection Hhead as <- <-.
      right. exists request. rewrite Hst, Hs, Hkk, Hk0.
      repeat split; eauto; by right; right.
    + left. simpl in Hst. by rewrite Hst, Hs.
  - destruct (continuation l) eqn:Ek; try by left.
    + right. exists request. unfold beginRequest. simpl.
      repeat split; eauto.
    + left. unfold afterBackoff. simpl.
      by destruct (enqueueRequest_frame (retried request) l)
        as (_ & _ & _ & -> & _).
  - destruct (continuation l) eqn:Ek; try by left.
    left. unfold afterRequest. destruct o as [v|e|r]; [done| |].
    + by destruct (_ && _).
    + by destruct (_ <? _).
  - destruct (continuation l) eqn:Ek; try by left.
    destruct (processQueueLoop_started now l)
      as [[_ Hst]|(r & rest & Hhead & Hrest & [[Hst Hkk]|[Hst Hkk]])].
    + by left.
    + right. exists r. rewrite Hst, Hkk, Hrest.
      repeat split; eauto.
    + by left.
Qed.

(** The log of invocations only grows. *)
Lemma run_started_grows cfg evs : forall l,
  invariant cfg l -> exists more, started (run l evs) = started l ++ more.
Proof.
  induction evs as [|ev evs IH]; intros l Hinv.
  - exists []. simpl. by rewrite app_nil_r.
  - simpl. fold (run (step l ev) evs).
    destruct (IH (step l ev) (step_invariant cfg l ev Hinv)) as [more Hmore].
    destruct (step_started cfg l ev Hinv) as [Hs|(r & Hs & _)].
    + exists more. by rewrite Hmore, Hs.
    + exists (r :: more). rewrite Hmore, Hs. by rewrite <- app_assoc.
Qed.

(** *** One request served by a limiter at rest *)

(** Nothing in flight, nothing pending, room in the queue. *)
Definition atRest (l : t) : Prop :=
  continuation l = NotRunning /\ processing l = false /\
  requestQueue l = [] /\ 0 < maxQueueSize (config l).

(** [l'] serves one request of [l], and nothing else is pending. *)
Definition serving (l l' : t) : Prop :=
  settled l' = settled l /\ requestQueue l' = [] /\ processing l' = true /\
  config l' = config l.

Lemma execute_atRest l now i d p rc :
  atRest l ->
  serving l (step l (Execute now i d p rc)) /\
  (continuation (step l (Execute now i d p rc)) =
     AwaitRequest {| id := i; priority := p; timestamp := now;
                     retryCount := rc; data := d |} now \/
   continuation (step l (Execute now i d p rc)) =
     AwaitTokenDelay {| id := i; priority := p; timestamp := now;
                        retryCount := rc; data := d |}).
Proof.
  intros (Hk & Hp & Hq & Hmax). simpl. unfold execute.
  set (request := {| id := i; priority := p; timestamp := now;
                     retryCount := rc; data := d |}).
  assert (Hroom : Z.of_nat (length (requestQueue l)) < maxQueueSize (config l)).
  { rewrite Hq. simpl. lia. }
  destruct (enqueueRequest_room request l Hroom) as (Hq1 & Hs1 & _).
  destruct (enqueueRequest_frame request l) as (Hp1 & _ & Hc1 & _).
  rewrite Hq in Hq1. simpl in Hq1.
  unfold processQueue, processQueueLoop. rewrite Hp1, Hp, Hq1. simpl.
  rewrite Hq1.
  match goal with |- context [executeRequest ?n ?r ?l'] =>
    destruct (executeRequest_frame n r l') as (Hq2 & Hp2 & Hc2 & Hs2 & _);
    destruct (executeRequest_started n r l') as [[_ Hk2]|[_ Hk2]]
  end; simpl in *; unfold serving; rewrite Hq2, Hp2, Hc2, Hs2, Hk2; auto.
Qed.

Lemma timer_after_token_wait l request now :
  continuation l = AwaitTokenDelay request ->
  settled (step l (TimerFires now)) = settled l /\
  requestQueue (step l (TimerFires now)) = requestQueue l /\
  processing (step l (TimerFires now)) = processing l /\
  config (step l (TimerFires now)) = config l /\
  continuation (step l (TimerFires now)) = AwaitRequest request now.
Proof. intros Hk. simpl. by rewrite Hk. Qed.

Lemma settle_fulfilled l request startTime now random value :
  continuation l = AwaitRequest request startTime ->
  settled (step l (RequestSettles now random (Fulfilled value))) =
    settled l ++ [(request, Fulfilled value)] /\
  requestQueue (step l (RequestSettles now random (Fulfilled value))) =
    requestQueue l /\
  processing (step l (RequestSettles now random (Fulfilled value))) =
    processing l /\
  config (step l (RequestSettles now random (Fulfilled value))) = config l /\
  continuation (step l (RequestSettles now random (Fulfilled value))) =
    AwaitExecuteRequest.
Proof. intros Hk. simpl. by rewrite Hk. Qed.

Lemma resume_with_empty_queue l now :
  continuation l = AwaitExecuteRequest -> requestQueue l = [] ->
  settled (step l (ProcessQueueResumes now)) = settled l /\
  requestQueue (step l (ProcessQueueResumes now)) = [] /\
  processing (step l (ProcessQueueResumes now)) = false /\
  config (step l (ProcessQueueResumes now)) = config l /\
  continuation (step l (ProcessQueueResumes now)) = NotRunning.
Proof.
  intros Hk Hq. simpl. rewrite Hk. unfold processQueueLoop. by rewrite Hq.
Qed.

(** *** Scenarios *)

Definition submit (i : string) (p : RequestPriority) : Event :=
  Execute 0 i (Opaque 0) p 0.

(** Four submissions with priorities LOW, URGENT, NORMAL, URGENT. *)
Definition fourSubmissions : list Event :=
  [submit "a" LOW; submit "b" URGENT; submit "c" NORMAL; submit "d" URGENT].

(** The operation in flight succeeds and [processQueue] takes the next. *)
Definition completion : list Event :=
  [RequestSettles 10 0 (Fulfilled None); ProcessQueueResumes 10].

Fixpoint completions (n : nat) : list Event :=
  match n with
  | O => []
  | S n' => completion ++ completions n'
  end.

(** The four are submitted while an earlier operation is in flight. *)
Definition busyScenario : list Event :=
  submit "x" HIGH :: fourSubmissions ++ completions 5.

(** The four are submitted to a limiter that has nothing to do. *)
Definition idleScenario : list Event := fourSubmissions ++ completions 4.

Definition fresh : t := make defaultRateLimitConfig 0.

(** A failure the analyzer classifies as rate-limited. *)
Definition rateLimitExceeded : Error := {| message := "Rate limit exceeded" |}.

(** The operation in flight fails, the backoff delay passes and
    [processQueue] takes the next request. *)
Definition failedAttempt : list Event :=
  [RequestSettles 10 (1 # 2) (Failed rateLimitExceeded); TimerFires 20;
   ProcessQueueResumes 20].

(** One operation that keeps failing with [rateLimitExceeded]: three
    retries, then a fourth failure. *)
Definition fourFailures : list Event :=
  submit "r" NORMAL :: failedAttempt ++ failedAttempt ++ failedAttempt ++
  [RequestSettles 10 (1 # 2) (Failed rateLimitExceeded)].

(** A limiter whose queue holds one request at most, with one operation in
    flight and one pending. *)
Definition smallConfig : RateLimitConfig :=
  {| bucketCapacity := 30; refillRate := 1 # 2; maxQueueSize := 1;
     baseBackoffDelay := 1000; maxBackoffDelay := 30000;
     monitoringWindow := 60 |}.

Definition saturated : t :=
  run (make smallConfig 0) [submit "a" NORMAL; submit "b" NORMAL].

Lemma saturated_reachable : reachable smallConfig saturated.
Proof. apply run_reachable. constructor. Qed.

(** *** The claims about the admission queue *)

(** C2, as the code has it. In every state the limiter can reach the pending
    queue is in priority-descending order; a submission that finds room
    goes behind the pending requests of its priority or higher and before
    those of lower priority, which keep their order; an operation is invoked
    only while no other is in flight, and it is the head of the pending queue
    (or the request that waited for a token, or a submission to a limiter
    with nothing in flight). A submission to a limiter with nothing in
    flight is taken off the queue at once. Four operations of priorities
    LOW, URGENT, NORMAL, URGENT submitted while an earlier one is in flight
    run in the order URGENT, URGENT, NORMAL, LOW; submitted to a limiter
    with nothing to do they run in the order LOW, URGENT, URGENT, NORMAL. *)
Theorem queue_priority_order_and_single_flight (cfg : RateLimitConfig) (l : t) :
  reachable cfg l ->
  descending (requestQueue l) /\
  (forall request,
     Z.of_nat (length (requestQueue l)) < maxQueueSize cfg ->
     exists before after,
       requestQueue l = before ++ after /\
       requestQueue (enqueueRequest request l) = before ++ request :: after /\
       Forall (fun r => priorityValue (priority request) <=
                        priorityValue (priority r)) before /\
       Forall (fun r => priorityValue (priority r) <
                        priorityValue (priority request)) after) /\
  (forall ev,
     started (step l ev) = started l \/
     exists request,
       started (step l ev) = started l ++ [request] /\
       (exists startTime,
           continuation (step l ev) = AwaitRequest request startTime) /\
       (forall r startTime, continuation l <> AwaitRequest r startTime) /\
       (continuation l = AwaitTokenDelay request \/
        (continuation l = AwaitExecuteRequest /\
         requestQueue l = request :: requestQueue (step l ev)) \/
        (continuation l = NotRunning /\ requestQueue l = [] /\
         submitted ev = Some request))) /\
  (forall now i d p rc,
     continuation l = NotRunning -> 0 < maxQueueSize cfg ->
     requestQueue (step l (Execute now i d p rc)) = [] /\
     (continuation (step l (Execute now i d p rc)) =
        AwaitRequest {| id := i; priority := p; timestamp := now;
                        retryCount := rc; data := d |} now \/
      continuation (step l (Execute now i d p rc)) =
        AwaitTokenDelay {| id := i; priority := p; timestamp := now;
                           retryCount := rc; data := d |})) /\
  map priority (started (run fresh busyScenario)) =
    [HIGH; URGENT; URGENT; NORMAL; LOW] /\
  map id (started (run fresh busyScenario)) =
    ["x"; "b"; "d"; "c"; "a"]%string /\
  map priority (started (run fresh idleScenario)) =
    [LOW; URGENT; URGENT; NORMAL].
Proof.
  intros Hreach.
  pose proof (reachable_invariant cfg l Hreach) as Hinv.
  pose proof Hinv as (Hcfg & Hdesc & Hidle & Hbusy).
  split; [done|]. split; [|split; [|split; [|split; [|split]]]].
  - intros request Hroom. rewrite <- Hcfg in Hroom.
    destruct (enqueueRequest_room request l Hroom) as (-> & _).
    by apply insertByPriority_stable.
  - intros ev. by apply (step_started cfg).
  - intros now i d p rc Hk Hmax.
    assert (Hrest : atRest l).
    { destruct (processing l) eqn:Ep; [by destruct (Hbusy eq_refl)|].
      destruct (Hidle eq_refl) as [Hq _]. unfold atRest.
      by rewrite Hcfg. }
    destruct (execute_atRest l now i d p rc Hrest) as [(_ & Hq & _) Hcont].
    by split.
  - by vm_compute.
  - by vm_compute.
  - by vm_compute.
Qed.

Lemma queue_priority_order_witness :
  descending
    (requestQueue (run fresh (submit "x" HIGH :: fourSubmissions))).
Proof.
  apply (proj1 (queue_priority_order_and_single_flight
                  defaultRateLimitConfig
                  (run fresh (submit "x" HIGH :: fourSubmissions))
                  (run_reachable defaultRateLimitConfig fresh _
                     (reachable_make defaultRateLimitConfig 0)))).
Defined.

(** C2 as worded fails on a limiter with nothing to do: the first of the
    four submissions, the LOW one, is invoked before the others are
    submitted, whatever happens next, and the four run in the order LOW,
    URGENT, URGENT, NORMAL. *)
Lemma idle_limiter_runs_first_submission_first :
  map priority (started (run fresh idleScenario)) =
    [LOW; URGENT; URGENT; NORMAL] /\
  map priority (started (run fresh idleScenario)) <>
    [URGENT; URGENT; NORMAL; LOW] /\
  map id (started (run fresh [submit "a" LOW])) = ["a"]%string /\
  (forall evs, exists more,
     map priority (started (run fresh (fourSubmissions ++ evs))) =
     LOW :: more).
Proof.
  split; [by vm_compute|]. split; [by vm_compute|]. split; [by vm_compute|].
  intros evs. rewrite run_app.
  assert (Hinv : invariant defaultRateLimitConfig (run fresh fourSubmissions)).
  { apply reachable_invariant, run_reachable. constructor. }
  destruct (run_started_grows _ evs _ Hinv) as [more ->].
  rewrite map_app. exists (map priority more). by vm_compute.
Qed.

(** C9. A submission made while the pending queue holds [maxQueueSize]
    requests or more is rejected at once with "Request queue is full": the
    state after it is the state before it with that rejection logged; the
    pending queue and the log of invocations are the same, and so they stay
    whatever happens next, so that the rejected submission is never run. *)
Theorem full_queue_rejects_submission
  (cfg : RateLimitConfig) (l : t) (now : Z) (i : string) (d : Thunk)
  (p : RequestPriority) (rc : Z) :
  reachable cfg l ->
  Z.of_nat (length (requestQueue l)) >= maxQueueSize cfg ->
  let request :=
    {| id := i; priority := p; timestamp := now; retryCount := rc;
       data := d |} in
  step l (Execute now i d p rc) = settle request (Failed queueFullError) l /\
  settled (step l (Execute now i d p rc)) =
    settled l ++ [(request, Failed queueFullError)] /\
  message queueFullError = "Request queue is full"%string /\
  requestQueue (step l (Execute now i d p rc)) = requestQueue l /\
  started (step l (Execute now i d p rc)) = started l /\
  continuation (step l (Execute now i d p rc)) = continuation l /\
  (forall evs,
     requestQueue (run (step l (Execute now i d p rc)) evs) =
       requestQueue (run l evs) /\
     started (run (step l (Execute now i d p rc)) evs) =
       started (run l evs)).
Proof.
  intros Hreach Hfull request.
  destruct (reachable_invariant cfg l Hreach) as (Hcfg & _ & Hidle & _).
  assert (E : step l (Execute now i d p rc) =
              settle request (Failed queueFullError) l).
  { simpl. unfold execute, processQueue. fold request.
    rewrite <- Hcfg in Hfull.
    rewrite (enqueueRequest_full request l Hfull). simpl.
    destruct (processing l) eqn:Ep; [done|].
    destruct (Hidle eq_refl) as [-> _]. done. }
  rewrite E. split; [done|]. do 5 (split; [done|]).
  intros evs.
  destruct (run_forget_eq (settle request (Failed queueFullError) l) l evs)
    as (Hq & Hs & _); done.
Qed.

Lemma full_queue_rejects_submission_witness :
  step saturated (Execute 5 "c" (Opaque 2) URGENT 0) =
  settle {| id := "c"; priority := URGENT; timestamp := 5; retryCount := 0;
            data := Opaque 2 |} (Failed queueFullError) saturated.
Proof.
  apply (full_queue_rejects_submission smallConfig saturated 5 "c"
           (Opaque 2) URGENT 0 saturated_reachable).
  by vm_compute.
Defined.

(** C3, as the code has it. When the operation in flight fails, the limiter
    retries it exactly when its retry count is below 3 and [shouldRetry]
    accepts the message: it then sleeps the delay of the backoff strategy
    and submits the request anew with the retry count incremented (the
    capacity check of [enqueueRequest] applies); otherwise it rejects the
    caller with the failure and leaves the pending queue alone. *)
Theorem failed_request_retried_below_three
  (l : t) (now : Z) (random : Q) (request : QueuedRequest) (startTime : Z)
  (error : Error) :
  continuation l = AwaitRequest request startTime ->
  let l' := step l (RequestSettles now random (Failed error)) in
  (retryCount request < 3 /\ shouldRetry error = true ->
   continuation l' =
     AwaitBackoffDelay request
       (BackoffStrategy.calculateDelay (Some error) random
          (BackoffStrategy.recordFailure (Some error) (backoffStrategy l))) /\
   settled l' = settled l /\ requestQueue l' = requestQueue l /\
   forall later,
     step l' (TimerFires later) =
       withContinuation AwaitExecuteRequest
         (enqueueRequest (retried request) l') /\
     retryCount (retried request) = retryCount request + 1 /\
     (Z.of_nat (length (requestQueue l)) < maxQueueSize (config l) ->
      requestQueue (step l' (TimerFires later)) =
        insertByPriority (retried request) (requestQueue l) /\
      settled (step l' (TimerFires later)) = settled l)) /\
  (~ (retryCount request < 3 /\ shouldRetry error = true) ->
   settled l' = settled l ++ [(request, Failed error)] /\
   requestQueue l' = requestQueue l /\
   continuation l' = AwaitExecuteRequest).
Proof.
  intros Hk l'. subst l'. simpl. rewrite Hk. unfold afterRequest.
  split.
  - intros [Hlt Hretry]. apply Z.ltb_lt in Hlt. rewrite Hlt, Hretry. simpl.
    repeat split;
      match goal with
      | Hroom : _ < _ |- context [enqueueRequest ?r ?x] =>
          destruct (enqueueRequest_room r x Hroom) as (Hq & Hs & _)
      end; by rewrite ?Hq, ?Hs.
  - intros Hno.
    destruct (retryCount request <? 3) eqn:Elt; simpl.
    + destruct (shouldRetry error) eqn:Er; [|done].
      apply Z.ltb_lt in Elt. by destruct Hno.
    + done.
Qed.

Lemma failed_request_retried_witness :
  requestQueue
    (run fresh [submit "r" NORMAL;
                RequestSettles 10 (1 # 2) (Failed rateLimitExceeded);
                TimerFires 20]) =
  [{| id := "r"; priority := NORMAL; timestamp := 0; retryCount := 1;
      data := Opaque 0 |}].
Proof.
  pose proof (failed_request_retried_below_three
                (run fresh [submit "r" NORMAL]) 10 (1 # 2)
                {| id := "r"; priority := NORMAL; timestamp := 0;
                   retryCount := 0; data := Opaque 0 |} 0
                rateLimitExceeded eq_refl) as [Hretry _].
  destruct (Hretry (conj eq_refl eq_refl)) as (_ & _ & _ & Hlater).
  destruct (Hlater 20) as (_ & _ & Hroom).
  exact (proj1 (Hroom eq_refl)).
Defined.

(** C3 as worded fails: the analyzer gives a rate-limited failure 5
    retries, and the limiter rejects the caller when the operation fails
    after its third retry; a failure worded "too many requests", rate-limited
    and retryable for the analyzer, is not retried at all. *)
Lemma rate_limited_failure_rejected_after_three_retries :
  ErrorRecovery.isRetryable (ErrorRecovery.analyzeError rateLimitExceeded) = true /\
  ErrorRecovery.maxRetries (ErrorRecovery.analyzeError rateLimitExceeded) = 5 /\
  settled (run fresh fourFailures) =
    [({| id := "r"; priority := NORMAL; timestamp := 0; retryCount := 3;
         data := Opaque 0 |}, Failed rateLimitExceeded)] /\
  requestQueue (run fresh fourFailures) = [] /\
  continuation (run fresh fourFailures) = AwaitExecuteRequest /\
  length (started (run fresh fourFailures)) = 4%nat /\
  ErrorRecovery.analyzeError ErrorRecovery.tooManyRequests =
    ErrorRecovery.rateLimitedAnalysis /\
  settled (run fresh [submit "r" NORMAL;
                      RequestSettles 10 (1 # 2)
                        (Failed ErrorRecovery.tooManyRequests)]) =
    [({| id := "r"; priority := NORMAL; timestamp := 0; retryCount := 0;
         data := Opaque 0 |}, Failed ErrorRecovery.tooManyRequests)].
Proof. repeat split; by vm_compute. Qed.

(** *** The rest of the interface: metrics, queue status, disposal *)

Definition disposedError : Error := {| message := "Rate limiter disposed" |}.

(** [dispose()] at clock value [now]: the pending requests are rejected in
    queue order; [processing] and a suspended [processQueue] are left as
    they are. *)
Definition dispose (now : Z) (l : t) : t :=
  {| tokenBucket := TokenBucket.reset now (tokenBucket l);
     monitor := RateLimitMonitor.reset (monitor l);
     backoffStrategy := BackoffStrategy.reset (backoffStrategy l);
     requestQueue := []; processing := processing l; config := config l;
     continuation := continuation l; started := started l;
     settled :=
       settled l ++
       List.map (fun req => (req, Failed disposedError)) (requestQueue l) |}.

(** [getMetrics()]: the monitor's copy with the tokens available now. *)
Definition getMetrics (now : Z) (l : t) : t * RateLimitMetrics :=
  let (m, metrics) := RateLimitMonitor.getMetrics (monitor l) in
  let (b, available) := TokenBucket.getAvailableTokens now (tokenBucket l) in
  (withTokenBucket b (withMonitor m l),
   {| totalRequests := totalRequests metrics;
      successfulRequests := successfulRequests metrics;
      failedRequests := failedRequests metrics;
      averageLatency := averageLatency metrics;
      queueSize := queueSize metrics;
      tokensAvailable := available;
      lastThrottleTime := lastThrottleTime metrics;
      burstCount := burstCount metrics |}).

Definition RequestPriority_eqb (p q : RequestPriority) : bool :=
  priorityValue p =? priorityValue q.

Record QueueStatus := {
  size : nat;
  pending : Z;
  priorityDistribution : RequestPriority -> Z
}.

(** [priorityDistribution[req.priority]++] *)
Definition countPriority (distribution : RequestPriority -> Z)
  (req : QueuedRequest) : RequestPriority -> Z :=
  fun p =>
    if RequestPriority_eqb p (priority req) then distribution p + 1
    else distribution p.

(** [getQueueStatus()] *)
Definition getQueueStatus (l : t) : QueueStatus :=
  {| size := length (requestQueue l);
     pending := if processing l then 1 else 0;
     priorityDistribution :=
       fold_left countPriority (requestQueue l) (fun _ => 0) |}.

(** What may happen to a limiter: an event of the loop, or a call of
    [dispose()] or [getMetrics()] . *)
Inductive Action :=
| Occurs (ev : Event)
| Disposes (now : Z)
| ReadsMetrics (now : Z).

Definition act (l : t) (a : Action) : t :=
  match a with
  | Occurs ev => step l ev
  | Disposes now => dispose now l
  | ReadsMetrics now => fst (getMetrics now l)
  end.

Definition operate (l : t) (actions : list Action) : t :=
  fold_left act actions l.

(** The number of submissions among the actions. *)
Definition isSubmission (a : Action) : bool :=
  match a with
  | Occurs (Execute _ _ _ _ _) => true
  | _ => false
  end.

Definition submissions (actions : list Action) : nat :=
  length (List.filter isSubmission actions).

(** The request [processQueue] holds while it is suspended in
    [executeRequest]: 1 or 0. *)
Definition inFlight (l : t) : nat :=
  match continuation l with
  | AwaitTokenDelay _ | AwaitRequest _ _ | AwaitBackoffDelay _ _ => 1
  | NotRunning | AwaitExecuteRequest => 0
  end.

(** The requests the limiter has settled, holds pending or has in flight. *)
Definition accounted (l : t) : nat :=
  (length (settled l) + length (requestQueue l) + inFlight l)%nat.

Lemma getMetrics_frame now l :
  requestQueue (fst (getMetrics now l)) = requestQueue l /\
  processing (fst (getMetrics now l)) = processing l /\
  config (fst (getMetrics now l)) = config l /\
  continuation (fst (getMetrics now l)) = continuation l /\
  started (fst (getMetrics now l)) = started l /\
  settled (fst (getMetrics now l)) = settled l.
Proof. done. Qed.

Lemma act_invariant cfg l a : invariant cfg l -> invariant cfg (act l a).
Proof.
  intros Hinv. destruct a as [ev|now|now]; simpl.
  - by apply step_invariant.
  - destruct Hinv as (Hcfg & Hdesc & Hidle & Hbusy).
    unfold invariant. simpl.
    split; [done|]. split; [done|]. split; [|done].
    intros Hp. by destruct (Hidle Hp).
  - exact Hinv.
Qed.

Lemma operate_snoc l actions a :
  operate l (actions ++ [a]) = act (operate l actions) a.
Proof. unfold operate. by rewrite fold_left_app. Qed.

Lemma operate_invariant cfg now actions :
  invariant cfg (operate (make cfg now) actions).
Proof.
  induction actions as [|a actions IH] using rev_ind.
  - repeat split; simpl; done.
  - rewrite operate_snoc. by apply act_invariant.
Qed.

Lemma enqueueRequest_accounted request l :
  accounted (enqueueRequest request l) = S (accounted l).
Proof.
  unfold accounted, inFlight, enqueueRequest.
  destruct (_ >=? _); simpl.
  - rewrite length_app. simpl. lia.
  - rewrite splice_insertByPriority, length_insertByPriority. lia.
Qed.

Lemma executeRequest_accounted now request l :
  inFlight l = 0%nat ->
  accounted (executeRequest now request l) = S (accounted l).
Proof.
  intros Hzero. unfold accounted.
  destruct (executeRequest_frame now request l) as (-> & _ & _ & -> & _).
  unfold inFlight in *.
  destruct (executeRequest_started now request l) as [[_ ->]|[_ ->]]; lia.
Qed.

Lemma processQueueLoop_accounted now l :
  inFlight l = 0%nat -> accounted (processQueueLoop now l) = accounted l.
Proof.
  intros Hzero. unfold processQueueLoop.
  destruct (requestQueue l) as [|request rest] eqn:E.
  - unfold accounted, inFlight in *. simpl. rewrite E. simpl. lia.
  - rewrite executeRequest_accounted by exact Hzero.
    unfold accounted, inFlight in *. simpl. rewrite E. simpl. lia.
Qed.

(** Whether the action makes the limiter give up a request without
    settling it: the operation in flight rejects with a value without a
    message before its fourth attempt, [shouldRetry] throws on it, and
    [processQueue] only logs what was thrown. *)
Definition abandons (l : t) (a : Action) : bool :=
  match a, continuation l with
  | Occurs (RequestSettles _ _ (Rejected _)), AwaitRequest request _ =>
      retryCount request <? 3
  | _, _ => false
  end.

(** The limiter after the actions, with the number of requests it gave up. *)
Definition tallyAbandoned (acc : t * nat) (a : Action) : t * nat :=
  (act (fst acc) a, (snd acc + if abandons (fst acc) a then 1 else 0)%nat).

Definition abandoned (l : t) (actions : list Action) : nat :=
  snd (fold_left tallyAbandoned actions (l, 0%nat)).

(** No operation rejects with a value without a message. *)
Definition rejectsWithErrors (actions : list Action) : Prop :=
  Forall (fun a =>
            match a with
            | Occurs (RequestSettles _ _ (Rejected _)) => False
            | _ => True
            end) actions.

Lemma tallyAbandoned_operate actions : forall acc,
  fst (fold_left tallyAbandoned actions acc) = operate (fst acc) actions.
Proof.
  induction actions as [|a actions IH]; intros acc; [done|].
  simpl. by rewrite IH.
Qed.

Lemma abandoned_snoc l actions a :
  abandoned l (actions ++ [a]) =
    (abandoned l actions +
     if abandons (operate l actions) a then 1 else 0)%nat.
Proof.
  unfold abandoned. rewrite fold_left_app. simpl.
  by rewrite tallyAbandoned_operate.
Qed.

Lemma step_accounted cfg l ev :
  invariant cfg l ->
  (accounted (step l ev) + if abandons l (Occurs ev) then 1 else 0)%nat =
    (accounted l + if isSubmission (Occurs ev) then 1 else 0)%nat.
Proof.
  intros (Hcfg & Hdesc & Hidle & Hbusy).
  destruct ev as [now i d p rc|now|now random o|now]; simpl.
  - unfold execute, processQueue.
    set (request := {| id := i; priority := p; timestamp := now;
                       retryCount := rc; data := d |}).
    pose proof (enqueueRequest_accounted request l) as Hacc.
    destruct (enqueueRequest_frame request l) as (Hp & Hk & _).
    rewrite Hp. destruct (processing l) eqn:Eproc; simpl; [lia|].
    destruct (_ =? _)%nat; [lia|].
    rewrite processQueueLoop_accounted.
    + unfold accounted, inFlight in *. simpl. lia.
    + unfold inFlight. simpl. rewrite Hk.
      by destruct (Hidle eq_refl) as [_ ->].
  - unfold accounted, inFlight.
    destruct (continuation l) eqn:Ek; rewrite ?Ek; try lia.
    + unfold beginRequest. simpl. lia.
    + unfold afterBackoff. simpl.
      pose proof (enqueueRequest_accounted (retried request) l) as Hacc.
      destruct (enqueueRequest_frame (retried request) l) as (_ & Hk & _).
      unfold accounted, inFlight in Hacc. rewrite Hk, Ek in Hacc. lia.
  - unfold accounted, inFlight.
    destruct (continuation l) eqn:Ek; rewrite ?Ek;
      try (destruct o; lia).
    unfold afterRequest. destruct o as [v|e|r].
    + simpl. rewrite length_app. simpl. lia.
    + destruct (_ && _); simpl; rewrite ?length_app; simpl; lia.
    + destruct (_ <? _); simpl; rewrite ?length_app; simpl; lia.
  - destruct (continuation l) eqn:Ek; try lia.
    rewrite processQueueLoop_accounted; [lia|].
    unfold inFlight. by rewrite Ek.
Qed.

Lemma act_accounted cfg l a :
  invariant cfg l ->
  (accounted (act l a) + if abandons l a then 1 else 0)%nat =
    (accounted l + if isSubmission a then 1 else 0)%nat.
Proof.
  intros Hinv. destruct a as [ev|now|now].
  - by apply (step_accounted cfg).
  - unfold accounted, inFlight. simpl.
    rewrite length_app, length_map. lia.
  - simpl. unfold accounted, inFlight. simpl. lia.
Qed.

Lemma abandoned_none l actions :
  rejectsWithErrors actions -> abandoned l actions = 0%nat.
Proof.
  induction actions as [|a actions IH] using rev_ind; [done|].
  intros H. apply Forall_app in H as [Hall Ha].
  rewrite abandoned_snoc, (IH Hall).
  apply Forall_inv in Ha.
  unfold abandons. destruct a as [[| |? ? [| |]|]| |]; try done;
    by destruct (continuation _).
Qed.

(** X6. After any sequence of events, [dispose()] and [getMetrics()] calls
    on a new limiter, every submission is either settled once (resolved or
    rejected), pending in the queue, held in flight by [processQueue], or
    given up: the operation rejected, before its fourth attempt, with a value
    that has no message, and the promise is left unsettled for ever. When
    every operation that fails rejects with an [Error], no request is given
    up. *)
Theorem every_submission_is_accounted_for
  (cfg : RateLimitConfig) (now : Z) (actions : list Action) :
  (length (settled (operate (make cfg now) actions)) +
   length (requestQueue (operate (make cfg now) actions)) +
   inFlight (operate (make cfg now) actions) +
   abandoned (make cfg now) actions)%nat =
  submissions actions /\
  (rejectsWithErrors actions -> abandoned (make cfg now) actions = 0%nat).
Proof.
  split; [|apply abandoned_none].
  change ((accounted (operate (make cfg now) actions) +
           abandoned (make cfg now) actions)%nat = submissions actions).
  induction actions as [|a actions IH] using rev_ind; [done|].
  rewrite operate_snoc, abandoned_snoc.
  pose proof (act_accounted cfg (operate (make cfg now) actions) a
                (operate_invariant cfg now actions)) as H.
  unfold submissions in *. rewrite List.filter_app, length_app.
  simpl. destruct (isSubmission a); simpl; lia.
Qed.

(** A request given up: the operation of the first submission to a new
    limiter rejects with the string "boom"; nothing is settled, pending or
    in flight afterwards. *)
Lemma rejection_without_message_loses_the_request :
  let actions :=
    [Occurs (Execute 5 "q" (Opaque 1) NORMAL 0);
     Occurs (RequestSettles 7 (1 # 2) (Rejected "boom"));
     Occurs (ProcessQueueResumes 8)] in
  let l := operate (make defaultRateLimitConfig 0) actions in
  submissions actions = 1%nat /\
  settled l = [] /\ requestQueue l = [] /\ inFlight l = 0%nat /\
  continuation l = NotRunning /\
  abandoned (make defaultRateLimitConfig 0) actions = 1%nat.
Proof. repeat split; by vm_compute. Qed.

(** *** The status report *)

(** The queue is within its bound and the monitor knows its length. *)
Definition tallied (cfg : RateLimitConfig) (l : t) : Prop :=
  Z.of_nat (length (requestQueue l)) <= Z.max 0 (maxQueueSize cfg) /\
  queueSize (RateLimitMonitor.metrics (monitor l)) =
    Z.of_nat (length (requestQueue l)).

Lemma enqueueRequest_tallied cfg request l :
  config l = cfg -> tallied cfg l -> tallied cfg (enqueueRequest request l).
Proof.
  intros Hcfg [Hbound Hsize]. unfold tallied, enqueueRequest.
  destruct (_ >=? _) eqn:E; simpl; [done|].
  rewrite Z.geb_leb in E. apply Z.leb_gt in E.
  rewrite splice_insertByPriority, length_insertByPriority.
  split; [|done]. rewrite Hcfg in E. lia.
Qed.

Lemma executeRequest_queueSize now request l :
  queueSize (RateLimitMonitor.metrics (monitor (executeRequest now request l))) =
  queueSize (RateLimitMonitor.metrics (monitor l)).
Proof.
  unfold executeRequest.
  destruct (TokenBucket.consume _ _ _) as [b1 [|]]; [done|].
  destruct (TokenBucket.getNextTokenTime _ _ _) as [b2 w].
  destruct (Js.isPositive w); [|done].
  by destruct (TokenBucket.getAvailableTokens _ _) as [b3 a].
Qed.

Lemma executeRequest_tallied cfg now request l :
  tallied cfg l -> tallied cfg (executeRequest now request l).
Proof.
  intros [Hbound Hsize]. unfold tallied.
  rewrite executeRequest_queueSize.
  by destruct (executeRequest_frame now request l) as (-> & _).
Qed.

Lemma processQueueLoop_tallied cfg now l :
  tallied cfg l -> tallied cfg (processQueueLoop now l).
Proof.
  intros [Hbound Hsize]. unfold processQueueLoop.
  destruct (requestQueue l) as [|request rest] eqn:E.
  - unfold tallied. simpl. by rewrite E.
  - apply executeRequest_tallied. unfold tallied. simpl in *.
    split; [lia | done].
Qed.

Lemma step_tallied cfg l ev :
  config l = cfg -> tallied cfg l -> tallied cfg (step l ev).
Proof.
  intros Hcfg Htal.
  destruct ev as [now i d p rc|now|now random o|now]; simpl.
  - unfold execute, processQueue.
    match goal with |- context [enqueueRequest ?r l] =>
      pose proof (enqueueRequest_tallied cfg r l Hcfg Htal) as Hen
    end.
    destruct (_ || _); [done|]. by apply processQueueLoop_tallied.
  - destruct (continuation l); try done.
    unfold afterBackoff.
    by pose proof (enqueueRequest_tallied cfg (retried request) l Hcfg Htal).
  - destruct (continuation l); try done.
    unfold afterRequest. destruct o as [v|e|r]; [done| |].
    + by destruct (_ && _).
    + by destruct (_ <? _).
  - destruct (continuation l); try done.
    by apply processQueueLoop_tallied.
Qed.

Lemma act_tallied cfg l a :
  config l = cfg -> tallied cfg l -> tallied cfg (act l a).
Proof.
  intros Hcfg Htal. destruct a as [ev|now|now]; simpl.
  - by apply step_tallied.
  - unfold tallied. simpl. split; [lia | done].
  - destruct Htal as [Hbound Hsize]. unfold tallied. simpl.
    split; [done|]. unfold RateLimitMonitor.updateAverageLatency.
    by destruct (_ <? _)%nat.
Qed.

Lemma operate_tallied cfg now actions :
  tallied cfg (operate (make cfg now) actions).
Proof.
  induction actions as [|a actions IH] using rev_ind.
  - unfold tallied. simpl. split; [lia | done].
  - rewrite operate_snoc. apply act_tallied; [|done].
    by destruct (operate_invariant cfg now actions) as [-> _].
Qed.

(** The sum of the four counts of a distribution. *)
Definition total (distribution : RequestPriority -> Z) : Z :=
  distribution LOW + distribution NORMAL + distribution HIGH +
  distribution URGENT.

Lemma total_countPriority distribution req :
  total (countPriority distribution req) = total distribution + 1.
Proof.
  unfold total, countPriority, RequestPriority_eqb.
  destruct (priority req); simpl; lia.
Qed.

Lemma total_fold_countPriority queue : forall distribution,
  total (fold_left countPriority queue distribution) =
  total distribution + Z.of_nat (length queue).
Proof.
  induction queue as [|req queue IH]; intros distribution; simpl; [lia|].
  rewrite IH, total_countPriority. lia.
Qed.

(** X7. After any sequence of events, [dispose()] and [getMetrics()] calls
    on a new limiter, the status report is consistent: the size of the
    queue is within [maxQueueSize], it is the [queueSize] that
    [getMetrics()] reports, the four counts of the priority distribution
    add up to it, and [pending] is 1 exactly while [processQueue] is
    suspended. *)
Theorem queue_status_is_consistent
  (cfg : RateLimitConfig) (now : Z) (actions : list Action) (later : Z) :
  let l := operate (make cfg now) actions in
  let status := getQueueStatus l in
  Z.of_nat (size status) <= Z.max 0 (maxQueueSize cfg) /\
  queueSize (snd (getMetrics later l)) = Z.of_nat (size status) /\
  priorityDistribution status LOW + priorityDistribution status NORMAL +
  priorityDistribution status HIGH + priorityDistribution status URGENT =
    Z.of_nat (size status) /\
  (pending status = 1 <-> continuation l <> NotRunning) /\
  (pending status = 0 <-> continuation l = NotRunning).
Proof.
  intros l status.
  destruct (operate_tallied cfg now actions) as [Hbound Hsize].
  destruct (operate_invariant cfg now actions) as (_ & _ & Hidle & Hbusy).
  fold l in Hbound, Hsize, Hidle, Hbusy.
  split; [exact Hbound|]. split.
  - simpl. unfold RateLimitMonitor.updateAverageLatency.
    by destruct (_ <? _)%nat.
  - split.
    + pose proof (total_fold_countPriority (requestQueue l) (fun _ => 0)) as H.
      unfold total in H. simpl in *. lia.
    + unfold status, getQueueStatus. simpl. destruct (processing l) eqn:Ep.
      * specialize (Hbusy eq_refl). split; (split; [done|]).
        -- intros _. reflexivity.
        -- intros H. by rewrite H in Hbusy.
      * destruct (Hidle eq_refl) as [_ Hk]. rewrite Hk.
        split; (split; [|done]).
        -- intros H. discriminate H.
        -- intros _. reflexivity.
Qed.

(** *** The monitor's counters *)

(** Whether [processQueue] waits for the operation of a request. *)
Definition awaited (l : t) : Z :=
  match continuation l with
  | AwaitRequest _ _ => 1
  | _ => 0
  end.

Definition isFulfilled (entry : QueuedRequest * Outcome) : bool :=
  match snd entry with
  | Fulfilled _ => true
  | Failed _ | Rejected _ => false
  end.

(** The monitor counts what the limiter does. *)
Definition counted (l : t) : Prop :=
  let m := RateLimitMonitor.metrics (monitor l) in
  totalRequests m = Z.of_nat (length (started l)) /\
  successfulRequests m + failedRequests m + awaited l = totalRequests m /\
  successfulRequests m =
    Z.of_nat (length (List.filter isFulfilled (settled l))).

Lemma enqueueRequest_counted request l :
  counted l -> counted (enqueueRequest request l).
Proof.
  unfold counted, awaited, enqueueRequest.
  destruct (_ >=? _); simpl; [|done].
  rewrite List.filter_app, length_app. simpl. intros (? & ? & ?).
  repeat split; try done. lia.
Qed.

Lemma executeRequest_counted now request l :
  awaited l = 0 -> counted l -> counted (executeRequest now request l).
Proof.
  unfold counted, awaited, executeRequest. intros Hzero (Ht & Hs & Hf).
  destruct (TokenBucket.consume _ _ _) as [b1 [|]].
  - simpl. rewrite length_app. simpl. repeat split; try done; lia.
  - destruct (TokenBucket.getNextTokenTime _ _ _) as [b2 w].
    destruct (Js.isPositive w).
    + destruct (TokenBucket.getAvailableTokens _ _) as [b3 a]. simpl.
      repeat split; try done. lia.
    + simpl. rewrite length_app. simpl. repeat split; try done; lia.
Qed.

Lemma processQueueLoop_counted now l :
  awaited l = 0 -> counted l -> counted (processQueueLoop now l).
Proof.
  intros Hzero Hc. unfold processQueueLoop.
  destruct (requestQueue l) as [|request rest].
  - unfold counted, awaited in *. simpl. destruct Hc as (? & ? & ?).
    repeat split; try done.
    destruct (continuation l); lia.
  - apply executeRequest_counted; [exact Hzero | exact Hc].
Qed.

Lemma step_counted cfg l ev :
  invariant cfg l -> counted l -> counted (step l ev).
Proof.
  intros (Hcfg & Hdesc & Hidle & Hbusy) Hc.
  destruct ev as [now i d p rc|now|now random o|now]; simpl.
  - unfold execute, processQueue.
    set (request := {| id := i; priority := p; timestamp := now;
                       retryCount := rc; data := d |}).
    pose proof (enqueueRequest_counted request l Hc) as Hen.
    destruct (enqueueRequest_frame request l) as (Hp & Hk & _).
    rewrite Hp. destruct (processing l) eqn:Eproc; simpl; [done|].
    destruct (_ =? _)%nat; [done|].
    apply processQueueLoop_counted; [|exact Hen].
    unfold awaited. simpl. rewrite Hk.
    by destruct (Hidle eq_refl) as [_ ->].
  - destruct (continuation l) eqn:Ek; try done.
    + unfold counted, awaited, beginRequest in *. rewrite Ek in Hc. simpl.
      rewrite length_app. simpl. destruct Hc as (? & ? & ?).
      repeat split; try done; lia.
    + unfold afterBackoff.
      pose proof (enqueueRequest_counted (retried request) l Hc) as Hen.
      destruct (enqueueRequest_frame (retried request) l) as (_ & Hk & _).
      unfold counted, awaited in *. simpl. rewrite Hk, Ek in Hen. done.
  - destruct (continuation l) eqn:Ek; try done.
    unfold counted, awaited, afterRequest in *. rewrite Ek in Hc.
    destruct Hc as (Ht & Hs & Hf). destruct o as [v|e|r].
    + simpl. rewrite List.filter_app, length_app. simpl.
      unfold RateLimitMonitor.recordLatency. simpl.
      repeat split; try done; lia.
    + destruct (_ && _); simpl; rewrite ?List.filter_app, ?length_app; simpl;
        repeat split; try done; lia.
    + destruct (_ <? _); simpl; rewrite ?List.filter_app, ?length_app; simpl;
        repeat split; try done; lia.
  - destruct (continuation l) eqn:Ek; try done.
    apply processQueueLoop_counted; [|exact Hc].
    unfold awaited. by rewrite Ek.
Qed.

(** X8. As long as [dispose()] is not called, the monitor counts what the
    limiter does: [totalRequests] is the number of operations invoked
    (retries included), every one of them is counted as a success or as a
    failure once it has settled, and [successfulRequests] is the number of
    promises resolved. *)
Theorem monitor_counts_the_invocations
  (cfg : RateLimitConfig) (now : Z) (evs : list Event) :
  let l := run (make cfg now) evs in
  let m := RateLimitMonitor.metrics (monitor l) in
  totalRequests m = Z.of_nat (length (started l)) /\
  successfulRequests m + failedRequests m + awaited l = totalRequests m /\
  successfulRequests m =
    Z.of_nat (length (List.filter isFulfilled (settled l))).
Proof.
  simpl. change (counted (run (make cfg now) evs)).
  induction evs as [|ev evs IH] using rev_ind.
  - by repeat split.
  - rewrite run_app. simpl. apply (step_counted cfg); [|exact IH].
    apply reachable_invariant, run_reachable. constructor.
Qed.


(** *** One request, start to end *)

Lemma execute_atRest_started l now i d p rc :
  atRest l ->
  let request :=
    {| id := i; priority := p; timestamp := now; retryCount := rc;
       data := d |} in
  (started (step l (Execute now i d p rc)) = started l ++ [request] /\
   continuation (step l (Execute now i d p rc)) = AwaitRequest request now) \/
  (started (step l (Execute now i d p rc)) = started l /\
   continuation (step l (Execute now i d p rc)) = AwaitTokenDelay request).
Proof.
  intros (Hk & Hp & Hq & Hmax) request. simpl. unfold execute.
  fold request.
  assert (Hroom : Z.of_nat (length (requestQueue l)) < maxQueueSize (config l)).
  { rewrite Hq. simpl. lia. }
  destruct (enqueueRequest_room request l Hroom) as (Hq1 & _ & Hs1).
  destruct (enqueueRequest_frame request l) as (Hp1 & _).
  rewrite Hq in Hq1. simpl in Hq1.
  unfold processQueue, processQueueLoop. rewrite Hp1, Hp, Hq1. simpl.
  rewrite Hq1.
  match goal with |- context [executeRequest ?n ?r ?l'] =>
    destruct (executeRequest_started n r l') as [[Hs2 Hk2]|[Hs2 Hk2]]
  end.
  - left. split; [|exact Hk2]. rewrite Hs2. simpl. by rewrite Hs1.
  - right. split; [|exact Hk2]. rewrite Hs2. simpl. by rewrite Hs1.
Qed.

(** Whether the limiter gives up a request at its [rc]-th retry when the
    operation settles with [o]. *)
Definition givenUp (rc : Z) (o : Outcome) : bool :=
  match o with
  | Rejected _ => rc <? 3
  | _ => false
  end.

(** X9. A limiter with nothing in flight and room in its queue serves a
    submission from start to end. The operation is invoked, after the wait
    for a token if there is one, and nothing else is; once it has settled,
    with a value or with a failure that is not retried, the caller is
    settled with that very outcome, except that a rejection with a value
    without a message before the fourth attempt leaves the caller unsettled;
    when [processQueue] resumes the limiter has nothing in flight again. *)
Theorem idle_limiter_serves_the_request
  (cfg : RateLimitConfig) (l : t) (now : Z) (i : string) (d : Thunk)
  (p : RequestPriority) (rc : Z) (granted settledAt resumed : Z)
  (random : Q) (o : Outcome) :
  reachable cfg l -> continuation l = NotRunning -> 0 < maxQueueSize cfg ->
  (forall e, o = Failed e -> ~ (rc < 3 /\ shouldRetry e = true)) ->
  let request :=
    {| id := i; priority := p; timestamp := now; retryCount := rc;
       data := d |} in
  let l' :=
    run l [Execute now i d p rc; TimerFires granted;
           RequestSettles settledAt random o; ProcessQueueResumes resumed] in
  started l' = started l ++ [request] /\
  settled l' =
    settled l ++ (if givenUp rc o then [] else [(request, o)]) /\
  requestQueue l' = [] /\ processing l' = false /\
  continuation l' = NotRunning.
Proof.
  intros Hreach Hk Hmax Hfinal request l'.
  pose proof (reachable_invariant cfg l Hreach) as Hinv.
  pose proof Hinv as (Hcfg & _ & Hidle & Hbusy).
  assert (Hrest : atRest l).
  { destruct (processing l) eqn:Ep; [by destruct (Hbusy eq_refl)|].
    destruct (Hidle eq_refl) as [Hq _]. unfold atRest. by rewrite Hcfg. }
  destruct (execute_atRest l now i d p rc Hrest)
    as [(Hs1 & Hq1 & Hp1 & _) _].
  pose proof (execute_atRest_started l now i d p rc Hrest) as Hst1.
  cbv zeta in Hst1. fold request in Hst1.
  subst l'. cbn [run fold_left].
  set (l1 := step l (Execute now i d p rc)) in *.
  (* the operation is in flight after the timer, if any *)
  assert (H2 : exists l2 t,
             step l1 (TimerFires granted) = l2 /\
             started l2 = started l ++ [request] /\
             settled l2 = settled l /\ requestQueue l2 = [] /\
             processing l2 = true /\
             continuation l2 = AwaitRequest request t).
  { destruct Hst1 as [[Hst Hk1]|[Hst Hk1]].
    - exists l1, now. simpl. rewrite Hk1. done.
    - exists (beginRequest granted request l1), granted. simpl. rewrite Hk1.
      unfold beginRequest. simpl. by rewrite Hst, Hs1, Hq1, Hp1. }
  destruct H2 as (l2 & t & -> & Hst2 & Hs2 & Hq2 & Hp2 & Hk2).
  assert (H3 : exists l3,
             step l2 (RequestSettles settledAt random o) = l3 /\
             started l3 = started l ++ [request] /\
             settled l3 =
               settled l ++ (if givenUp rc o then [] else [(request, o)]) /\
             requestQueue l3 = [] /\ processing l3 = true /\
             continuation l3 = AwaitExecuteRequest).
  { eexists. split; [reflexivity|]. simpl. rewrite Hk2.
    unfold afterRequest. destruct o as [v|e|r].
    - simpl. by rewrite Hst2, Hs2, Hq2, Hp2.
    - assert (Hno : (retryCount request <? 3) && shouldRetry e = false).
      { apply not_true_is_false. intros Hyes.
        apply andb_true_iff in Hyes as [Hlt Hretry].
        apply Z.ltb_lt in Hlt. by apply (Hfinal e eq_refl). }
      rewrite Hno. simpl. by rewrite Hst2, Hs2, Hq2, Hp2.
    - simpl. destruct (rc <? 3); simpl;
        rewrite Hst2, Hs2, Hq2, Hp2, ?app_nil_r; done. }
  destruct H3 as (l3 & -> & Hst3 & Hs3 & Hq3 & Hp3 & Hk3).
  simpl. rewrite Hk3. unfold processQueueLoop. rewrite Hq3. simpl.
  by rewrite Hst3, Hs3, Hq3.
Qed.

(** A new limiter with the defaults: a request submitted at time 5 whose
    operation fails with an error that is not retried. *)
Lemma idle_limiter_serves_witness :
  settled
    (run fresh [Execute 5 "q" (Opaque 1) NORMAL 0; TimerFires 6;
                RequestSettles 7 (1 # 2) (Failed {| message := "Forbidden" |});
                ProcessQueueResumes 8]) =
  [({| id := "q"; priority := NORMAL; timestamp := 5; retryCount := 0;
       data := Opaque 1 |}, Failed {| message := "Forbidden" |})].
Proof.
  refine (proj1 (proj2
    (idle_limiter_serves_the_request defaultRateLimitConfig fresh 5 "q"
       (Opaque 1) NORMAL 0 6 7 8 (1 # 2)
       (Failed {| message := "Forbidden" |})
       (reachable_make defaultRateLimitConfig 0) eq_refl eq_refl _))).
  intros e [= <-] [_ Hretry]. by vm_compute in Hretry.
Defined.

End AdvancedRateLimiter.

(** ** The session store: [StreamStateManager] *)

Module StreamStateManager.
Import ErrorRecovery(Error).

Inductive SessionStatus :=
| INITIALIZING | ACTIVE | PAUSED | FINALIZING | COMPLETED | ERROR | TIMEOUT.

Definition SessionStatus_eqb (a b : SessionStatus) : bool :=
  match a, b with
  | INITIALIZING, INITIALIZING | ACTIVE, ACTIVE | PAUSED, PAUSED
  | FINALIZING, FINALIZING | COMPLETED, COMPLETED | ERROR, ERROR
  | TIMEOUT, TIMEOUT => true
  | _, _ => false
  end.

(** The values callers keep in the metadata and in the scratch area. *)
Inductive JsValue :=
| JsUndefined
| JsBoolean (b : bool)
| JsNumber (n : Z)
| JsText (s : string).

Record StreamSession := {
  sessionId : string;
  chatId : Z;
  userId : Z;
  startTime : Z;
  lastActivity : Z;
  status : SessionStatus;
  messageId : option Z;
  parentMessageId : option Z;
  metadata : gmap string JsValue
}.

Record MessageVersion := {
  version : Z;
  content : string;
  timestamp : Z;
  byteLength : Z;
  wordCount : Z;
  sentToTelegram : bool;
  telegramMessageId : option Z;
  checksum : string
}.

Record StreamContext := {
  contextSessionId : string;
  messageVersions : list MessageVersion;
  currentVersion : Z;
  totalChunks : Z;
  processedChunks : Z;
  errorCount : Z;
  retryCount : Z;
  lastCheckpoint : Z;
  contextData : gmap string JsValue
}.

Record StreamMetrics := {
  totalSessions : Z;
  activeSessions : Z;
  averageSessionDuration : Q;
  totalMessages : Z;
  metricsTotalChunks : Z;
  errorRate : Q;
  successRate : Q;
  averageResponseTime : Q
}.

Record CleanupConfig := {
  maxSessionAge : Z;
  maxInactiveDuration : Z;
  maxSessionsPerUser : Z;
  enableAutoCleanup : bool;
  cleanupInterval : Z
}.

(** The defaults of the constructor. *)
Definition defaultCleanupConfig : CleanupConfig :=
  {| maxSessionAge := 30 * 60 * 1000; maxInactiveDuration := 5 * 60 * 1000;
     maxSessionsPerUser := 5; enableAutoCleanup := true;
     cleanupInterval := 60 * 1000 |}.

Record t := {
  sessions : gmap string StreamSession;
  contexts : gmap string StreamContext;
  (** each user's set of session ids, in insertion order *)
  userSessions : gmap Z (list string);
  cleanupConfig : CleanupConfig;
  (** whether the cleanup timer was started *)
  cleanupTimer : bool;
  metrics : StreamMetrics
}.

(** [new StreamStateManager(cleanupConfig)] *)
Definition make (cfg : CleanupConfig) : t :=
  {| sessions := ∅; contexts := ∅; userSessions := ∅; cleanupConfig := cfg;
     cleanupTimer := false;
     metrics :=
       {| totalSessions := 0; activeSessions := 0;
          averageSessionDuration := 0; totalMessages := 0;
          metricsTotalChunks := 0; errorRate := 0; successRate := 100;
          averageResponseTime := 0 |} |}.

Definition withSessions (x : gmap string StreamSession) (m : t) : t :=
  {| sessions := x; contexts := contexts m; userSessions := userSessions m;
     cleanupConfig := cleanupConfig m; cleanupTimer := cleanupTimer m;
     metrics := metrics m |}.

Definition withContexts (x : gmap string StreamContext) (m : t) : t :=
  {| sessions := sessions m; contexts := x; userSessions := userSessions m;
     cleanupConfig := cleanupConfig m; cleanupTimer := cleanupTimer m;
     metrics := metrics m |}.

Definition withUserSessions (x : gmap Z (list string)) (m : t) : t :=
  {| sessions := sessions m; contexts := contexts m; userSessions := x;
     cleanupConfig := cleanupConfig m; cleanupTimer := cleanupTimer m;
     metrics := metrics m |}.

Definition withCleanupTimer (x : bool) (m : t) : t :=
  {| sessions := sessions m; contexts := contexts m;
     userSessions := userSessions m; cleanupConfig := cleanupConfig m;
     cleanupTimer := x; metrics := metrics m |}.

Definition withMetrics (x : StreamMetrics) (m : t) : t :=
  {| sessions := sessions m; contexts := contexts m;
     userSessions := userSessions m; cleanupConfig := cleanupConfig m;
     cleanupTimer := cleanupTimer m; metrics := x |}.

(** [session.status = status; session.lastActivity = now] and the like. *)
Definition withStatus (x : SessionStatus) (s : StreamSession) : StreamSession :=
  {| sessionId := sessionId s; chatId := chatId s; userId := userId s;
     startTime := startTime s; lastActivity := lastActivity s; status := x;
     messageId := messageId s; parentMessageId := parentMessageId s;
     metadata := metadata s |}.

Definition withLastActivity (x : Z) (s : StreamSession) : StreamSession :=
  {| sessionId := sessionId s; chatId := chatId s; userId := userId s;
     startTime := startTime s; lastActivity := x; status := status s;
     messageId := messageId s; parentMessageId := parentMessageId s;
     metadata := metadata s |}.

Definition withMessageId (x : option Z) (s : StreamSession) : StreamSession :=
  {| sessionId := sessionId s; chatId := chatId s; userId := userId s;
     startTime := startTime s; lastActivity := lastActivity s;
     status := status s; messageId := x;
     parentMessageId := parentMessageId s; metadata := metadata s |}.

(** *** Private helpers *)

(** The 32-bit integer a bitwise operator makes of a number. *)
Definition toInt32 (z : Z) : Z := (z + 2 ^ 31) mod 2 ^ 32 - 2 ^ 31.

(** [n.toString(16)] *)
Definition toHex (z : Z) : string :=
  let digits (n : Z) :=
    match Z.to_N n with
    | N0 => "0"%string
    | n' => NilEmpty.string_of_uint (N.to_hex_uint n')
    end in
  if z <? 0 then ("-" +:+ digits (- z))%string else digits z.

(** The loop of [generateChecksum(content)]. *)
Fixpoint checksumFrom (hash : Z) (content : string) : Z :=
  match content with
  | EmptyString => hash
  | String c rest =>
      let char := Z.of_nat (nat_of_ascii c) in
      let hash := toInt32 (hash * 32) - hash + char in
      checksumFrom (toInt32 hash) rest
  end.

(** [generateChecksum(content)] *)
Definition generateChecksum (content : string) : string :=
  toHex (checksumFrom 0 content).

(** The characters the pattern [\s] matches, among the ASCII ones. *)
Definition isSpace (c : ascii) : bool :=
  let n := nat_of_ascii c in
  ((n =? 32) || ((9 <=? n) && (n <=? 13)))%nat.

(** The words of [text.trim().split(/\s+/)] that are not empty: the maximal
    runs of characters that are not spaces. *)
Fixpoint countWordsFrom (inWord : bool) (text : string) : Z :=
  match text with
  | EmptyString => 0
  | String c rest =>
      if isSpace c then countWordsFrom false rest
      else (if inWord then 0 else 1) + countWordsFrom true rest
  end.

(** [countWords(text)] *)
Definition countWords (text : string) : Z := countWordsFrom false text.

(** [generateSessionId(chatId, userId)], with the random suffix drawn. *)
Definition generateSessionId (now : Z) (random : string) (chatId userId : Z)
  : string :=
  ("stream_" +:+ pretty chatId +:+ "_" +:+ pretty userId +:+ "_" +:+
   pretty now +:+ "_" +:+ random)%string.

Definition isActive (s : StreamSession) : bool :=
  SessionStatus_eqb (status s) ACTIVE ||
  SessionStatus_eqb (status s) INITIALIZING.

(** [updateActiveSessionsCount()] *)
Definition updateActiveSessionsCount (m : t) : t :=
  let active :=
    map_fold (fun _ s n => if isActive s then n + 1 else n) 0 (sessions m) in
  withMetrics
    {| totalSessions := totalSessions (metrics m); activeSessions := active;
       averageSessionDuration := averageSessionDuration (metrics m);
       totalMessages := totalMessages (metrics m);
       metricsTotalChunks := metricsTotalChunks (metrics m);
       errorRate := errorRate (metrics m);
       successRate := successRate (metrics m);
       averageResponseTime := averageResponseTime (metrics m) |} m.

(** [updateSessionMetrics(session)] *)
Definition updateSessionMetrics (now : Z) (session : StreamSession) (m : t)
  : t :=
  let duration := now - startTime session in
  let totalDuration :=
    (averageSessionDuration (metrics m) *
     inject_Z (totalSessions (metrics m) - 1) + inject_Z duration)%Q in
  withMetrics
    {| totalSessions := totalSessions (metrics m);
       activeSessions := activeSessions (metrics m);
       averageSessionDuration :=
         (totalDuration / inject_Z (totalSessions (metrics m)))%Q;
       totalMessages := totalMessages (metrics m);
       metricsTotalChunks := metricsTotalChunks (metrics m);
       errorRate := errorRate (metrics m);
       successRate := successRate (metrics m);
       averageResponseTime := averageResponseTime (metrics m) |} m.

(** [updateErrorRate()] *)
Definition updateErrorRate (m : t) : t :=
  let totalErrors :=
    map_fold (fun _ c n => n + errorCount c) 0 (contexts m) in
  let totalAttempts :=
    map_fold (fun _ c n => n + (totalChunks c + errorCount c)) 0 (contexts m) in
  if 0 <? totalAttempts then
    let rate := (inject_Z totalErrors / inject_Z totalAttempts * 100)%Q in
    withMetrics
      {| totalSessions := totalSessions (metrics m);
         activeSessions := activeSessions (metrics m);
         averageSessionDuration := averageSessionDuration (metrics m);
         totalMessages := totalMessages (metrics m);
         metricsTotalChunks := metricsTotalChunks (metrics m);
         errorRate := rate; successRate := (100 - rate)%Q;
         averageResponseTime := averageResponseTime (metrics m) |} m
  else m.

(** *** The public interface *)

(** [getSession(sessionId)] and [getContext(sessionId)] *)
Definition getSession (id : string) (m : t) : option StreamSession :=
  sessions m !! id.
Definition getContext (id : string) (m : t) : option StreamContext :=
  contexts m !! id.

(** [cleanupSession(sessionId)] *)
Definition cleanupSession (id : string) (m : t) : t * bool :=
  match sessions m !! id with
  | None => (m, false)
  | Some session =>
      let m :=
        match userSessions m !! userId session with
        | Some userSessionIds =>
            let remaining :=
              List.filter (fun i => negb (String.eqb i id)) userSessionIds in
            if (length remaining =? 0)%nat
            then withUserSessions (delete (userId session) (userSessions m)) m
            else withUserSessions
                   (<[userId session := remaining]> (userSessions m)) m
        | None => m
        end in
      let m := withSessions (delete id (sessions m)) m in
      let m := withContexts (delete id (contexts m)) m in
      (updateActiveSessionsCount m, true)
  end.

(** The loop of [enforceUserSessionLimits]: the first of the oldest
    sessions among the user's. *)
Definition oldestOf (m : t) (ids : list string)
  : option (StreamSession * string) :=
  fold_left
    (fun oldest id =>
       match sessions m !! id, oldest with
       | Some session, None => Some (session, id)
       | Some session, Some (o, _) =>
           if startTime session <? startTime o then Some (session, id)
           else oldest
       | None, _ => oldest
       end)
    ids None.

(** [enforceUserSessionLimits(userId)] *)
Definition enforceUserSessionLimits (user : Z) (m : t) : t :=
  match userSessions m !! user with
  | None => m
  | Some userSessionIds =>
      if Z.of_nat (length userSessionIds) <? maxSessionsPerUser (cleanupConfig m)
      then m
      else
        match oldestOf m userSessionIds with
        | Some (_, oldestSessionId) =>
            if String.eqb oldestSessionId "" then m
            else fst (cleanupSession oldestSessionId m)
        | None => m
        end
  end.

(** [createSession(chatId, userId, metadata)] *)
Definition createSession (now : Z) (random : string) (chat user : Z)
  (meta : gmap string JsValue) (m : t) : t * StreamSession :=
  let m :=
    if enableAutoCleanup (cleanupConfig m) && negb (cleanupTimer m)
    then withCleanupTimer true m else m in
  let id := generateSessionId now random chat user in
  let m := enforceUserSessionLimits user m in
  let session :=
    {| sessionId := id; chatId := chat; userId := user; startTime := now;
       lastActivity := now; status := INITIALIZING; messageId := None;
       parentMessageId := None; metadata := meta |} in
  let context :=
    {| contextSessionId := id; messageVersions := []; currentVersion := 0;
       totalChunks := 0; processedChunks := 0; errorCount := 0;
       retryCount := 0; lastCheckpoint := now; contextData := ∅ |} in
  let m := withSessions (<[id := session]> (sessions m)) m in
  let m := withContexts (<[id := context]> (contexts m)) m in
  let ids := default [] (userSessions m !! user) in
  let ids := if bool_decide (id ∈ ids) then ids else ids ++ [id] in
  let m := withUserSessions (<[user := ids]> (userSessions m)) m in
  let m :=
    withMetrics
      {| totalSessions := totalSessions (metrics m) + 1;
         activeSessions := activeSessions (metrics m);
         averageSessionDuration := averageSessionDuration (metrics m);
         totalMessages := totalMessages (metrics m);
         metricsTotalChunks := metricsTotalChunks (metrics m);
         errorRate := errorRate (metrics m);
         successRate := successRate (metrics m);
         averageResponseTime := averageResponseTime (metrics m) |} m in
  (updateActiveSessionsCount m, session).

(** [updateSessionStatus(sessionId, status)] *)
Definition updateSessionStatus (now : Z) (id : string) (st : SessionStatus)
  (m : t) : t * bool :=
  match sessions m !! id with
  | None => (m, false)
  | Some session =>
      let session := withLastActivity now (withStatus st session) in
      let m := withSessions (<[id := session]> (sessions m)) m in
      let m :=
        if SessionStatus_eqb st COMPLETED || SessionStatus_eqb st ERROR
        then updateSessionMetrics now session m else m in
      (m, true)
  end.

(** Whether a number or [undefined] is truthy. *)
Definition truthy (x : option Z) : bool :=
  match x with
  | Some n => negb (n =? 0)
  | None => false
  end.

(** [session.lastActivity = Date.now()] on the session of the map, if any. *)
Definition touch (now : Z) (id : string) (m : t) : t :=
  match sessions m !! id with
  | Some session =>
      withSessions (<[id := withLastActivity now session]> (sessions m)) m
  | None => m
  end.

(** [addMessageVersion(sessionId, content, sentToTelegram, telegramMessageId)] *)
Definition addMessageVersion (now : Z) (id : string) (text : string)
  (sent : bool) (telegramId : option Z) (m : t) : t * option MessageVersion :=
  match contexts m !! id with
  | None => (m, None)
  | Some context =>
      let v :=
        {| version := currentVersion context + 1; content := text;
           timestamp := now; byteLength := Z.of_nat (String.length text);
           wordCount := countWords text; sentToTelegram := sent;
           telegramMessageId := telegramId;
           checksum := generateChecksum text |} in
      let context :=
        {| contextSessionId := contextSessionId context;
           messageVersions := messageVersions context ++ [v];
           currentVersion := version v;
           totalChunks := totalChunks context;
           processedChunks := processedChunks context;
           errorCount := errorCount context;
           retryCount := retryCount context;
           lastCheckpoint := lastCheckpoint context;
           contextData := contextData context |} in
      let m := withContexts (<[id := context]> (contexts m)) m in
      let m :=
        match sessions m !! id with
        | Some session =>
            let session := withLastActivity now session in
            let session :=
              if truthy telegramId then withMessageId telegramId session
              else session in
            withSessions (<[id := session]> (sessions m)) m
        | None => m
        end in
      let m :=
        withMetrics
          {| totalSessions := totalSessions (metrics m);
             activeSessions := activeSessions (metrics m);
             averageSessionDuration := averageSessionDuration (metrics m);
             totalMessages := totalMessages (metrics m) + 1;
             metricsTotalChunks := metricsTotalChunks (metrics m);
             errorRate := errorRate (metrics m);
             successRate := successRate (metrics m);
             averageResponseTime := averageResponseTime (metrics m) |} m in
      (m, Some v)
  end.

(** [recordChunk(sessionId, chunkData)] *)
Definition recordChunk (now : Z) (id : string) (m : t) : t * bool :=
  match contexts m !! id with
  | None => (m, false)
  | Some context =>
      let context :=
        {| contextSessionId := contextSessionId context;
           messageVersions := messageVersions context;
           currentVersion := currentVersion context;
           totalChunks := totalChunks context + 1;
           processedChunks := processedChunks context + 1;
           errorCount := errorCount context;
           retryCount := retryCount context;
           lastCheckpoint := now;
           contextData := contextData context |} in
      let m := withContexts (<[id := context]> (contexts m)) m in
      let m := touch now id m in
      let m :=
        withMetrics
          {| totalSessions := totalSessions (metrics m);
             activeSessions := activeSessions (metrics m);
             averageSessionDuration := averageSessionDuration (metrics m);
             totalMessages := totalMessages (metrics m);
             metricsTotalChunks := metricsTotalChunks (metrics m) + 1;
             errorRate := errorRate (metrics m);
             successRate := successRate (metrics m);
             averageResponseTime := averageResponseTime (metrics m) |} m in
      (m, true)
  end.

(** [recordError(sessionId, error)] *)
Definition recordError (now : Z) (id : string) (error : Error) (m : t)
  : t * bool :=
  match contexts m !! id with
  | None => (m, false)
  | Some context =>
      let context :=
        {| contextSessionId := contextSessionId context;
           messageVersions := messageVersions context;
           currentVersion := currentVersion context;
           totalChunks := totalChunks context;
           processedChunks := processedChunks context;
           errorCount := errorCount context + 1;
           retryCount := retryCount context;
           lastCheckpoint := lastCheckpoint context;
           contextData := contextData context |} in
      let m := withContexts (<[id := context]> (contexts m)) m in
      let m :=
        match sessions m !! id with
        | Some session =>
            let session := withLastActivity now session in
            let session :=
              if 3 <? errorCount context then withStatus ERROR session
              else session in
            withSessions (<[id := session]> (sessions m)) m
        | None => m
        end in
      (updateErrorRate m, true)
  end.

(** [recordRetry(sessionId)] *)
Definition recordRetry (now : Z) (id : string) (m : t) : t * bool :=
  match contexts m !! id with
  | None => (m, false)
  | Some context =>
      let context :=
        {| contextSessionId := contextSessionId context;
           messageVersions := messageVersions context;
           currentVersion := currentVersion context;
           totalChunks := totalChunks context;
           processedChunks := processedChunks context;
           errorCount := errorCount context;
           retryCount := retryCount context + 1;
           lastCheckpoint := lastCheckpoint context;
           contextData := contextData context |} in
      let m := withContexts (<[id := context]> (contexts m)) m in
      (touch now id m, true)
  end.

(** [setContextData(sessionId, key, value)] *)
Definition setContextData (id key : string) (value : JsValue) (m : t)
  : t * bool :=
  match contexts m !! id with
  | None => (m, false)
  | Some context =>
      let context :=
        {| contextSessionId := contextSessionId context;
           messageVersions := messageVersions context;
           currentVersion := currentVersion context;
           totalChunks := totalChunks context;
           processedChunks := processedChunks context;
           errorCount := errorCount context;
           retryCount := retryCount context;
           lastCheckpoint := lastCheckpoint context;
           contextData := <[key := value]> (contextData context) |} in
      (withContexts (<[id := context]> (contexts m)) m, true)
  end.

(** The test of [performCleanup] on one session. *)
Definition shouldCleanup (cfg : CleanupConfig) (now : Z) (s : StreamSession)
  : bool :=
  let age := now - startTime s in
  let inactiveDuration := now - lastActivity s in
  (maxSessionAge cfg <? age) ||
  (maxInactiveDuration cfg <? inactiveDuration) ||
  (SessionStatus_eqb (status s) COMPLETED ||
   SessionStatus_eqb (status s) ERROR).

(** The body of the loop of [performCleanup], on one entry of the map. *)
Definition visit (now : Z) (acc : t * Z) (entry : string * StreamSession)
  : t * Z :=
  if shouldCleanup (cleanupConfig (fst acc)) now (snd entry)
  then (fst (cleanupSession (fst entry) (fst acc)), snd acc + 1)
  else acc.

(** [performCleanup()]: the loop visits the entries the map had when it
    began; a visit deletes the visited entry only. *)
Definition performCleanup (now : Z) (m : t) : t * Z :=
  fold_left (visit now) (map_to_list (sessions m)) (m, 0).

(** [dispose()] *)
Definition dispose (m : t) : t :=
  fold_left (fun m id => fst (cleanupSession id m))
            (fst <$> map_to_list (sessions m))
            (withCleanupTimer false m).

(** The calls of the public interface that change the store. *)
Inductive Call :=
| CreateSession (now : Z) (random : string) (chat user : Z)
    (meta : gmap string JsValue)
| UpdateSessionStatus (now : Z) (id : string) (st : SessionStatus)
| AddMessageVersion (now : Z) (id : string) (text : string) (sent : bool)
    (telegramId : option Z)
| RecordChunk (now : Z) (id : string)
| RecordError (now : Z) (id : string) (error : Error)
| RecordRetry (now : Z) (id : string)
| SetContextData (id key : string) (value : JsValue)
| CleanupSession (id : string)
| PerformCleanup (now : Z)
| Dispose.

Definition perform (m : t) (c : Call) : t :=
  match c with
  | CreateSession now random chat user meta =>
      fst (createSession now random chat user meta m)
  | UpdateSessionStatus now id st => fst (updateSessionStatus now id st m)
  | AddMessageVersion now id text sent telegramId =>
      fst (addMessageVersion now id text sent telegramId m)
  | RecordChunk now id => fst (recordChunk now id m)
  | RecordError now id error => fst (recordError now id error m)
  | RecordRetry now id => fst (recordRetry now id m)
  | SetContextData id key value => fst (setContextData id key value m)
  | CleanupSession id => fst (cleanupSession id m)
  | PerformCleanup now => fst (performCleanup now m)
  | Dispose => dispose m
  end.

Definition run (m : t) (calls : list Call) : t := fold_left perform calls m.

(** The states a store built with [cfg] can be in. *)
Inductive reachable (cfg : CleanupConfig) : t -> Prop :=
| reachable_make : reachable cfg (make cfg)
| reachable_perform m c : reachable cfg m -> reachable cfg (perform m c).

(** The calls that neither remove nor replace a session. *)
Definition keepsSessions (c : Call) : bool :=
  match c with
  | CreateSession _ _ _ _ _ | CleanupSession _ | PerformCleanup _ | Dispose =>
      false
  | _ => true
  end.

(** The version numbers 1, 2, ..., n. *)
Definition firstVersions (n : nat) : list Z := Z.of_nat <$> seq 1 n.

(** A context whose versions are numbered 1, 2, ... without a gap, the last
    one being the current version. *)
Definition gapless (c : StreamContext) : Prop :=
  version <$> messageVersions c = firstVersions (length (messageVersions c)) /\
  currentVersion c = Z.of_nat (length (messageVersions c)).


(** *** What each call does to the two maps *)

Lemma cleanupSession_maps id m :
  sessions (fst (cleanupSession id m)) = delete id (sessions m) /\
  contexts (fst (cleanupSession id m)) =
    match sessions m !! id with
    | Some _ => delete id (contexts m)
    | None => contexts m
    end /\
  cleanupConfig (fst (cleanupSession id m)) = cleanupConfig m.
Proof.
  unfold cleanupSession. destruct (sessions m !! id) as [s|] eqn:E; simpl.
  - destruct (userSessions m !! userId s) as [ids|]; simpl; [|done].
    by destruct (_ =? _)%nat.
  - by rewrite delete_id.
Qed.

Lemma enforceUserSessionLimits_maps user m :
  cleanupConfig (enforceUserSessionLimits user m) = cleanupConfig m /\
  cleanupTimer (enforceUserSessionLimits user m) = cleanupTimer m /\
  (enforceUserSessionLimits user m = m \/
   exists id, enforceUserSessionLimits user m = fst (cleanupSession id m)).
Proof.
  unfold enforceUserSessionLimits.
  destruct (userSessions m !! user) as [ids|]; [|by auto].
  destruct (_ <? _); [by auto|].
  destruct (oldestOf m ids) as [[o oid]|]; [|by auto].
  destruct (String.eqb oid ""); [by auto|].
  destruct (cleanupSession_maps oid m) as (_ & _ & Hc).
  repeat split; eauto.
  unfold cleanupSession. destruct (sessions m !! oid) as [s|]; simpl; [|done].
  destruct (userSessions m !! userId s) as [ids'|]; simpl; [|done].
  by destruct (_ =? _)%nat.
Qed.

Lemma createSession_maps now random chat user meta m :
  exists m0,
    (m0 = m \/ exists id0, m0 = fst (cleanupSession id0 m)) /\
    sessions (fst (createSession now random chat user meta m)) =
      <[generateSessionId now random chat user :=
          snd (createSession now random chat user meta m)]> (sessions m0) /\
    contexts (fst (createSession now random chat user meta m)) =
      <[generateSessionId now random chat user :=
          {| contextSessionId := generateSessionId now random chat user;
             messageVersions := []; currentVersion := 0; totalChunks := 0;
             processedChunks := 0; errorCount := 0; retryCount := 0;
             lastCheckpoint := now; contextData := ∅ |}]> (contexts m0) /\
    cleanupConfig (fst (createSession now random chat user meta m)) =
      cleanupConfig m.
Proof.
  unfold createSession.
  set (m1 := if enableAutoCleanup (cleanupConfig m) && negb (cleanupTimer m)
             then withCleanupTimer true m else m).
  assert (H1 : sessions m1 = sessions m /\ contexts m1 = contexts m /\
               cleanupConfig m1 = cleanupConfig m /\
               userSessions m1 = userSessions m).
  { unfold m1. by destruct (_ && _). }
  destruct H1 as (Hs1 & Hc1 & Hcfg1 & Hu1).
  destruct (enforceUserSessionLimits_maps user m1) as (Hcfg & _ & [E|[id0 E]]).
  - exists m. split; [by left|]. rewrite E. simpl.
    by rewrite Hs1, Hc1, Hcfg1.
  - exists (fst (cleanupSession id0 m)). split; [by right; eexists|].
    rewrite E. simpl.
    destruct (cleanupSession_maps id0 m1) as (Hs & Hc & Hg).
    destruct (cleanupSession_maps id0 m) as (Hs' & Hc' & Hg').
    rewrite Hs, Hc, Hg, Hs', Hc', Hs1, Hc1, Hcfg1. done.
Qed.

Lemma createSession_session now random chat user meta m :
  snd (createSession now random chat user meta m) =
  {| sessionId := generateSessionId now random chat user; chatId := chat;
     userId := user; startTime := now; lastActivity := now;
     status := INITIALIZING; messageId := None; parentMessageId := None;
     metadata := meta |}.
Proof. done. Qed.

(** The calls that keep the sessions rewrite at most the session and the
    context of the id they are given. *)
Lemma updateSessionStatus_maps now id st m :
  contexts (fst (updateSessionStatus now id st m)) = contexts m /\
  sessions (fst (updateSessionStatus now id st m)) =
    match sessions m !! id with
    | Some s => <[id := withLastActivity now (withStatus st s)]> (sessions m)
    | None => sessions m
    end /\
  cleanupConfig (fst (updateSessionStatus now id st m)) = cleanupConfig m.
Proof.
  unfold updateSessionStatus. destruct (sessions m !! id) as [s|]; [|done].
  simpl. by destruct (_ || _).
Qed.

Lemma touch_maps now id m :
  contexts (touch now id m) = contexts m /\
  sessions (touch now id m) =
    match sessions m !! id with
    | Some s => <[id := withLastActivity now s]> (sessions m)
    | None => sessions m
    end /\
  cleanupConfig (touch now id m) = cleanupConfig m.
Proof. unfold touch. by destruct (sessions m !! id). Qed.

Lemma addMessageVersion_maps now id text sent telegramId m c :
  contexts m !! id = Some c ->
  exists v c',
    snd (addMessageVersion now id text sent telegramId m) = Some v /\
    version v = currentVersion c + 1 /\
    content v = text /\
    contexts (fst (addMessageVersion now id text sent telegramId m)) =
      <[id := c']> (contexts m) /\
    currentVersion c' = version v /\
    messageVersions c' = messageVersions c ++ [v] /\
    errorCount c' = errorCount c /\
    sessions (fst (addMessageVersion now id text sent telegramId m)) =
      match sessions m !! id with
      | Some s =>
          <[id := if truthy telegramId
                  then withMessageId telegramId (withLastActivity now s)
                  else withLastActivity now s]> (sessions m)
      | None => sessions m
      end /\
    cleanupConfig (fst (addMessageVersion now id text sent telegramId m)) =
      cleanupConfig m.
Proof.
  intros Hc. unfold addMessageVersion. rewrite Hc. simpl.
  destruct (sessions m !! id) as [s|]; simpl; eexists _, _; by repeat split.
Qed.

Lemma addMessageVersion_missing now id text sent telegramId m :
  contexts m !! id = None ->
  addMessageVersion now id text sent telegramId m = (m, None).
Proof. intros Hc. unfold addMessageVersion. by rewrite Hc. Qed.

Lemma recordChunk_maps now id m c :
  contexts m !! id = Some c ->
  exists c',
    contexts (fst (recordChunk now id m)) = <[id := c']> (contexts m) /\
    currentVersion c' = currentVersion c /\
    messageVersions c' = messageVersions c /\
    sessions (fst (recordChunk now id m)) =
      match sessions m !! id with
      | Some s => <[id := withLastActivity now s]> (sessions m)
      | None => sessions m
      end.
Proof.
  intros Hc. unfold recordChunk, touch. rewrite Hc. simpl.
  destruct (sessions m !! id) as [s|]; simpl; eexists; by repeat split.
Qed.

Lemma recordRetry_maps now id m c :
  contexts m !! id = Some c ->
  exists c',
    contexts (fst (recordRetry now id m)) = <[id := c']> (contexts m) /\
    currentVersion c' = currentVersion c /\
    messageVersions c' = messageVersions c /\
    retryCount c' = retryCount c + 1 /\
    sessions (fst (recordRetry now id m)) =
      match sessions m !! id with
      | Some s => <[id := withLastActivity now s]> (sessions m)
      | None => sessions m
      end.
Proof.
  intros Hc. unfold recordRetry, touch. rewrite Hc. simpl.
  destruct (sessions m !! id) as [s|]; simpl; eexists; by repeat split.
Qed.

Lemma updateErrorRate_maps m :
  sessions (updateErrorRate m) = sessions m /\
  contexts (updateErrorRate m) = contexts m /\
  cleanupConfig (updateErrorRate m) = cleanupConfig m.
Proof. unfold updateErrorRate. by destruct (_ <? _). Qed.

Lemma recordError_maps now id error m c :
  contexts m !! id = Some c ->
  snd (recordError now id error m) = true /\
  exists c',
    contexts (fst (recordError now id error m)) = <[id := c']> (contexts m) /\
    currentVersion c' = currentVersion c /\
    messageVersions c' = messageVersions c /\
    errorCount c' = errorCount c + 1 /\
    sessions (fst (recordError now id error m)) =
      match sessions m !! id with
      | Some s =>
          <[id := if 3 <? errorCount c + 1
                  then withStatus ERROR (withLastActivity now s)
                  else withLastActivity now s]> (sessions m)
      | None => sessions m
      end.
Proof.
  intros Hc. unfold recordError. rewrite Hc. simpl. split; [done|].
  rewrite !(proj1 (updateErrorRate_maps _)).
  rewrite !(proj1 (proj2 (updateErrorRate_maps _))). simpl.
  destruct (sessions m !! id) as [s|]; simpl; eexists; repeat split;
    by destruct (3 <? errorCount c + 1).
Qed.

Lemma setContextData_maps id key value m c :
  contexts m !! id = Some c ->
  exists c',
    contexts (fst (setContextData id key value m)) = <[id := c']> (contexts m) /\
    currentVersion c' = currentVersion c /\
    messageVersions c' = messageVersions c /\
    sessions (fst (setContextData id key value m)) = sessions m.
Proof.
  intros Hc. unfold setContextData. rewrite Hc. simpl.
  eexists. by repeat split.
Qed.

(** *** What every reachable store satisfies *)

(** Sessions and contexts come and go together, and every context is
    gapless. *)
Definition consistent (m : t) : Prop :=
  dom (sessions m) = dom (contexts m) /\
  (forall id c, contexts m !! id = Some c -> gapless c).

Lemma dom_rewrite_session (g : StreamSession -> StreamSession) id
  (ss : gmap string StreamSession) :
  dom (match ss !! id with
       | Some s => <[id := g s]> ss
       | None => ss
       end) = dom ss.
Proof.
  destruct (ss !! id) as [s|] eqn:E; [|done].
  rewrite dom_insert_L. apply (elem_of_dom_2 ss) in E. set_solver.
Qed.

Lemma consistent_update m m' id c' :
  consistent m -> is_Some (contexts m !! id) -> gapless c' ->
  contexts m' = <[id := c']> (contexts m) ->
  dom (sessions m') = dom (sessions m) ->
  consistent m'.
Proof.
  intros [Hdom Hgap] Hsome Hc' Hctx Hss. split.
  - rewrite Hss, Hctx, dom_insert_L, Hdom.
    apply elem_of_dom in Hsome. set_solver.
  - intros i c. rewrite Hctx. destruct (decide (id = i)) as [->|Hne].
    + rewrite lookup_insert_eq. by intros [= <-].
    + rewrite lookup_insert_ne by done. apply Hgap.
Qed.

Lemma gapless_same c c' :
  currentVersion c' = currentVersion c ->
  messageVersions c' = messageVersions c ->
  gapless c -> gapless c'.
Proof. unfold gapless. by intros -> ->. Qed.

Lemma firstVersions_S n :
  firstVersions (S n) = firstVersions n ++ [Z.of_nat (S n)].
Proof. unfold firstVersions. by rewrite seq_S, fmap_app. Qed.

Lemma gapless_append c c' v :
  version v = currentVersion c + 1 ->
  currentVersion c' = version v ->
  messageVersions c' = messageVersions c ++ [v] ->
  gapless c -> gapless c'.
Proof.
  unfold gapless. intros Hv Hcur Hvs [Hnum Hlen].
  rewrite Hvs, Hcur, Hv, fmap_app, length_app, Hnum, Hlen. simpl.
  rewrite Nat.add_1_r, firstVersions_S. split; [|lia].
  do 3 f_equal. lia.
Qed.

Lemma cleanupSession_consistent id m :
  consistent m -> consistent (fst (cleanupSession id m)).
Proof.
  intros [Hdom Hgap].
  destruct (cleanupSession_maps id m) as (Hs & Hc & _).
  split.
  - rewrite Hs, Hc. destruct (sessions m !! id) as [s|] eqn:E.
    + by rewrite !dom_delete_L, Hdom.
    + by rewrite delete_id.
  - intros i c. rewrite Hc.
    destruct (sessions m !! id); [|by apply Hgap].
    intros [_ H]%lookup_delete_Some. by apply (Hgap i).
Qed.

Lemma fold_cleanup_consistent {A} (f : t * Z -> A -> t * Z) (l : list A) :
  (forall acc a, consistent (fst acc) -> consistent (fst (f acc a))) ->
  forall acc, consistent (fst acc) -> consistent (fst (fold_left f l acc)).
Proof.
  intros Hf. induction l as [|a l IH]; intros acc Hacc; [done|].
  simpl. apply IH. by apply Hf.
Qed.

Lemma performCleanup_consistent now m :
  consistent m -> consistent (fst (performCleanup now m)).
Proof.
  intros H. unfold performCleanup.
  apply (fold_cleanup_consistent _ _); [|done].
  intros acc a Hacc. unfold visit. destruct (shouldCleanup _ _ _); [|done].
  simpl. by apply cleanupSession_consistent.
Qed.

Lemma dispose_consistent m : consistent m -> consistent (dispose m).
Proof.
  intros H. unfold dispose.
  assert (Hw : consistent (withCleanupTimer false m)) by done.
  revert Hw. generalize (withCleanupTimer false m).
  induction (fst <$> map_to_list (sessions m)) as [|id ids IH];
    intros m0 Hm0; [done|].
  simpl. apply IH. by apply cleanupSession_consistent.
Qed.

Lemma perform_consistent m c : consistent m -> consistent (perform m c).
Proof.
  intros Hm. pose proof Hm as [Hdom Hgap].
  destruct c as [now random chat user meta|now id st|now id text sent tg
                |now id|now id error|now id|id key value|id|now|];
    unfold perform.
  - destruct (createSession_maps now random chat user meta m)
      as (m0 & Hm0 & Hs & Hc & _).
    assert (H0 : consistent m0).
    { destruct Hm0 as [->|[id0 ->]]; [done|].
      by apply cleanupSession_consistent. }
    destruct H0 as [Hdom0 Hgap0]. split.
    + by rewrite Hs, Hc, !dom_insert_L, Hdom0.
    + intros i c. rewrite Hc.
      destruct (decide (generateSessionId now random chat user = i))
        as [->|Hne].
      * rewrite lookup_insert_eq. intros [= <-]. by split.
      * rewrite lookup_insert_ne by done. apply Hgap0.
  - destruct (updateSessionStatus_maps now id st m) as (Hc & Hs & _).
    split.
    + by rewrite Hs, Hc, dom_rewrite_session.
    + intros i c. rewrite Hc. apply Hgap.
  - destruct (contexts m !! id) as [c|] eqn:E.
    + destruct (addMessageVersion_maps now id text sent tg m c E)
        as (v & c' & _ & Hv & _ & Hc & Hcur & Hvs & _ & Hs & _).
      apply (consistent_update m _ id c'); try done.
      * eapply gapless_append; eauto.
      * rewrite Hs.
        apply (dom_rewrite_session
                 (fun s => if truthy tg
                           then withMessageId tg (withLastActivity now s)
                           else withLastActivity now s)).
    + by rewrite addMessageVersion_missing.
  - destruct (contexts m !! id) as [c|] eqn:E.
    + destruct (recordChunk_maps now id m c E) as (c' & Hc & Hcur & Hvs & Hs).
      apply (consistent_update m _ id c'); try done.
      * eapply gapless_same; eauto.
      * rewrite Hs. apply (dom_rewrite_session (withLastActivity now)).
    + unfold recordChunk. by rewrite E.
  - destruct (contexts m !! id) as [c|] eqn:E.
    + destruct (recordError_maps now id error m c E)
        as (_ & c' & Hc & Hcur & Hvs & _ & Hs).
      apply (consistent_update m _ id c'); try done.
      * eapply gapless_same; eauto.
      * rewrite Hs.
        apply (dom_rewrite_session
                 (fun s => if 3 <? errorCount c + 1
                           then withStatus ERROR (withLastActivity now s)
                           else withLastActivity now s)).
    + unfold recordError. by rewrite E.
  - destruct (contexts m !! id) as [c|] eqn:E.
    + destruct (recordRetry_maps now id m c E)
        as (c' & Hc & Hcur & Hvs & _ & Hs).
      apply (consistent_update m _ id c'); try done.
      * eapply gapless_same; eauto.
      * rewrite Hs. apply (dom_rewrite_session (withLastActivity now)).
    + unfold recordRetry. by rewrite E.
  - destruct (contexts m !! id) as [c|] eqn:E.
    + destruct (setContextData_maps id key value m c E)
        as (c' & Hc & Hcur & Hvs & Hs).
      apply (consistent_update m _ id c'); try done.
      * eapply gapless_same; eauto.
      * by rewrite Hs.
    + unfold setContextData. by rewrite E.
  - by apply cleanupSession_consistent.
  - by apply performCleanup_consistent.
  - by apply dispose_consistent.
Qed.

Lemma reachable_consistent cfg m : reachable cfg m -> consistent m.
Proof.
  induction 1 as [|m c _ IH].
  - split; [done|]. intros id c H. simpl in H. by rewrite lookup_empty in H.
  - by apply perform_consistent.
Qed.

Lemma consistent_context_of_session m id s :
  consistent m -> sessions m !! id = Some s -> is_Some (contexts m !! id).
Proof.
  intros [Hdom _] Hs. apply elem_of_dom. rewrite <- Hdom.
  by apply (elem_of_dom_2 _ _ s).
Qed.

(** A call that keeps the sessions leaves the versions of a context alone,
    or appends one version to them. *)
Lemma perform_versions call m id c :
  keepsSessions call = true -> contexts m !! id = Some c ->
  exists c',
    contexts (perform m call) !! id = Some c' /\
    ((messageVersions c' = messageVersions c /\
      currentVersion c' = currentVersion c) \/
     (exists v,
        messageVersions c' = messageVersions c ++ [v] /\
        version v = currentVersion c + 1 /\
        currentVersion c' = version v)).
Proof.
  intros Hkeep Hc.
  destruct call as [now random chat user meta|now id0 st|now id0 text sent tg
                   |now id0|now id0 error|now id0|id0 key value|id0|now|];
    try discriminate Hkeep; unfold perform.
  - destruct (updateSessionStatus_maps now id0 st m) as (-> & _).
    exists c. by auto.
  - destruct (contexts m !! id0) as [c0|] eqn:E.
    + destruct (addMessageVersion_maps now id0 text sent tg m c0 E)
        as (v & c' & _ & Hv & _ & -> & Hcur & Hvs & _).
      destruct (decide (id0 = id)) as [->|Hne].
      * rewrite lookup_insert_eq. exists c'. split; [done|]. right.
        assert (c0 = c) as -> by congruence. by exists v.
      * rewrite lookup_insert_ne by done. exists c. by auto.
    + rewrite addMessageVersion_missing by done. exists c. by auto.
  - destruct (contexts m !! id0) as [c0|] eqn:E.
    + destruct (recordChunk_maps now id0 m c0 E) as (c' & -> & Hcur & Hvs & _).
      destruct (decide (id0 = id)) as [->|Hne].
      * rewrite lookup_insert_eq. exists c'.
        assert (c0 = c) as -> by congruence. by auto.
      * rewrite lookup_insert_ne by done. exists c. by auto.
    + unfold recordChunk. rewrite E. exists c. by auto.
  - destruct (contexts m !! id0) as [c0|] eqn:E.
    + destruct (recordError_maps now id0 error m c0 E)
        as (_ & c' & -> & Hcur & Hvs & _).
      destruct (decide (id0 = id)) as [->|Hne].
      * rewrite lookup_insert_eq. exists c'.
        assert (c0 = c) as -> by congruence. by auto.
      * rewrite lookup_insert_ne by done. exists c. by auto.
    + unfold recordError. rewrite E. exists c. by auto.
  - destruct (contexts m !! id0) as [c0|] eqn:E.
    + destruct (recordRetry_maps now id0 m c0 E)
        as (c' & -> & Hcur & Hvs & _).
      destruct (decide (id0 = id)) as [->|Hne].
      * rewrite lookup_insert_eq. exists c'.
        assert (c0 = c) as -> by congruence. by auto.
      * rewrite lookup_insert_ne by done. exists c. by auto.
    + unfold recordRetry. rewrite E. exists c. by auto.
  - destruct (contexts m !! id0) as [c0|] eqn:E.
    + destruct (setContextData_maps id0 key value m c0 E)
        as (c' & -> & Hcur & Hvs & _).
      destruct (decide (id0 = id)) as [->|Hne].
      * rewrite lookup_insert_eq. exists c'.
        assert (c0 = c) as -> by congruence. by auto.
      * rewrite lookup_insert_ne by done. exists c. by auto.
    + unfold setContextData. rewrite E. exists c. by auto.
Qed.

(** *** Version numbers *)

(** C4. In every state the store can reach, the versions of every context
    are numbered 1, 2, 3, ... without a gap and the current version is the
    last number. An [addMessageVersion] on an existing context returns a
    version numbered one more than the current version, appends it and
    makes its number the current version. Every call that keeps the
    sessions ([recordError], [recordRetry], [recordChunk],
    [updateSessionStatus], [setContextData], [addMessageVersion], on any
    session) leaves the recorded versions of a context as they are, or
    appends one. *)
Theorem version_numbers_gapless_append_only (cfg : CleanupConfig) (m : t) :
  reachable cfg m ->
  (forall id c, getContext id m = Some c ->
     version <$> messageVersions c =
       firstVersions (length (messageVersions c)) /\
     currentVersion c = Z.of_nat (length (messageVersions c))) /\
  (forall now id text sent telegramId c,
     getContext id m = Some c ->
     exists v c',
       snd (addMessageVersion now id text sent telegramId m) = Some v /\
       version v = currentVersion c + 1 /\
       getContext id (fst (addMessageVersion now id text sent telegramId m)) =
         Some c' /\
       currentVersion c' = version v /\
       messageVersions c' = messageVersions c ++ [v]) /\
  (forall call id c,
     keepsSessions call = true -> getContext id m = Some c ->
     exists c',
       getContext id (perform m call) = Some c' /\
       ((messageVersions c' = messageVersions c /\
         currentVersion c' = currentVersion c) \/
        (exists v,
           messageVersions c' = messageVersions c ++ [v] /\
           version v = currentVersion c + 1 /\
           currentVersion c' = version v))).
Proof.
  intros Hreach. destruct (reachable_consistent cfg m Hreach) as [_ Hgap].
  split; [|split].
  - intros id c Hc. by apply (Hgap id).
  - intros now id text sent tg c Hc.
    destruct (addMessageVersion_maps now id text sent tg m c Hc)
      as (v & c' & Hv & Hnum & _ & Hctx & Hcur & Hvs & _).
    exists v, c'. unfold getContext. rewrite Hctx, lookup_insert_eq. done.
  - intros call id c Hkeep Hc. by apply perform_versions.
Qed.

(** A store with one session, then three versions appended between an error
    and a retry. *)
Definition sampleId : string := generateSessionId 1000 "k3j2" 7 42.

Definition oneSession : t :=
  perform (make defaultCleanupConfig) (CreateSession 1000 "k3j2" 7 42 ∅).

Definition sampleCalls : list Call :=
  [AddMessageVersion 1001 sampleId "Hello" true (Some 5);
   RecordError 1002 sampleId {| ErrorRecovery.message := "timeout" |};
   AddMessageVersion 1003 sampleId "Hello, world" true (Some 5);
   RecordRetry 1004 sampleId;
   AddMessageVersion 1005 sampleId "Hello, world!" false None].

Lemma store_run_reachable cfg calls : forall m,
  reachable cfg m -> reachable cfg (run m calls).
Proof.
  induction calls as [|c calls IH]; intros m H; [done|].
  simpl. apply IH. by constructor.
Qed.

Lemma oneSession_reachable : reachable defaultCleanupConfig oneSession.
Proof. constructor. constructor. Qed.

Lemma version_numbers_witness :
  exists c,
    getContext sampleId (run oneSession sampleCalls) = Some c /\
    version <$> messageVersions c = [1; 2; 3] /\ currentVersion c = 3.
Proof.
  destruct (getContext sampleId (run oneSession sampleCalls)) as [c|] eqn:E;
    [|by vm_compute in E].
  exists c. split; [reflexivity|].
  destruct (proj1 (version_numbers_gapless_append_only defaultCleanupConfig
                     (run oneSession sampleCalls)
                     (store_run_reachable _ sampleCalls _ oneSession_reachable))
                  sampleId c E) as [Hnum Hcur].
  assert (Hlen : length (messageVersions c) = 3%nat).
  { vm_compute in E. by injection E as <-. }
  rewrite Hnum, Hcur, Hlen. clear. split; reflexivity.
Defined.

(** *** Errors *)

(** C10. [recordError] on an existing session adds one to the error count of
    its context and sets the last-activity time of the session to the clock;
    when the error count after the increment exceeds 3 the status becomes
    [ERROR], otherwise the status stays what it was. Nothing else of the
    session changes. *)
Theorem recordError_counts_and_flags
  (cfg : CleanupConfig) (m : t) (now : Z) (id : string) (error : Error)
  (s : StreamSession) :
  reachable cfg m -> getSession id m = Some s ->
  exists c c' s',
    getContext id m = Some c /\
    snd (recordError now id error m) = true /\
    getContext id (fst (recordError now id error m)) = Some c' /\
    errorCount c' = errorCount c + 1 /\
    getSession id (fst (recordError now id error m)) = Some s' /\
    lastActivity s' = now /\
    (3 < errorCount c' -> status s' = ERROR) /\
    (errorCount c' <= 3 -> status s' = status s) /\
    startTime s' = startTime s /\ messageId s' = messageId s.
Proof.
  intros Hreach Hs. unfold getSession, getContext in *.
  pose proof (reachable_consistent cfg m Hreach) as Hcons.
  destruct (consistent_context_of_session m id s Hcons Hs) as [c Hc].
  destruct (recordError_maps now id error m c Hc)
    as (Hok & c' & Hctx & _ & _ & Hcount & Hss).
  rewrite Hs in Hss.
  eexists c, c', _. rewrite Hctx, Hss, !lookup_insert_eq, Hcount.
  repeat split; try done.
  - by destruct (3 <? errorCount c + 1).
  - intros H. apply Z.ltb_lt in H. by rewrite H.
  - intros H. apply Z.ltb_ge in H. by rewrite H.
  - by destruct (3 <? errorCount c + 1).
  - by destruct (3 <? errorCount c + 1).
Qed.

Lemma recordError_witness :
  exists c' s',
    getContext sampleId
      (fst (recordError 2000 sampleId {| ErrorRecovery.message := "timeout" |}
              oneSession)) = Some c' /\
    errorCount c' = 1 /\
    getSession sampleId
      (fst (recordError 2000 sampleId {| ErrorRecovery.message := "timeout" |}
              oneSession)) = Some s' /\
    lastActivity s' = 2000 /\ status s' = INITIALIZING.
Proof.
  destruct (getSession sampleId oneSession) as [s|] eqn:Es;
    [|by vm_compute in Es].
  destruct (recordError_counts_and_flags defaultCleanupConfig oneSession 2000
              sampleId {| ErrorRecovery.message := "timeout" |} s
              oneSession_reachable Es)
    as (c & c' & s' & Hc & _ & Hc' & Hcount & Hs' & Hact & _ & Hkeep & _).
  exists c', s'.
  assert (Hc0 : errorCount c = 0).
  { vm_compute in Hc. by injection Hc as <-. }
  assert (Hs0 : status s = INITIALIZING).
  { vm_compute in Es. by injection Es as <-. }
  split; [exact Hc'|]. split; [rewrite Hcount, Hc0; reflexivity|].
  split; [exact Hs'|]. split; [exact Hact|].
  rewrite Hkeep; [exact Hs0|]. rewrite Hcount, Hc0. clear. lia.
Defined.

(** *** The sweep *)

(** Whether the loop over [entries] removes the session [id]. *)
Definition doomed (cfg : CleanupConfig) (now : Z)
  (entries : list (string * StreamSession)) (id : string) : bool :=
  existsb (fun e => String.eqb (fst e) id && shouldCleanup cfg now (snd e))
          entries.

Lemma visit_fold now entries : forall m n,
  NoDup (fst <$> entries) ->
  (forall id s, (id, s) ∈ entries -> sessions m !! id = Some s) ->
  cleanupConfig (fst (fold_left (visit now) entries (m, n))) =
    cleanupConfig m /\
  (forall id,
     sessions (fst (fold_left (visit now) entries (m, n))) !! id =
     if doomed (cleanupConfig m) now entries id then None
     else sessions m !! id) /\
  (forall id,
     contexts (fst (fold_left (visit now) entries (m, n))) !! id =
     if doomed (cleanupConfig m) now entries id then None
     else contexts m !! id) /\
  Z.of_nat (size (sessions (fst (fold_left (visit now) entries (m, n))))) +
    (snd (fold_left (visit now) entries (m, n)) - n) =
  Z.of_nat (size (sessions m)).
Proof.
  induction entries as [|[i s] entries IH]; intros m n Hnd Hin.
  - simpl. repeat split; lia.
  - apply NoDup_cons in Hnd as [Hi Hnd]. simpl fold_left.
    assert (His : sessions m !! i = Some s) by (apply Hin; left).
    destruct (cleanupSession_maps i m) as (Hs & Hc & Hcfg).
    rewrite His in Hc.
    unfold visit at 2 4 6 8 10. simpl fst. simpl snd.
    unfold doomed. simpl existsb. fold (doomed (cleanupConfig m) now entries).
    destruct (shouldCleanup (cleanupConfig m) now s) eqn:Eclean.
    + destruct (IH (fst (cleanupSession i m)) (n + 1) Hnd)
        as (Hcfg' & Hs' & Hc' & Hn').
      { intros id s' Hel. rewrite Hs, lookup_delete_ne; [apply Hin; by right|].
        intros ->. apply Hi. apply list_elem_of_fmap. by exists (id, s'). }
      rewrite Hcfg in *. split; [done|]. split; [|split].
      * intros id. rewrite Hs', Hs, andb_true_r.
        destruct (String.eqb_spec i id) as [->|Hne]; simpl.
        -- rewrite lookup_delete_eq. by destruct (doomed _ _ _ _).
        -- by rewrite lookup_delete_ne.
      * intros id. rewrite Hc', Hc, andb_true_r.
        destruct (String.eqb_spec i id) as [->|Hne]; simpl.
        -- rewrite lookup_delete_eq. by destruct (doomed _ _ _ _).
        -- by rewrite lookup_delete_ne.
      * rewrite Hs in Hn'.
        rewrite (map_size_delete_Some i (sessions m)) in Hn' by eauto.
        assert (size (sessions m) <> 0%nat).
        { apply (map_size_ne_0_lookup_2 _ i). eauto. }
        lia.
    + destruct (IH m n Hnd) as (Hcfg' & Hs' & Hc' & Hn').
      { intros id s' Hel. apply Hin. by right. }
      split; [done|]. split; [|split]; [| |done].
      * intros id. by rewrite Hs', andb_false_r.
      * intros id. by rewrite Hc', andb_false_r.
Qed.

Lemma doomed_map_to_list cfg now (ss : gmap string StreamSession) id :
  doomed cfg now (map_to_list ss) id =
  match ss !! id with
  | Some s => shouldCleanup cfg now s
  | None => false
  end.
Proof.
  unfold doomed.
  destruct (existsb _ _) eqn:E.
  - apply existsb_exists in E as ([i s] & Hin & Htest). simpl in Htest.
    apply andb_prop in Htest as [Hi Hs]. apply String.eqb_eq in Hi as ->.
    apply list_elem_of_In, elem_of_map_to_list in Hin. by rewrite Hin.
  - destruct (ss !! id) as [s|] eqn:Es; [|done].
    destruct (shouldCleanup cfg now s) eqn:Hs; [|done].
    assert (H : existsb
                  (fun e => String.eqb (fst e) id &&
                            shouldCleanup cfg now (snd e))
                  (map_to_list ss) = true); [|congruence].
    apply existsb_exists. exists (id, s). split.
    + by apply list_elem_of_In, elem_of_map_to_list.
    + simpl. by rewrite String.eqb_refl, Hs.
Qed.

Lemma performCleanup_maps now m :
  cleanupConfig (fst (performCleanup now m)) = cleanupConfig m /\
  (forall id,
     sessions (fst (performCleanup now m)) !! id =
     match sessions m !! id with
     | Some s => if shouldCleanup (cleanupConfig m) now s then None else Some s
     | None => None
     end) /\
  (forall id,
     contexts (fst (performCleanup now m)) !! id =
     match sessions m !! id with
     | Some s =>
         if shouldCleanup (cleanupConfig m) now s then None
         else contexts m !! id
     | None => contexts m !! id
     end) /\
  snd (performCleanup now m) =
    Z.of_nat (size (sessions m)) -
    Z.of_nat (size (sessions (fst (performCleanup now m)))).
Proof.
  unfold performCleanup.
  destruct (visit_fold now (map_to_list (sessions m)) m 0)
    as (Hcfg & Hs & Hc & Hn).
  { apply NoDup_fst_map_to_list. }
  { intros id s. apply elem_of_map_to_list. }
  split; [done|]. split; [|split].
  - intros id. rewrite Hs, doomed_map_to_list.
    by destruct (sessions m !! id).
  - intros id. rewrite Hc, doomed_map_to_list.
    by destruct (sessions m !! id).
  - lia.
Qed.

Lemma shouldCleanup_true cfg now s :
  shouldCleanup cfg now s = true <->
  maxSessionAge cfg < now - startTime s \/
  maxInactiveDuration cfg < now - lastActivity s \/
  status s = COMPLETED \/ status s = ERROR.
Proof.
  unfold shouldCleanup.
  rewrite !orb_true_iff, !Z.ltb_lt.
  assert (Hc : SessionStatus_eqb (status s) COMPLETED = true <->
               status s = COMPLETED) by (by destruct (status s)).
  assert (He : SessionStatus_eqb (status s) ERROR = true <->
               status s = ERROR) by (by destruct (status s)).
  rewrite Hc, He. tauto.
Qed.

Lemma performCleanup_counts_removed now m id s :
  sessions m !! id = Some s -> shouldCleanup (cleanupConfig m) now s = true ->
  1 <= snd (performCleanup now m).
Proof.
  intros Hs Hclean.
  destruct (performCleanup_maps now m) as (_ & Hss & _ & ->).
  assert (H : sessions (fst (performCleanup now m)) ⊂ sessions m).
  { apply map_subset_alt. split.
    - apply map_subseteq_spec. intros i x. rewrite Hss.
      destruct (sessions m !! i) as [s'|]; [|done].
      by destruct (shouldCleanup _ _ s').
    - exists id. rewrite Hss, Hs, Hclean. eauto. }
  apply map_subset_size in H. lia.
Qed.

(** C6, as the code has it. A sweep at the clock value [now] removes the
    sessions, with their contexts, whose age exceeds the maximal age, whose
    inactivity exceeds the maximal inactive duration, or whose status is
    [COMPLETED] or [ERROR]; it keeps every other session and context as
    they are, and returns the number of sessions removed. A session created
    at [T] in a store whose maximal inactive duration is 5000 ms, and left
    alone, is removed by the sweep at [T + 6000]: [getSession] and
    [getContext] find nothing afterwards. *)
Theorem performCleanup_removes_expired_and_finished (m : t) (now : Z) :
  (forall id,
     getSession id (fst (performCleanup now m)) =
     match getSession id m with
     | Some s => if shouldCleanup (cleanupConfig m) now s then None else Some s
     | None => None
     end) /\
  (forall id,
     getContext id (fst (performCleanup now m)) =
     match getSession id m with
     | Some s =>
         if shouldCleanup (cleanupConfig m) now s then None
         else getContext id m
     | None => getContext id m
     end) /\
  snd (performCleanup now m) =
    Z.of_nat (size (sessions m)) -
    Z.of_nat (size (sessions (fst (performCleanup now m)))) /\
  (forall s,
     shouldCleanup (cleanupConfig m) now s = true <->
     maxSessionAge (cleanupConfig m) < now - startTime s \/
     maxInactiveDuration (cleanupConfig m) < now - lastActivity s \/
     status s = COMPLETED \/ status s = ERROR) /\
  (forall T random chat user meta,
     maxInactiveDuration (cleanupConfig m) = 5000 ->
     getSession
       (sessionId (snd (createSession T random chat user meta m)))
       (fst (performCleanup (T + 6000)
               (fst (createSession T random chat user meta m)))) = None /\
     getContext
       (sessionId (snd (createSession T random chat user meta m)))
       (fst (performCleanup (T + 6000)
               (fst (createSession T random chat user meta m)))) = None /\
     1 <= snd (performCleanup (T + 6000)
                 (fst (createSession T random chat user meta m)))).
Proof.
  destruct (performCleanup_maps now m) as (_ & Hs & Hc & Hn).
  split; [exact Hs|]. split; [exact Hc|]. split; [exact Hn|].
  split; [intros s; apply shouldCleanup_true|].
  intros T random chat user meta Hmax.
  destruct (createSession_maps T random chat user meta m)
    as (m0 & _ & Hss & _ & Hcfg).
  rewrite createSession_session. cbn [sessionId].
  set (created := fst (createSession T random chat user meta m)) in *.
  set (id := generateSessionId T random chat user) in *.
  assert (Hid : sessions created !! id =
                Some (snd (createSession T random chat user meta m))).
  { by rewrite Hss, lookup_insert_eq. }
  assert (Hclean : shouldCleanup (cleanupConfig created) (T + 6000)
                     (snd (createSession T random chat user meta m)) = true).
  { apply shouldCleanup_true. right. left.
    rewrite Hcfg, Hmax, createSession_session. simpl. lia. }
  destruct (performCleanup_maps (T + 6000) created) as (_ & Hs' & Hc' & _).
  unfold getSession, getContext.
  rewrite Hs', Hc', Hid, Hclean. split; [done|]. split; [done|].
  by apply (performCleanup_counts_removed _ _ id _ Hid).
Qed.

Lemma performCleanup_witness :
  getSession sampleId (fst (performCleanup 7000
     (fst (createSession 1000 "k3j2" 7 42 ∅
             (make {| maxSessionAge := 1800000; maxInactiveDuration := 5000;
                      maxSessionsPerUser := 5; enableAutoCleanup := true;
                      cleanupInterval := 60000 |}))))) = None.
Proof.
  exact (proj1 (proj2 (proj2 (proj2 (proj2
    (performCleanup_removes_expired_and_finished
       (make {| maxSessionAge := 1800000; maxInactiveDuration := 5000;
                maxSessionsPerUser := 5; enableAutoCleanup := true;
                cleanupInterval := 60000 |}) 0)))) 1000 "k3j2" 7 42 ∅
    eq_refl)).
Defined.

(** A session that was given the status [TIMEOUT] at its creation. *)
Definition timedOut : t :=
  run (make defaultCleanupConfig)
    [CreateSession 1000 "k3j2" 7 42 ∅;
     UpdateSessionStatus 1000 sampleId TIMEOUT].

(** C6 as worded fails on it: a second later the session is neither old nor
    idle, its status is [TIMEOUT], and the sweep removes nothing. *)
Lemma timeout_status_is_not_swept :
  status <$> getSession sampleId timedOut = Some TIMEOUT /\
  snd (performCleanup 2000 timedOut) = 0 /\
  status <$> getSession sampleId (fst (performCleanup 2000 timedOut)) =
    Some TIMEOUT /\
  is_Some (getContext sampleId (fst (performCleanup 2000 timedOut))).
Proof.
  split; [by vm_compute|]. split; [by vm_compute|]. split; [by vm_compute|].
  vm_compute. eauto.
Qed.

(** *** Session ids *)

Definition underscore : ascii := "_"%char.

(** Whether a text holds an underscore. *)
Fixpoint hasUnderscore (s : string) : bool :=
  match s with
  | EmptyString => false
  | String c s' => Ascii.eqb c underscore || hasUnderscore s'
  end.

Lemma split_at_underscore (a a' rest rest' : string) :
  hasUnderscore a = false -> hasUnderscore a' = false ->
  (a +:+ String underscore rest)%string =
    (a' +:+ String underscore rest')%string ->
  a = a' /\ rest = rest'.
Proof.
  revert a'. induction a as [|c a IH]; intros [|c' a'] Ha Ha' E; simpl in *.
  - by injection E as ->.
  - injection E as <- _. by rewrite Ascii.eqb_refl in Ha'.
  - injection E as -> _. by rewrite Ascii.eqb_refl in Ha.
  - injection E as -> E.
    apply orb_false_iff in Ha as [_ Ha]. apply orb_false_iff in Ha' as [_ Ha'].
    destruct (IH a' Ha Ha' E) as [-> ->]. done.
Qed.

Lemma pretty_N_go_hasUnderscore (x : N) : forall s,
  hasUnderscore s = false -> hasUnderscore (pretty_N_go x s) = false.
Proof.
  induction (N.lt_wf_0 x) as [x _ IH]; intros s Hs.
  destruct (decide (x = 0)%N) as [->|Hx]; [by rewrite pretty_N_go_0|].
  rewrite pretty_N_go_step by lia. apply IH.
  - apply N.div_lt; lia.
  - simpl. rewrite Hs. unfold pretty_N_char. by repeat case_match.
Qed.

Lemma pretty_Z_hasUnderscore (z : Z) : hasUnderscore (pretty z) = false.
Proof.
  assert (Hp : forall p : positive, hasUnderscore (pretty p) = false).
  { intros p. unfold pretty, pretty_positive, pretty, pretty_N.
    case_decide; [done|]. by apply pretty_N_go_hasUnderscore. }
  destruct z as [|p|p]; [done| apply Hp |].
  unfold pretty, pretty_Z. simpl. apply Hp.
Qed.

(** The session id tells the chat and the user it was made for. *)
Lemma generateSessionId_inj now random chat user now' random' chat' user' :
  generateSessionId now random chat user =
    generateSessionId now' random' chat' user' ->
  chat = chat' /\ user = user'.
Proof.
  unfold generateSessionId. intros E.
  change ("stream_" +:+ ?x)%string with
    (String "s" (String "t" (String "r" (String "e" (String "a"
       (String "m" (String "_" x))))))) in E.
  injection E as E.
  change ("_" +:+ ?x)%string with (String underscore x) in E.
  apply split_at_underscore in E as [Hchat E];
    [|apply pretty_Z_hasUnderscore..].
  apply split_at_underscore in E as [Huser _];
    [|apply pretty_Z_hasUnderscore..].
  split; by apply (inj pretty).
Qed.

Lemma generateSessionId_not_empty now random chat user :
  String.eqb (generateSessionId now random chat user) "" = false.
Proof. done. Qed.

(** *** The index of sessions by user *)

(** What a call never rewrites in a session. *)
Definition sameIdentity (s s' : StreamSession) : Prop :=
  sessionId s' = sessionId s /\ chatId s' = chatId s /\
  userId s' = userId s /\ startTime s' = startTime s.

(** The calls that keep the sessions leave the index alone and rewrite at
    most one session, whose identity they keep. *)
Lemma perform_keeps m c :
  keepsSessions c = true ->
  userSessions (perform m c) = userSessions m /\
  cleanupConfig (perform m c) = cleanupConfig m /\
  (sessions (perform m c) = sessions m \/
   exists id s s',
     sessions m !! id = Some s /\
     sessions (perform m c) = <[id := s']> (sessions m) /\
     sameIdentity s s').
Proof.
  destruct c as [now random chat user meta|now id st|now id text sent tg
                |now id|now id error|now id|id key value|id|now|];
    try discriminate; intros _; unfold perform.
  - unfold updateSessionStatus.
    destruct (sessions m !! id) as [s|] eqn:E; simpl; [|by auto].
    destruct (_ || _); simpl; (split; [done|]); (split; [done|]);
      right; by eexists id, s, _.
  - unfold addMessageVersion.
    destruct (contexts m !! id) as [c|]; simpl; [|by auto].
    destruct (sessions m !! id) as [s|] eqn:E; simpl; [|by auto].
    split; [done|]. split; [done|]. right. eexists id, s, _.
    split; [done|]. split; [done|]. by destruct (truthy tg).
  - unfold recordChunk, touch.
    destruct (contexts m !! id) as [c|]; simpl; [|by auto].
    destruct (sessions m !! id) as [s|] eqn:E; simpl; [|by auto].
    split; [done|]. split; [done|]. right. by eexists id, s, _.
  - unfold recordError.
    destruct (contexts m !! id) as [c|]; simpl; [|by auto].
    unfold updateErrorRate. simpl.
    destruct (sessions m !! id) as [s|] eqn:E; simpl.
    + destruct (0 <? _); simpl; (split; [done|]); (split; [done|]);
        right; eexists id, s, _; (split; [done|]); (split; [done|]);
        by destruct (3 <? _).
    + destruct (0 <? _); simpl; by auto.
  - unfold recordRetry, touch.
    destruct (contexts m !! id) as [c|]; simpl; [|by auto].
    destruct (sessions m !! id) as [s|] eqn:E; simpl; [|by auto].
    split; [done|]. split; [done|]. right. by eexists id, s, _.
  - unfold setContextData.
    destruct (contexts m !! id) as [c|]; simpl; by auto.
Qed.

(** Every session is stored under its own id, which was made for its chat
    and its user, and is listed under its user; the list of a user is not
    empty, has no duplicate, and names sessions of that user. *)
Definition indexed (m : t) : Prop :=
  (forall id s, sessions m !! id = Some s ->
     sessionId s = id /\
     (exists now random,
        id = generateSessionId now random (chatId s) (userId s)) /\
     exists ids, userSessions m !! userId s = Some ids /\ id ∈ ids) /\
  (forall u ids, userSessions m !! u = Some ids ->
     ids <> [] /\ NoDup ids /\
     forall id, id ∈ ids ->
       exists s, sessions m !! id = Some s /\ userId s = u).

Lemma indexed_same m m' :
  sessions m' = sessions m -> userSessions m' = userSessions m ->
  indexed m -> indexed m'.
Proof. unfold indexed. by intros -> ->. Qed.

Lemma indexed_rewrite m m' id s s' :
  sessions m !! id = Some s ->
  sessions m' = <[id := s']> (sessions m) ->
  userSessions m' = userSessions m -> sameIdentity s s' ->
  indexed m -> indexed m'.
Proof.
  intros Hs Hss Hus (Hid & Hchat & Huser & _) [H1 H2].
  unfold indexed. rewrite Hss, Hus. split.
  - intros i x. destruct (decide (id = i)) as [<-|Hne].
    + rewrite lookup_insert_eq. intros [= <-].
      rewrite Hid, Hchat, Huser. by apply H1.
    + rewrite lookup_insert_ne by done. apply H1.
  - intros u ids Hu. destruct (H2 u ids Hu) as (Hne & Hnd & Hall).
    split; [done|]. split; [done|]. intros i Hi.
    destruct (Hall i Hi) as (x & Hx & Hux).
    destruct (decide (id = i)) as [<-|Hneq].
    + rewrite lookup_insert_eq. exists s'. split; [done|].
      rewrite Huser. congruence.
    + rewrite lookup_insert_ne by done. by exists x.
Qed.

(** The ids a [Set.delete(id)] leaves. *)
Definition without (id : string) (ids : list string) : list string :=
  List.filter (fun i => negb (String.eqb i id)) ids.

Lemma elem_of_without id i ids : i ∈ without id ids <-> i ∈ ids /\ i <> id.
Proof.
  unfold without. rewrite !list_elem_of_In, filter_In, negb_true_iff.
  by rewrite String.eqb_neq.
Qed.

Lemma length_without id ids :
  NoDup ids -> id ∈ ids -> S (length (without id ids)) = length ids.
Proof.
  unfold without. induction 1 as [|i ids Hi Hnd IH]; [by inversion 1|].
  intros Hin. simpl. destruct (String.eqb i id) eqn:E; simpl.
  - apply String.eqb_eq in E as ->. f_equal.
    clear IH Hin. induction ids as [|j ids IH]; [done|]. simpl.
    apply not_elem_of_cons in Hi as [Hne Hi].
    inversion Hnd; subst.
    destruct (String.eqb j id) eqn:E; simpl.
    + apply String.eqb_eq in E. by subst.
    + f_equal. by apply IH.
  - apply String.eqb_neq in E. f_equal. apply IH.
    apply elem_of_cons in Hin as [->|Hin]; done.
Qed.

Lemma cleanupSession_index id m s :
  sessions m !! id = Some s ->
  snd (cleanupSession id m) = true /\
  sessions (fst (cleanupSession id m)) = delete id (sessions m) /\
  contexts (fst (cleanupSession id m)) = delete id (contexts m) /\
  userSessions (fst (cleanupSession id m)) =
    match userSessions m !! userId s with
    | Some ids =>
        if (length (without id ids) =? 0)%nat
        then delete (userId s) (userSessions m)
        else <[userId s := without id ids]> (userSessions m)
    | None => userSessions m
    end.
Proof.
  intros Hs. unfold cleanupSession. rewrite Hs. simpl.
  destruct (userSessions m !! userId s) as [ids|]; simpl; [|done].
  fold (without id ids). by destruct (_ =? _)%nat.
Qed.

Lemma cleanupSession_missing id m :
  sessions m !! id = None -> cleanupSession id m = (m, false).
Proof. intros Hs. unfold cleanupSession. by rewrite Hs. Qed.

Lemma cleanupSession_indexed id m :
  indexed m -> indexed (fst (cleanupSession id m)).
Proof.
  intros [H1 H2].
  destruct (sessions m !! id) as [s|] eqn:Hs;
    [|by rewrite cleanupSession_missing].
  destruct (cleanupSession_index id m s Hs) as (_ & Hss & _ & Hus).
  destruct (H1 id s Hs) as (_ & _ & ids & Hids & Hin).
  rewrite Hids in Hus.
  destruct (H2 _ ids Hids) as (_ & Hnd & Hall).
  unfold indexed. rewrite Hss, Hus. split.
  - intros i x [Hne Hx]%lookup_delete_Some.
    destruct (H1 i x Hx) as (Hid & Hgen & ids' & Hids' & Hin').
    split; [done|]. split; [done|].
    destruct (decide (userId x = userId s)) as [E|Hu].
    + rewrite E in Hids'. rewrite Hids in Hids'. injection Hids' as <-.
      assert (Hrem : i ∈ without id ids) by (by apply elem_of_without).
      destruct (length (without id ids) =? 0)%nat eqn:El.
      * apply Nat.eqb_eq in El.
        destruct (without id ids); [by inversion Hrem | done].
      * exists (without id ids). rewrite E, lookup_insert_eq. done.
    + exists ids'. split; [|done].
      destruct (_ =? _)%nat.
      * by rewrite lookup_delete_ne.
      * by rewrite lookup_insert_ne.
  - intros u ids' Hu.
    destruct (decide (u = userId s)) as [->|Hne].
    + destruct (length (without id ids) =? 0)%nat eqn:El.
      * by rewrite lookup_delete_eq in Hu.
      * rewrite lookup_insert_eq in Hu. injection Hu as <-.
        apply Nat.eqb_neq in El. split.
        { intros E. by rewrite E in El. }
        split; [by apply NoDup_ListNoDup, List.NoDup_filter, NoDup_ListNoDup|].
        intros i [Hi Hneq]%elem_of_without.
        destruct (Hall i Hi) as (x & Hx & Hux). exists x.
        by rewrite lookup_delete_ne.
    + assert (Hold : userSessions m !! u = Some ids').
      { destruct (_ =? _)%nat.
        - by rewrite lookup_delete_ne in Hu.
        - by rewrite lookup_insert_ne in Hu. }
      destruct (H2 u ids' Hold) as (Hne' & Hnd' & Hall').
      split; [done|]. split; [done|]. intros i Hi.
      destruct (Hall' i Hi) as (x & Hx & Hux). exists x. split; [|done].
      rewrite lookup_delete_ne; [done|]. intros <-. congruence.
Qed.

Lemma enforceUserSessionLimits_indexed user m :
  indexed m -> indexed (enforceUserSessionLimits user m).
Proof.
  intros H.
  destruct (enforceUserSessionLimits_maps user m) as (_ & _ & [->|[id ->]]);
    [done | by apply cleanupSession_indexed].
Qed.

Lemma createSession_index now random chat user meta m :
  let m1 :=
    enforceUserSessionLimits user
      (if enableAutoCleanup (cleanupConfig m) && negb (cleanupTimer m)
       then withCleanupTimer true m else m) in
  let id := generateSessionId now random chat user in
  let ids := default [] (userSessions m1 !! user) in
  sessions (fst (createSession now random chat user meta m)) =
    <[id := snd (createSession now random chat user meta m)]> (sessions m1) /\
  userSessions (fst (createSession now random chat user meta m)) =
    <[user := if bool_decide (id ∈ ids) then ids else ids ++ [id]]>
      (userSessions m1).
Proof. done. Qed.

Lemma createSession_indexed now random chat user meta m :
  indexed m -> indexed (fst (createSession now random chat user meta m)).
Proof.
  intros Hm.
  destruct (createSession_index now random chat user meta m) as [Hss Hus].
  cbv zeta in Hss, Hus.
  set (m1 := enforceUserSessionLimits user
               (if enableAutoCleanup (cleanupConfig m) && negb (cleanupTimer m)
                then withCleanupTimer true m else m)) in *.
  assert (Hm1 : indexed m1).
  { apply enforceUserSessionLimits_indexed.
    destruct (_ && _); [|done]. by apply (indexed_same m). }
  destruct Hm1 as [H1 H2].
  set (id := generateSessionId now random chat user) in *.
  set (ids := default [] (userSessions m1 !! user)) in *.
  set (ids' := if bool_decide (id ∈ ids) then ids else ids ++ [id]) in *.
  assert (Hin : id ∈ ids').
  { unfold ids'. case_bool_decide; [done|]. apply elem_of_app. right.
    by apply list_elem_of_singleton. }
  assert (Hsub : forall i, i ∈ ids -> i ∈ ids').
  { intros i Hi. unfold ids'. case_bool_decide; [done|].
    apply elem_of_app. by left. }
  unfold indexed. rewrite Hss, Hus, createSession_session. split.
  - intros i x. destruct (decide (id = i)) as [<-|Hne].
    + rewrite lookup_insert_eq. intros [= <-]. simpl.
      split; [done|]. split; [by exists now, random|].
      exists ids'. by rewrite lookup_insert_eq.
    + rewrite lookup_insert_ne by done. intros Hx.
      destruct (H1 i x Hx) as (Hid & Hgen & l & Hl & Hil).
      split; [done|]. split; [done|].
      destruct (decide (user = userId x)) as [E|Hu].
      * exists ids'. rewrite <- E, lookup_insert_eq. split; [done|].
        apply Hsub. unfold ids. rewrite E, Hl. done.
      * exists l. by rewrite lookup_insert_ne.
  - intros u l. destruct (decide (user = u)) as [<-|Hu].
    + rewrite lookup_insert_eq. intros [= <-].
      split; [intros E; rewrite E in Hin; by inversion Hin|].
      assert (Hnd : NoDup ids).
      { unfold ids. destruct (userSessions m1 !! user) as [l|] eqn:El;
          [by destruct (H2 _ _ El) as (_ & ? & _) | constructor]. }
      split.
      * unfold ids'. case_bool_decide; [done|].
        apply NoDup_app. split; [done|]. split; [|apply NoDup_singleton].
        intros i Hi ->%list_elem_of_singleton. done.
      * intros i Hi. destruct (decide (id = i)) as [<-|Hne].
        { rewrite lookup_insert_eq. by eexists. }
        rewrite lookup_insert_ne by done.
        assert (Hold : i ∈ ids).
        { unfold ids' in Hi. case_bool_decide; [done|].
          apply elem_of_app in Hi as [Hi|Hi%list_elem_of_singleton]; done. }
        unfold ids in Hold.
        destruct (userSessions m1 !! user) as [l|] eqn:El;
          [|by inversion Hold].
        by destruct (H2 _ _ El) as (_ & _ & Hall); apply Hall.
    + rewrite lookup_insert_ne by done. intros Hl.
      destruct (H2 u l Hl) as (Hne & Hnd & Hall).
      split; [done|]. split; [done|]. intros i Hi.
      destruct (Hall i Hi) as (x & Hx & Hux).
      exists x. split; [|done].
      rewrite lookup_insert_ne; [done|]. intros <-.
      destruct (H1 _ x Hx) as (_ & (now' & random' & Hgen) & _).
      apply generateSessionId_inj in Hgen as [_ E]. congruence.
Qed.

Lemma fold_cleanup_indexed {A} (f : t * Z -> A -> t * Z) (l : list A) :
  (forall acc a, indexed (fst acc) -> indexed (fst (f acc a))) ->
  forall acc, indexed (fst acc) -> indexed (fst (fold_left f l acc)).
Proof.
  intros Hf. induction l as [|a l IH]; intros acc Hacc; [done|].
  simpl. apply IH. by apply Hf.
Qed.

Lemma dispose_indexed m : indexed m -> indexed (dispose m).
Proof.
  intros H. unfold dispose.
  assert (Hw : indexed (withCleanupTimer false m)) by done.
  revert Hw. generalize (withCleanupTimer false m).
  induction (fst <$> map_to_list (sessions m)) as [|id ids IH];
    intros m0 Hm0; [done|].
  simpl. apply IH. by apply cleanupSession_indexed.
Qed.

Lemma perform_indexed m c : indexed m -> indexed (perform m c).
Proof.
  intros Hm. destruct (keepsSessions c) eqn:Ek.
  - destruct (perform_keeps m c Ek) as (Hus & _ & [Hss|(id & s & s' & Hs & Hss & Hsame)]).
    + by apply (indexed_same m).
    + by apply (indexed_rewrite m _ id s s').
  - destruct c; try discriminate; unfold perform.
    + by apply createSession_indexed.
    + by apply cleanupSession_indexed.
    + unfold performCleanup. apply (fold_cleanup_indexed _ _); [|done].
      intros acc a Hacc. unfold visit. destruct (shouldCleanup _ _ _); [|done].
      simpl. by apply cleanupSession_indexed.
    + by apply dispose_indexed.
Qed.

Lemma reachable_indexed cfg m : reachable cfg m -> indexed m.
Proof.
  induction 1 as [|m c _ IH].
  - split; intros ? ?; simpl; by rewrite lookup_empty.
  - by apply perform_indexed.
Qed.

(** *** The limit of sessions per user *)

(** The sessions of a user. *)
Definition sessionsOf (user : Z) (m : t) : gmap string StreamSession :=
  filter (fun entry => userId (snd entry) = user) (sessions m).

Lemma oldestOf_snoc m ids id :
  oldestOf m (ids ++ [id]) =
    match sessions m !! id, oldestOf m ids with
    | Some session, None => Some (session, id)
    | Some session, Some (o, oid) =>
        if startTime session <? startTime o then Some (session, id)
        else Some (o, oid)
    | None, oldest => oldest
    end.
Proof.
  unfold oldestOf. rewrite fold_left_app. simpl.
  destruct (sessions m !! id); [|done].
  by destruct (fold_left _ ids None) as [[o oid]|].
Qed.

(** The loop of [enforceUserSessionLimits] finds a session that started
    first among those listed, if any of them exists. *)
Lemma oldestOf_spec m ids :
  match oldestOf m ids with
  | None => forall id, id ∈ ids -> sessions m !! id = None
  | Some (o, oid) =>
      oid ∈ ids /\ sessions m !! oid = Some o /\
      forall id s, id ∈ ids -> sessions m !! id = Some s ->
        startTime o <= startTime s
  end.
Proof.
  induction ids as [|id ids IH] using rev_ind.
  - simpl. intros id Hid. by inversion Hid.
  - rewrite oldestOf_snoc.
    assert (Hsnoc : forall i, i ∈ ids ++ [id] -> i ∈ ids \/ i = id).
    { intros i [Hi|Hi]%elem_of_app; [by left|].
      right. by apply list_elem_of_singleton. }
    destruct (sessions m !! id) as [x|] eqn:Ex;
      destruct (oldestOf m ids) as [[o oid]|].
    + destruct IH as (Hin & Ho & Hmin).
      destruct (startTime x <? startTime o) eqn:Elt.
      * apply Z.ltb_lt in Elt. split; [set_solver|]. split; [done|].
        intros i s Hi Hs. destruct (Hsnoc i Hi) as [Hold | ->].
        -- specialize (Hmin i s Hold Hs). lia.
        -- rewrite Ex in Hs. injection Hs as <-. lia.
      * apply Z.ltb_ge in Elt. split; [set_solver|]. split; [done|].
        intros i s Hi Hs. destruct (Hsnoc i Hi) as [Hold | ->].
        -- by apply (Hmin i s).
        -- rewrite Ex in Hs. by injection Hs as <-.
    + split; [set_solver|]. split; [done|].
      intros i s Hi Hs. destruct (Hsnoc i Hi) as [Hold | ->].
      * by rewrite (IH i Hold) in Hs.
      * rewrite Ex in Hs. injection Hs as <-. lia.
    + destruct IH as (Hin & Ho & Hmin).
      split; [set_solver|]. split; [done|].
      intros i s Hi Hs. destruct (Hsnoc i Hi) as [Hold | ->].
      * by apply (Hmin i s).
      * by rewrite Ex in Hs.
    + intros i Hi. destruct (Hsnoc i Hi) as [Hold | ->]; [by apply IH|done].
Qed.

(** Within the limit: no user is listed with more sessions than
    [maxSessionsPerUser], or than one if the limit is less. *)
Definition limited (cfg : CleanupConfig) (m : t) : Prop :=
  cleanupConfig m = cfg /\ indexed m /\
  forall u ids, userSessions m !! u = Some ids ->
    Z.of_nat (length ids) <= Z.max 1 (maxSessionsPerUser cfg).

Lemma length_without_le id ids : (length (without id ids) <= length ids)%nat.
Proof. apply List.filter_length_le. Qed.

Lemma cleanupSession_limited cfg id m :
  limited cfg m -> limited cfg (fst (cleanupSession id m)).
Proof.
  intros (Hcfg & Hidx & Hmax).
  split; [by destruct (cleanupSession_maps id m) as (_ & _ & ->)|].
  split; [by apply cleanupSession_indexed|].
  destruct (sessions m !! id) as [s|] eqn:Hs;
    [|by rewrite cleanupSession_missing].
  destruct (cleanupSession_index id m s Hs) as (_ & _ & _ & Hus).
  rewrite Hus. intros u l.
  destruct (userSessions m !! userId s) as [ids|] eqn:Hids; [|apply Hmax].
  pose proof (Hmax _ _ Hids) as Hb.
  pose proof (length_without_le id ids) as Hle.
  destruct (_ =? _)%nat.
  - intros [_ Hl]%lookup_delete_Some. by apply (Hmax u l).
  - destruct (decide (userId s = u)) as [<-|Hne].
    + rewrite lookup_insert_eq. intros [= <-]. lia.
    + rewrite lookup_insert_ne by done. apply Hmax.
Qed.

Lemma limited_same cfg m m' :
  sessions m' = sessions m -> userSessions m' = userSessions m ->
  cleanupConfig m' = cleanupConfig m -> limited cfg m -> limited cfg m'.
Proof.
  intros Hs Hu Hc (Hcfg & Hidx & Hmax). unfold limited.
  rewrite Hc, Hu. split; [done|]. split; [|done].
  by apply (indexed_same m).
Qed.

(** After [enforceUserSessionLimits(userId)] the user has room for one
    session more. *)
Lemma enforceUserSessionLimits_room cfg user m :
  limited cfg m ->
  limited cfg (enforceUserSessionLimits user m) /\
  Z.of_nat
    (length (default [] (userSessions (enforceUserSessionLimits user m)
                           !! user))) + 1 <=
  Z.max 1 (maxSessionsPerUser cfg).
Proof.
  intros Hm. pose proof Hm as (Hcfg & [H1 H2] & Hmax).
  unfold enforceUserSessionLimits.
  destruct (userSessions m !! user) as [l|] eqn:El; simpl.
  - destruct (H2 _ _ El) as (Hne & Hnd & Hall).
    rewrite Hcfg.
    destruct (Z.of_nat (length l) <? maxSessionsPerUser cfg) eqn:Elt.
    + apply Z.ltb_lt in Elt. rewrite El. simpl. split; [done|]. lia.
    + pose proof (oldestOf_spec m l) as Hspec.
      destruct (oldestOf m l) as [[o oid]|].
      * destruct Hspec as (Hin & Ho & _).
        destruct (H1 _ _ Ho) as (_ & (t & r & Hgen) & _).
        assert (Hnonempty : String.eqb oid "" = false).
        { rewrite Hgen. apply generateSessionId_not_empty. }
        rewrite Hnonempty.
        split; [by apply cleanupSession_limited|].
        destruct (Hall _ Hin) as (o' & Ho' & Huser).
        rewrite Ho in Ho'. injection Ho' as <-.
        destruct (cleanupSession_index oid m o Ho) as (_ & _ & _ & Hus).
        rewrite Hus, Huser, El.
        pose proof (length_without oid l Hnd Hin) as Hlen.
        pose proof (Hmax _ _ El) as Hb.
        destruct (length (without oid l) =? 0)%nat eqn:E0.
        -- rewrite lookup_delete_eq. simpl. lia.
        -- rewrite lookup_insert_eq. simpl. lia.
      * exfalso. destruct l as [|i l]; [done|].
        destruct (Hall i) as (s & Hs & _); [by left|].
        rewrite Hspec in Hs; [done | by left].
  - rewrite El. simpl. split; [done|]. lia.
Qed.

Lemma createSession_limited cfg now random chat user meta m :
  limited cfg m -> limited cfg (fst (createSession now random chat user meta m)).
Proof.
  intros Hm. pose proof Hm as (Hcfg & Hidx & Hmax).
  split.
  { by destruct (createSession_maps now random chat user meta m)
      as (_ & _ & _ & _ & ->). }
  split; [by apply createSession_indexed|].
  destruct (createSession_index now random chat user meta m) as [_ Hus].
  cbv zeta in Hus. rewrite Hus. clear Hus.
  set (m0 := if enableAutoCleanup (cleanupConfig m) && negb (cleanupTimer m)
             then withCleanupTimer true m else m).
  assert (Hm0 : limited cfg m0).
  { unfold m0. destruct (_ && _); [|done]. by apply (limited_same cfg m). }
  destruct (enforceUserSessionLimits_room cfg user m0 Hm0)
    as [(_ & _ & Hmax1) Hroom].
  set (m1 := enforceUserSessionLimits user m0) in *.
  set (ids := default [] (userSessions m1 !! user)) in *.
  intros u l. destruct (decide (user = u)) as [<-|Hne].
  - rewrite lookup_insert_eq. intros [= <-].
    case_bool_decide; [lia|]. rewrite length_app. simpl. lia.
  - rewrite lookup_insert_ne by done. apply Hmax1.
Qed.

Lemma dispose_limited cfg m : limited cfg m -> limited cfg (dispose m).
Proof.
  intros H. unfold dispose.
  assert (Hw : limited cfg (withCleanupTimer false m)) by done.
  revert Hw. generalize (withCleanupTimer false m).
  induction (fst <$> map_to_list (sessions m)) as [|id ids IH];
    intros m0 Hm0; [done|].
  simpl. apply IH. by apply cleanupSession_limited.
Qed.

Lemma performCleanup_limited cfg now m :
  limited cfg m -> limited cfg (fst (performCleanup now m)).
Proof.
  intros H. unfold performCleanup.
  assert (Hacc : limited cfg (fst (m, 0))) by done.
  revert Hacc. generalize (m, 0).
  induction (map_to_list (sessions m)) as [|a l IH]; intros acc Hacc; [done|].
  simpl. apply IH. unfold visit. destruct (shouldCleanup _ _ _); [|done].
  simpl. by apply cleanupSession_limited.
Qed.

Lemma perform_limited cfg m c : limited cfg m -> limited cfg (perform m c).
Proof.
  intros Hm. destruct (keepsSessions c) eqn:Ek.
  - destruct (perform_keeps m c Ek) as (Hus & Hcfg & Hss).
    pose proof Hm as (Hc & Hidx & Hmax).
    split; [congruence|]. split; [by apply perform_indexed|].
    by rewrite Hus.
  - destruct c; try discriminate; unfold perform.
    + by apply createSession_limited.
    + by apply cleanupSession_limited.
    + by apply performCleanup_limited.
    + by apply dispose_limited.
Qed.

Lemma reachable_limited cfg m : reachable cfg m -> limited cfg m.
Proof.
  induction 1 as [|m c _ IH].
  - split; [done|]. split.
    + split; intros ? ?; simpl; by rewrite lookup_empty.
    + intros u ids. simpl. by rewrite lookup_empty.
  - by apply perform_limited.
Qed.

(** The list of a user names the sessions of the user, once each. *)
Lemma size_sessionsOf user m :
  indexed m ->
  size (sessionsOf user m) = length (default [] (userSessions m !! user)).
Proof.
  intros [H1 H2].
  assert (Hnd : NoDup (default [] (userSessions m !! user))).
  { destruct (userSessions m !! user) as [l|] eqn:El;
      [by destruct (H2 _ _ El) as (_ & ? & _) | constructor]. }
  rewrite <- (size_list_to_set (C := gset string)) by done.
  rewrite <- size_dom. f_equal. apply set_eq. intros id.
  rewrite elem_of_dom, elem_of_list_to_set. unfold sessionsOf. split.
  - intros [s [Hs Hu]%map_lookup_filter_Some]. simpl in Hu.
    destruct (H1 _ _ Hs) as (_ & _ & ids & Hids & Hin).
    by rewrite <- Hu, Hids.
  - intros Hin.
    destruct (userSessions m !! user) as [l|] eqn:El; [|by inversion Hin].
    destruct (H2 _ _ El) as (_ & _ & Hall).
    destruct (Hall id Hin) as (s & Hs & Hu).
    exists s. by apply map_lookup_filter_Some.
Qed.

(** X10. In every state the store can reach, no user has more sessions
    than [maxSessionsPerUser] (or than one, when the limit is set below
    one). *)
Theorem user_sessions_within_limit (cfg : CleanupConfig) (m : t) (user : Z) :
  reachable cfg m ->
  Z.of_nat (size (sessionsOf user m)) <= Z.max 1 (maxSessionsPerUser cfg).
Proof.
  intros Hreach. destruct (reachable_limited cfg m Hreach) as (_ & Hidx & Hmax).
  rewrite (size_sessionsOf user m Hidx).
  destruct (userSessions m !! user) as [l|] eqn:El; simpl; [|lia].
  by apply (Hmax user).
Qed.

(** Seven sessions opened for user 42, one second apart, with an error in
    between. *)
Definition sevenSessions : list Call :=
  [CreateSession 1000 "a" 7 42 ∅; CreateSession 2000 "b" 7 42 ∅;
   CreateSession 3000 "c" 7 42 ∅; CreateSession 4000 "d" 8 42 ∅;
   RecordError 4500 (generateSessionId 1000 "a" 7 42)
     {| ErrorRecovery.message := "timeout" |};
   CreateSession 5000 "e" 8 42 ∅; CreateSession 6000 "f" 8 42 ∅;
   CreateSession 7000 "g" 9 42 ∅].

Lemma user_sessions_within_limit_witness :
  Z.of_nat (size (sessionsOf 42 (run (make defaultCleanupConfig) sevenSessions)))
  <= Z.max 1 5.
Proof.
  apply (user_sessions_within_limit defaultCleanupConfig
           (run (make defaultCleanupConfig) sevenSessions) 42).
  apply store_run_reachable. constructor.
Defined.

(** What [enforceUserSessionLimits(userId)] does to an indexed store. *)
Lemma enforceUserSessionLimits_result user m :
  indexed m ->
  let listed := default [] (userSessions m !! user) in
  if (Z.of_nat (length listed) <? maxSessionsPerUser (cleanupConfig m))
     || (length listed =? 0)%nat
  then enforceUserSessionLimits user m = m
  else
    exists o oid,
      sessions m !! oid = Some o /\ userId o = user /\
      (forall id s, sessions m !! id = Some s -> userId s = user ->
         startTime o <= startTime s) /\
      enforceUserSessionLimits user m = fst (cleanupSession oid m).
Proof.
  intros [H1 H2]. simpl. unfold enforceUserSessionLimits.
  destruct (userSessions m !! user) as [l|] eqn:El; simpl;
    [|by rewrite orb_true_r].
  destruct (H2 _ _ El) as (Hne & Hnd & Hall).
  destruct (Z.of_nat (length l) <? _); simpl; [done|].
  destruct l as [|i l'] eqn:Hl; [done|]. rewrite <- Hl in *. simpl.
  assert (E0 : (length l =? 0)%nat = false) by (by rewrite Hl).
  rewrite E0.
  pose proof (oldestOf_spec m l) as Hspec.
  destruct (oldestOf m l) as [[o oid]|].
  - destruct Hspec as (Hin & Ho & Hmin).
    destruct (H1 _ _ Ho) as (_ & (t & r & Hgen) & _).
    assert (Hnonempty : String.eqb oid "" = false).
    { rewrite Hgen. apply generateSessionId_not_empty. }
    rewrite Hnonempty. exists o, oid.
    destruct (Hall _ Hin) as (o' & Ho' & Huser).
    rewrite Ho in Ho'. injection Ho' as <-.
    split; [done|]. split; [done|]. split; [|done].
    intros id s Hs Hu. apply (Hmin id s); [|done].
    destruct (H1 _ _ Hs) as (_ & _ & ids & Hids & Hid).
    rewrite Hu, El in Hids. by injection Hids as <-.
  - exfalso. destruct (Hall i) as (s & Hs & _); [rewrite Hl; by left|].
    rewrite Hspec in Hs; [done | rewrite Hl; by left].
Qed.

Lemma createSession_stores now random chat user meta m :
  let m1 :=
    enforceUserSessionLimits user
      (if enableAutoCleanup (cleanupConfig m) && negb (cleanupTimer m)
       then withCleanupTimer true m else m) in
  let id := generateSessionId now random chat user in
  sessions (fst (createSession now random chat user meta m)) =
    <[id := snd (createSession now random chat user meta m)]> (sessions m1) /\
  contexts (fst (createSession now random chat user meta m)) =
    <[id := {| contextSessionId := id; messageVersions := [];
               currentVersion := 0; totalChunks := 0; processedChunks := 0;
               errorCount := 0; retryCount := 0; lastCheckpoint := now;
               contextData := ∅ |}]> (contexts m1).
Proof. done. Qed.

(** X11. [createSession] for a user who has fewer sessions than
    [maxSessionsPerUser] (or none) removes nothing. For a user at the limit
    it removes one session of that user, with its context, and none of the
    user's sessions started before that one; every other session and
    context is as it was. In both cases the new session is stored under
    its id. *)
Theorem createSession_evicts_the_oldest
  (cfg : CleanupConfig) (m : t) (now : Z) (random : string) (chat user : Z)
  (meta : gmap string JsValue) :
  reachable cfg m ->
  let m' := fst (createSession now random chat user meta m) in
  let new := generateSessionId now random chat user in
  getSession new m' = Some (snd (createSession now random chat user meta m)) /\
  (Z.of_nat (size (sessionsOf user m)) < maxSessionsPerUser cfg \/
   size (sessionsOf user m) = 0%nat ->
   forall id, id <> new ->
     getSession id m' = getSession id m /\
     getContext id m' = getContext id m) /\
  (maxSessionsPerUser cfg <= Z.of_nat (size (sessionsOf user m)) ->
   size (sessionsOf user m) <> 0%nat ->
   exists oid o,
     getSession oid m = Some o /\ userId o = user /\
     (forall id s, getSession id m = Some s -> userId s = user ->
        startTime o <= startTime s) /\
     (oid <> new -> getSession oid m' = None /\ getContext oid m' = None) /\
     forall id, id <> new -> id <> oid ->
       getSession id m' = getSession id m /\
       getContext id m' = getContext id m).
Proof.
  intros Hreach m' new.
  destruct (reachable_limited cfg m Hreach) as (Hcfg & Hidx & _).
  destruct (reachable_consistent cfg m Hreach) as [Hdom _].
  destruct (createSession_stores now random chat user meta m) as [Hss Hcs].
  cbv zeta in Hss, Hcs. fold new in Hss, Hcs. fold m' in Hss, Hcs.
  set (m0 := if enableAutoCleanup (cleanupConfig m) && negb (cleanupTimer m)
             then withCleanupTimer true m else m) in *.
  assert (Hm0 : sessions m0 = sessions m /\ contexts m0 = contexts m /\
                userSessions m0 = userSessions m /\
                cleanupConfig m0 = cleanupConfig m).
  { unfold m0. by destruct (_ && _). }
  destruct Hm0 as (Hs0 & Hc0 & Hu0 & Hcfg0).
  assert (Hidx0 : indexed m0) by (by apply (indexed_same m)).
  pose proof (enforceUserSessionLimits_result user m0 Hidx0) as Hres.
  cbv zeta in Hres. rewrite Hu0, Hcfg0, Hcfg in Hres.
  rewrite <- (size_sessionsOf user m Hidx) in Hres.
  unfold getSession, getContext. rewrite Hss, Hcs.
  split; [by rewrite lookup_insert_eq|]. split.
  - intros Hbelow id Hne.
    assert (E : (Z.of_nat (size (sessionsOf user m)) <? maxSessionsPerUser cfg)
                || (size (sessionsOf user m) =? 0)%nat = true).
    { apply orb_true_iff. destruct Hbelow as [H|H].
      - left. by apply Z.ltb_lt.
      - right. by apply Nat.eqb_eq. }
    rewrite E in Hres. rewrite Hres, Hs0, Hc0.
    by rewrite !lookup_insert_ne.
  - intros Hlimit Hsome.
    assert (E : (Z.of_nat (size (sessionsOf user m)) <? maxSessionsPerUser cfg)
                || (size (sessionsOf user m) =? 0)%nat = false).
    { apply orb_false_iff. split.
      - by apply Z.ltb_ge.
      - by apply Nat.eqb_neq. }
    rewrite E in Hres. destruct Hres as (o & oid & Ho & Hu & Hmin & ->).
    rewrite Hs0 in Ho, Hmin.
    destruct (cleanupSession_index oid m0 o) as (_ & Hs1 & Hc1 & _);
      [by rewrite Hs0|].
    rewrite Hs1, Hc1, Hs0, Hc0.
    exists oid, o. split; [done|]. split; [done|]. split; [done|]. split.
    + intros Hne. rewrite !lookup_insert_ne by done.
      by rewrite !lookup_delete_eq.
    + intros id Hne Hne'. rewrite !lookup_insert_ne by done.
      by rewrite !lookup_delete_ne.
Qed.

(** Five sessions of user 42, then a sixth: the one opened first goes. *)
Definition fiveSessions : list Call :=
  [CreateSession 1000 "a" 7 42 ∅; CreateSession 2000 "b" 7 42 ∅;
   CreateSession 3000 "c" 7 42 ∅; CreateSession 4000 "d" 8 42 ∅;
   CreateSession 5000 "e" 8 42 ∅].

Lemma createSession_evicts_witness :
  getSession (generateSessionId 6000 "f" 8 42)
    (fst (createSession 6000 "f" 8 42 ∅
            (run (make defaultCleanupConfig) fiveSessions))) =
  Some (snd (createSession 6000 "f" 8 42 ∅
               (run (make defaultCleanupConfig) fiveSessions))).
Proof.
  apply (createSession_evicts_the_oldest defaultCleanupConfig
           (run (make defaultCleanupConfig) fiveSessions) 6000 "f" 8 42 ∅).
  apply store_run_reachable. constructor.
Defined.

(** *** The sessions of a user, and disposal *)

(** [getUserSessions(userId)]: the listed ids are looked up, the ones
    without a session and the completed sessions are dropped. *)
Definition getUserSessions (user : Z) (m : t) : list StreamSession :=
  let sessionIds := default [] (userSessions m !! user) in
  List.filter
    (fun session => negb (SessionStatus_eqb (status session) COMPLETED))
    (omap (fun id => sessions m !! id) sessionIds).

Lemma SessionStatus_eqb_eq a b : SessionStatus_eqb a b = true <-> a = b.
Proof. destruct a, b; simpl; split; congruence. Qed.

Lemma NoDup_omap_lookup (ss : gmap string StreamSession) (ids : list string) :
  NoDup ids ->
  (forall id s, ss !! id = Some s -> sessionId s = id) ->
  NoDup (omap (fun id => ss !! id) ids).
Proof.
  intros Hnd Hid. induction Hnd as [|i ids Hi Hnd IH]; simpl; [constructor|].
  destruct (ss !! i) as [s|] eqn:Es; [|done].
  constructor; [|done].
  intros (j & Hj & Hs)%list_elem_of_omap.
  by rewrite <- (Hid _ _ Es), (Hid _ _ Hs) in Hi.
Qed.

(** X12. In every state the store can reach, [getUserSessions(userId)]
    answers the sessions stored for that user that are not completed, each
    of them once. *)
Theorem getUserSessions_lists_the_open_sessions
  (cfg : CleanupConfig) (m : t) (user : Z) :
  reachable cfg m ->
  (forall s,
     s ∈ getUserSessions user m <->
     getSession (sessionId s) m = Some s /\ userId s = user /\
     status s <> COMPLETED) /\
  NoDup (getUserSessions user m).
Proof.
  intros Hreach. destruct (reachable_indexed cfg m Hreach) as [H1 H2].
  unfold getUserSessions, getSession. split.
  - intros s. rewrite list_elem_of_In, filter_In, <- list_elem_of_In.
    rewrite list_elem_of_omap, negb_true_iff.
    assert (Hst : SessionStatus_eqb (status s) COMPLETED = false <->
                  status s <> COMPLETED).
    { rewrite <- SessionStatus_eqb_eq. by destruct (SessionStatus_eqb _ _). }
    rewrite Hst. split.
    + intros [(id & Hin & Hs) Hopen].
      destruct (H1 _ _ Hs) as (Hid & _). rewrite Hid.
      split; [done|]. split; [|done].
      destruct (userSessions m !! user) as [l|] eqn:El; [|by inversion Hin].
      destruct (H2 _ _ El) as (_ & _ & Hall).
      destruct (Hall id Hin) as (s' & Hs' & Hu). congruence.
    + intros (Hs & Hu & Hopen). split; [|done].
      exists (sessionId s). split; [|done].
      destruct (H1 _ _ Hs) as (_ & _ & ids & Hids & Hin).
      by rewrite <- Hu, Hids.
  - apply NoDup_ListNoDup, List.NoDup_filter, NoDup_ListNoDup.
    apply NoDup_omap_lookup.
    + destruct (userSessions m !! user) as [l|] eqn:El;
        [by destruct (H2 _ _ El) as (_ & ? & _) | constructor].
    + intros id s Hs. by destruct (H1 _ _ Hs) as (? & _).
Qed.

Lemma getUserSessions_witness :
  NoDup (getUserSessions 42 (run (make defaultCleanupConfig) sevenSessions)).
Proof.
  apply (getUserSessions_lists_the_open_sessions defaultCleanupConfig
           (run (make defaultCleanupConfig) sevenSessions) 42).
  apply store_run_reachable. constructor.
Defined.

Lemma fold_cleanupSession_sessions ids : forall m id,
  sessions (fold_left (fun m id => fst (cleanupSession id m)) ids m) !! id =
    if bool_decide (id ∈ ids) then None else sessions m !! id.
Proof.
  induction ids as [|i ids IH]; intros m id; simpl; [done|].
  rewrite IH. destruct (cleanupSession_maps i m) as (-> & _).
  case_bool_decide as Hin; case_bool_decide as Hin'; try done.
  - exfalso. apply Hin'. by right.
  - apply elem_of_cons in Hin' as [->|Hin']; [|done].
    by rewrite lookup_delete_eq.
  - rewrite lookup_delete_ne; [done|]. intros ->. apply Hin'. by left.
Qed.

(** X13. [dispose()] on a store in any state it can reach leaves nothing
    behind: no session, no context, no user in the index, and no cleanup
    timer. *)
Theorem dispose_leaves_nothing (cfg : CleanupConfig) (m : t) :
  reachable cfg m ->
  sessions (dispose m) = ∅ /\ contexts (dispose m) = ∅ /\
  userSessions (dispose m) = ∅ /\ cleanupTimer (dispose m) = false.
Proof.
  intros Hreach.
  assert (Hs : sessions (dispose m) = ∅).
  { apply map_empty. intros id. unfold dispose.
    rewrite fold_cleanupSession_sessions. case_bool_decide as Hin; [done|].
    simpl. destruct (sessions m !! id) as [s|] eqn:Es; [|done].
    exfalso. apply Hin. apply list_elem_of_fmap. exists (id, s).
    split; [done|]. by apply elem_of_map_to_list. }
  destruct (dispose_consistent m (reachable_consistent cfg m Hreach))
    as [Hdom _].
  destruct (dispose_indexed m (reachable_indexed cfg m Hreach)) as [_ H2].
  split; [done|]. split; [|split].
  - apply (dom_empty_inv_L (D := gset string)). by rewrite <- Hdom, Hs, dom_empty_L.
  - apply map_empty. intros u.
    destruct (userSessions (dispose m) !! u) as [ids|] eqn:Eu; [|done].
    destruct (H2 _ _ Eu) as (Hne & _ & Hall).
    destruct ids as [|i ids]; [done|].
    destruct (Hall i) as (s & Hsome & _); [by left|].
    by rewrite Hs, lookup_empty in Hsome.
  - unfold dispose.
    assert (H : cleanupTimer (withCleanupTimer false m) = false) by done.
    revert H. generalize (withCleanupTimer false m).
    induction (fst <$> map_to_list (sessions m)) as [|id ids IH];
      intros m0 Hm0; [done|].
    simpl. apply IH. unfold cleanupSession.
    destruct (sessions m0 !! id) as [s|]; simpl; [|done].
    destruct (userSessions m0 !! userId s) as [l|]; simpl; [|done].
    by destruct (_ =? _)%nat.
Qed.

Lemma dispose_leaves_nothing_witness :
  sessions (dispose (run (make defaultCleanupConfig) sevenSessions)) = ∅.
Proof.
  apply (dispose_leaves_nothing defaultCleanupConfig
           (run (make defaultCleanupConfig) sevenSessions)).
  apply store_run_reachable. constructor.
Defined.

(** X14. In every state the store can reach, a session and its context
    come and go together, and the session stored under an id carries that
    id. An id without a session is refused by every operation: the
    answer is [false] (or [null]) and the store is left as it was. *)
Theorem unknown_session_is_refused
  (cfg : CleanupConfig) (m : t) (id : string) :
  reachable cfg m ->
  (getSession id m = None <-> getContext id m = None) /\
  (forall s, getSession id m = Some s -> sessionId s = id) /\
  (getSession id m = None ->
   (forall now st, updateSessionStatus now id st m = (m, false)) /\
   (forall now text sent telegramId,
      addMessageVersion now id text sent telegramId m = (m, None)) /\
   (forall now, recordChunk now id m = (m, false)) /\
   (forall now error, recordError now id error m = (m, false)) /\
   (forall now, recordRetry now id m = (m, false)) /\
   (forall key value, setContextData id key value m = (m, false)) /\
   cleanupSession id m = (m, false)).
Proof.
  intros Hreach.
  destruct (reachable_consistent cfg m Hreach) as [Hdom _].
  destruct (reachable_indexed cfg m Hreach) as [H1 _].
  assert (Hboth : getSession id m = None <-> getContext id m = None).
  { unfold getSession, getContext.
    by rewrite <- !not_elem_of_dom, Hdom. }
  split; [done|]. split.
  - intros s Hs. by destruct (H1 _ _ Hs) as (? & _).
  - intros Hs. pose proof (proj1 Hboth Hs) as Hc.
    unfold getSession, getContext in *.
    unfold updateSessionStatus, addMessageVersion, recordChunk, recordError,
      recordRetry, setContextData, cleanupSession.
    rewrite Hs, Hc. done.
Qed.

Lemma unknown_session_witness :
  getSession "stream_0_0_0_x" (run (make defaultCleanupConfig) sevenSessions)
    = None <->
  getContext "stream_0_0_0_x" (run (make defaultCleanupConfig) sevenSessions)
    = None.
Proof.
  apply (unknown_session_is_refused defaultCleanupConfig
           (run (make defaultCleanupConfig) sevenSessions) "stream_0_0_0_x").
  apply store_run_reachable. constructor.
Defined.

(** *** Metrics and statistics *)

(** [getMetrics()] *)
Definition getMetrics (m : t) : t * StreamMetrics :=
  let m := updateActiveSessionsCount m in (m, metrics m).

Record SessionStats := {
  total : nat;
  active : Z;
  byStatus : SessionStatus -> Z;
  byUser : gmap Z Z
}.

(** The body of the loop of [getSessionStats]. *)
Definition tally (stats : SessionStats) (session : StreamSession)
  : SessionStats :=
  {| total := total stats;
     active := if isActive session then active stats + 1 else active stats;
     byStatus := fun st =>
       if SessionStatus_eqb st (status session) then byStatus stats st + 1
       else byStatus stats st;
     byUser :=
       <[userId session :=
           default 0 (byUser stats !! userId session) + 1]> (byUser stats) |}.

(** [getSessionStats()] *)
Definition getSessionStats (m : t) : SessionStats :=
  map_fold (fun _ session stats => tally stats session)
    {| total := size (sessions m); active := 0; byStatus := fun _ => 0;
       byUser := ∅ |}
    (sessions m).

(** The sum of the counts by status. *)
Definition sumByStatus (stats : SessionStats) : Z :=
  byStatus stats INITIALIZING + byStatus stats ACTIVE + byStatus stats PAUSED +
  byStatus stats FINALIZING + byStatus stats COMPLETED + byStatus stats ERROR +
  byStatus stats TIMEOUT.

Lemma tally_sumByStatus stats session :
  sumByStatus (tally stats session) = sumByStatus stats + 1.
Proof. unfold sumByStatus, tally. destruct (status session); simpl; lia. Qed.

Lemma tally_active stats session :
  active stats = byStatus stats ACTIVE + byStatus stats INITIALIZING ->
  active (tally stats session) =
    byStatus (tally stats session) ACTIVE +
    byStatus (tally stats session) INITIALIZING.
Proof.
  unfold tally, isActive. destruct (status session); simpl; lia.
Qed.

Lemma size_filter_user_insert (ss : gmap string StreamSession) i x u :
  ss !! i = None ->
  Z.of_nat (size (filter (fun entry => userId (snd entry) = u)
                    (<[i := x]> ss))) =
  Z.of_nat (size (filter (fun entry => userId (snd entry) = u) ss)) +
  (if decide (userId x = u) then 1 else 0).
Proof.
  intros Hi. case_decide as Hu.
  - rewrite map_filter_insert_True by done.
    rewrite map_size_insert_None; [lia|].
    apply map_lookup_filter_None. by left.
  - rewrite map_filter_insert_not'; [lia | done |].
    intros y Hy. by rewrite Hi in Hy.
Qed.

Lemma stats_fold (n : nat) (ss : gmap string StreamSession) :
  let stats :=
    map_fold (fun _ session stats => tally stats session)
      {| total := n; active := 0; byStatus := fun _ => 0; byUser := ∅ |} ss in
  total stats = n /\
  sumByStatus stats = Z.of_nat (size ss) /\
  active stats = byStatus stats ACTIVE + byStatus stats INITIALIZING /\
  map_fold (fun _ s k => if isActive s then k + 1 else k) 0 ss = active stats /\
  (forall user,
     default 0 (byUser stats !! user) =
     Z.of_nat (size (filter (fun entry => userId (snd entry) = user) ss))).
Proof.
  simpl.
  apply (map_fold_weak_ind
    (fun stats ss =>
       total stats = n /\
       sumByStatus stats = Z.of_nat (size ss) /\
       active stats = byStatus stats ACTIVE + byStatus stats INITIALIZING /\
       map_fold (fun _ s k => if isActive s then k + 1 else k) 0 ss =
         active stats /\
       (forall user,
          default 0 (byUser stats !! user) =
          Z.of_nat (size (filter (fun entry => userId (snd entry) = user)
                            ss))))).
  - simpl. rewrite map_fold_empty. repeat split; done.
  - intros i x ss' r Hi (Htotal & Hsum & Hactive & Hmetric & Huser).
    rewrite map_fold_insert_L; [|intros; by repeat case_match|done].
    split; [done|]. split; [|split; [|split]].
    + rewrite tally_sumByStatus, Hsum, map_size_insert_None by done. lia.
    + by apply tally_active.
    + simpl. by rewrite Hmetric.
    + intros user. simpl. rewrite size_filter_user_insert by done.
      case_decide as Hu.
      * rewrite Hu, lookup_insert_eq. simpl. by rewrite Huser.
      * rewrite lookup_insert_ne by done. rewrite Huser. lia.
Qed.

(** X15. Whatever the store holds, the statistics add up: [total] is the
    number of sessions, the counts by status add up to it, [active] is the
    count of the active and the initializing sessions, which is also the
    [activeSessions] that [getMetrics()] reports, and the count of a user
    is the number of sessions stored for that user. *)
Theorem session_stats_add_up (m : t) :
  total (getSessionStats m) = size (sessions m) /\
  sumByStatus (getSessionStats m) = Z.of_nat (total (getSessionStats m)) /\
  active (getSessionStats m) =
    byStatus (getSessionStats m) ACTIVE +
    byStatus (getSessionStats m) INITIALIZING /\
  activeSessions (snd (getMetrics m)) = active (getSessionStats m) /\
  (forall user,
     default 0 (byUser (getSessionStats m) !! user) =
     Z.of_nat (size (sessionsOf user m))).
Proof.
  destruct (stats_fold (size (sessions m)) (sessions m))
    as (Htotal & Hsum & Hactive & Hmetric & Huser).
  unfold getSessionStats, getMetrics, updateActiveSessionsCount, sessionsOf.
  simpl. rewrite Htotal. done.
Qed.

(** *** The error rate *)

(** No context counts a negative number of errors or of chunks. *)
Definition countsNonNegative (cs : gmap string StreamContext) : Prop :=
  forall id c, cs !! id = Some c -> 0 <= errorCount c /\ 0 <= totalChunks c.

(** The two rates are percentages that add up to 100. *)
Definition rated (m : t) : Prop :=
  countsNonNegative (contexts m) /\
  (errorRate (metrics m) + successRate (metrics m) == 100)%Q /\
  (0 <= errorRate (metrics m))%Q /\ (errorRate (metrics m) <= 100)%Q.

Lemma countsNonNegative_insert cs id c :
  countsNonNegative cs -> 0 <= errorCount c -> 0 <= totalChunks c ->
  countsNonNegative (<[id := c]> cs).
Proof.
  intros Hcs He Ht i x. destruct (decide (id = i)) as [<-|Hne].
  - rewrite lookup_insert_eq. by intros [= <-].
  - rewrite lookup_insert_ne by done. apply Hcs.
Qed.

Lemma countsNonNegative_delete cs id :
  countsNonNegative cs -> countsNonNegative (delete id cs).
Proof. intros Hcs i x [_ Hx]%lookup_delete_Some. by apply (Hcs i). Qed.

Lemma error_totals (cs : gmap string StreamContext) :
  countsNonNegative cs ->
  0 <= map_fold (fun _ c n => n + errorCount c) 0 cs /\
  map_fold (fun _ c n => n + errorCount c) 0 cs <=
    map_fold (fun _ c n => n + (totalChunks c + errorCount c)) 0 cs.
Proof.
  apply (map_fold_weak_ind
    (fun r cs =>
       countsNonNegative cs ->
       0 <= r /\
       r <= map_fold (fun _ c n => n + (totalChunks c + errorCount c)) 0 cs)).
  - intros _. by rewrite map_fold_empty.
  - intros i x cs' r Hi IH Hcs.
    rewrite map_fold_insert_L; [|intros; lia|done].
    destruct (Hcs i x) as [He Ht]; [by rewrite lookup_insert_eq|].
    destruct IH as [H0 H1]; [|lia].
    intros j c Hj. apply (Hcs j). rewrite lookup_insert_ne; [done|].
    intros <-. by rewrite Hi in Hj.
Qed.

Lemma updateErrorRate_rated m :
  countsNonNegative (contexts m) ->
  (errorRate (metrics m) + successRate (metrics m) == 100)%Q /\
  (0 <= errorRate (metrics m))%Q /\ (errorRate (metrics m) <= 100)%Q ->
  rated (updateErrorRate m).
Proof.
  intros Hcs Hrates. destruct (error_totals _ Hcs) as [H0 H1].
  unfold rated, updateErrorRate.
  set (errors := map_fold (fun _ c n => n + errorCount c) 0 (contexts m)) in *.
  set (attempts := map_fold (fun _ c n => n + (totalChunks c + errorCount c))
                     0 (contexts m)) in *.
  destruct (0 <? attempts) eqn:E; simpl; [|done].
  apply Z.ltb_lt in E. split; [done|].
  assert (Ha : (0 < inject_Z attempts)%Q).
  { change 0%Q with (inject_Z 0). by rewrite <- Zlt_Qlt. }
  assert (He : (0 <= inject_Z errors)%Q).
  { change 0%Q with (inject_Z 0). by rewrite <- Zle_Qle. }
  assert (Hle : (inject_Z errors <= inject_Z attempts)%Q).
  { by rewrite <- Zle_Qle. }
  assert (Hq0 : (0 <= inject_Z errors / inject_Z attempts)%Q).
  { apply Qle_shift_div_l; [done|]. lra. }
  assert (Hq1 : (inject_Z errors / inject_Z attempts <= 1)%Q).
  { apply Qle_shift_div_r; [done|]. lra. }
  split; [ring|]. split; lra.
Qed.

Lemma cleanupSession_rated id m : rated m -> rated (fst (cleanupSession id m)).
Proof.
  intros (Hcs & Hrates). unfold rated, cleanupSession.
  destruct (sessions m !! id) as [s|]; simpl; [|done].
  split; [|by destruct (userSessions m !! userId s) as [l|]; simpl;
              [destruct (_ =? _)%nat|]].
  apply countsNonNegative_delete.
  destruct (userSessions m !! userId s) as [l|]; simpl; [|done].
  by destruct (_ =? _)%nat.
Qed.

Lemma enforceUserSessionLimits_rated user m :
  rated m -> rated (enforceUserSessionLimits user m).
Proof.
  intros H.
  destruct (enforceUserSessionLimits_maps user m) as (_ & _ & [->|[id ->]]);
    [done | by apply cleanupSession_rated].
Qed.

Lemma createSession_rated now random chat user meta m :
  rated m -> rated (fst (createSession now random chat user meta m)).
Proof.
  intros Hm.
  set (m0 := if enableAutoCleanup (cleanupConfig m) && negb (cleanupTimer m)
             then withCleanupTimer true m else m).
  assert (Hm0 : rated m0) by (unfold m0; by destruct (_ && _)).
  destruct (enforceUserSessionLimits_rated user m0 Hm0) as (Hcs & Hrates).
  unfold rated, createSession. fold m0. simpl. split; [|done].
  by apply countsNonNegative_insert.
Qed.

Lemma perform_rated m c : rated m -> rated (perform m c).
Proof.
  intros Hm. pose proof Hm as (Hcs & Hrates).
  destruct c as [now random chat user meta|now id st|now id text sent tg
                |now id|now id error|now id|id key value|id|now|];
    unfold perform.
  - by apply createSession_rated.
  - unfold rated, updateSessionStatus.
    destruct (sessions m !! id) as [s|]; simpl; [|done].
    by destruct (_ || _).
  - unfold rated, addMessageVersion.
    destruct (contexts m !! id) as [c|] eqn:Ec; simpl; [|done].
    destruct (Hcs _ _ Ec) as [He Ht].
    destruct (sessions m !! id) as [s|]; simpl;
      (split; [by apply countsNonNegative_insert | done]).
  - unfold rated, recordChunk, touch.
    destruct (contexts m !! id) as [c|] eqn:Ec; simpl; [|done].
    destruct (Hcs _ _ Ec) as [He Ht].
    destruct (sessions m !! id) as [s|]; simpl;
      (split; [apply countsNonNegative_insert; simpl; (done || lia) | done]).
  - unfold recordError.
    destruct (contexts m !! id) as [c|] eqn:Ec; simpl; [|done].
    destruct (Hcs _ _ Ec) as [He Ht].
    apply updateErrorRate_rated.
    + destruct (sessions m !! id) as [s|]; simpl;
        apply countsNonNegative_insert; simpl; (done || lia).
    + by destruct (sessions m !! id) as [s|].
  - unfold rated, recordRetry, touch.
    destruct (contexts m !! id) as [c|] eqn:Ec; simpl; [|done].
    destruct (Hcs _ _ Ec) as [He Ht].
    destruct (sessions m !! id) as [s|]; simpl;
      (split; [by apply countsNonNegative_insert | done]).
  - unfold rated, setContextData.
    destruct (contexts m !! id) as [c|] eqn:Ec; simpl; [|done].
    destruct (Hcs _ _ Ec) as [He Ht].
    split; [by apply countsNonNegative_insert | done].
  - by apply cleanupSession_rated.
  - unfold performCleanup.
    assert (Hacc : rated (fst (m, 0))) by done.
    revert Hacc. generalize (m, 0).
    induction (map_to_list (sessions m)) as [|a l IH]; intros acc Hacc; [done|].
    simpl. apply IH. unfold visit. destruct (shouldCleanup _ _ _); [|done].
    simpl. by apply cleanupSession_rated.
  - unfold dispose.
    assert (Hw : rated (withCleanupTimer false m)) by done.
    revert Hw. generalize (withCleanupTimer false m).
    induction (fst <$> map_to_list (sessions m)) as [|i ids IH];
      intros m0 Hm0; [done|].
    simpl. apply IH. by apply cleanupSession_rated.
Qed.

(** X16. In every state the store can reach, the error rate and the
    success rate of the metrics are percentages: the error rate lies
    between 0 and 100 and the two add up to 100. *)
Theorem error_and_success_rates_are_percentages
  (cfg : CleanupConfig) (m : t) :
  reachable cfg m ->
  (0 <= errorRate (snd (getMetrics m)))%Q /\
  (errorRate (snd (getMetrics m)) <= 100)%Q /\
  (errorRate (snd (getMetrics m)) + successRate (snd (getMetrics m)) == 100)%Q.
Proof.
  intros Hreach.
  assert (H : rated m).
  { induction Hreach as [|m c _ IH].
    - split; [|done]. intros id c. simpl. by rewrite lookup_empty.
    - by apply perform_rated. }
  destruct H as (_ & Hsum & H0 & H1). simpl. done.
Qed.

(** One session with two chunks and one error: the error rate is a third
    of 100. *)
Lemma error_rate_witness :
  (0 <= errorRate (snd (getMetrics (run oneSession
          [RecordChunk 1100 sampleId; RecordChunk 1200 sampleId;
           RecordError 1300 sampleId
             {| ErrorRecovery.message := "timeout" |}]))))%Q.
Proof.
  apply (error_and_success_rates_are_percentages defaultCleanupConfig).
  apply store_run_reachable, oneSession_reachable.
Defined.

(** *** The checksum of a version *)

(** The polynomial [c0 * 31^(n-1) + c1 * 31^(n-2) + ... + c(n-1)] of the
    character codes of a text, from an initial value. *)
Fixpoint polynomial (hash : Z) (content : string) : Z :=
  match content with
  | EmptyString => hash
  | String c rest => polynomial (hash * 31 + Z.of_nat (nat_of_ascii c)) rest
  end.

Lemma toInt32_range z : - 2 ^ 31 <= toInt32 z < 2 ^ 31.
Proof.
  unfold toInt32. change (2 ^ 31) with 2147483648.
  change (2 ^ 32) with 4294967296.
  pose proof (Z.mod_pos_bound (z + 2147483648) 4294967296). lia.
Qed.

Lemma toInt32_small z : - 2 ^ 31 <= z < 2 ^ 31 -> toInt32 z = z.
Proof.
  unfold toInt32. change (2 ^ 31) with 2147483648.
  change (2 ^ 32) with 4294967296. intros H.
  rewrite Z.mod_small; lia.
Qed.

Lemma toInt32_congruent a b k : a = b + 2 ^ 32 * k -> toInt32 a = toInt32 b.
Proof.
  intros ->. unfold toInt32. f_equal.
  replace (b + 2 ^ 32 * k + 2 ^ 31) with (b + 2 ^ 31 + k * 2 ^ 32) by lia.
  apply Z_mod_plus_full.
Qed.

Lemma toInt32_wraps z : exists k, toInt32 z = z + 2 ^ 32 * k.
Proof.
  exists (- ((z + 2 ^ 31) / 2 ^ 32)). unfold toInt32.
  change (2 ^ 31) with 2147483648. change (2 ^ 32) with 4294967296.
  pose proof (Z.div_mod (z + 2147483648) 4294967296). lia.
Qed.

Lemma checksumFrom_polynomial content : forall hash hash' k,
  hash = hash' + 2 ^ 32 * k -> - 2 ^ 31 <= hash < 2 ^ 31 ->
  checksumFrom hash content = toInt32 (polynomial hash' content).
Proof.
  induction content as [|c rest IH]; intros hash hash' k Hk Hrange; simpl.
  - rewrite <- (toInt32_congruent hash hash' k Hk). symmetry.
    by apply toInt32_small.
  - destruct (toInt32_wraps (hash * 32)) as [k1 H1].
    destruct (toInt32_wraps
                (toInt32 (hash * 32) - hash + Z.of_nat (nat_of_ascii c)))
      as [k2 H2].
    apply (IH _ _ (k1 + k2 + 31 * k)); [|apply toInt32_range].
    rewrite H2, H1, Hk. lia.
Qed.

(** X17. The checksum of a text is the hexadecimal writing of the
    polynomial hash of its character codes in base 31, wrapped to a signed
    32-bit integer. *)
Theorem checksum_is_the_polynomial_hash (content : string) :
  checksumFrom 0 content = toInt32 (polynomial 0 content) /\
  - 2 ^ 31 <= checksumFrom 0 content < 2 ^ 31 /\
  generateChecksum content = toHex (toInt32 (polynomial 0 content)).
Proof.
  assert (H : checksumFrom 0 content = toInt32 (polynomial 0 content)).
  { apply (checksumFrom_polynomial content 0 0 0); [done|].
    change (2 ^ 31) with 2147483648. lia. }
  split; [done|]. split.
  - rewrite H. apply toInt32_range.
  - unfold generateChecksum. by rewrite H.
Qed.

End StreamStateManager.

(** ** The stream handler: [TelegramStreamHandler] *)

Module TelegramStreamHandler.
Import JsString.
Import ErrorRecovery(Error, message).

Module RL := AdvancedRateLimiter.
Module SM := StreamStateManager.

Record StreamConfig := {
  minUpdateInterval : Z;
  maxMessageLength : Z;
  rateLimitConfig : RateLimitConfig
}.

Record StreamState := {
  messageId : option Z;
  chatId : Z;
  currentText : string;
  lastSentText : string;
  lastUpdateTime : Z;
  isActive : bool;
  isPaused : bool
}.

(** One request to the Telegram Bot API, as [makeApiRequest] posts it. *)
Inductive ApiMethod := sendMessageMethod | editMessageTextMethod.

Record ApiCall := {
  method : ApiMethod;
  chat_id : Z;
  message_id : option Z;
  text : string;
  (** whether [parse_mode: "Markdown"] is set *)
  markdown : bool
}.

(** What Telegram answers: a refusal, which [makeApiRequest] throws as an
    [Error] with the given message, or the result, of which the handler
    reads the [message_id]. *)
Inductive ApiReply :=
| Refused (reason : string)
| Accepted (result : RL.Response).

(** The handler with the objects it shares and the world it runs in. *)
Record t := {
  state : StreamState;
  config : StreamConfig;
  updateQueue : list string;
  rateLimiter : RL.t;
  (** [errorRecoveryManager.recoveryAttempts] *)
  recoveryAttempts : gmap string Z;
  sessionId : option string;
  userId : Z;
  (** [globalStreamStateManager] *)
  stateManager : SM.t;
  (** what [Date.now()] returns *)
  clock : Z;
  (** what [Math.random()] returns to the backoff strategy *)
  jitterSample : Q;
  (** Telegram's answer to the n-th request *)
  telegram : nat -> ApiReply;
  (** the requests made so far, oldest first *)
  requests : list ApiCall
}.

Definition withState (x : StreamState) (w : t) : t :=
  {| state := x; config := config w; updateQueue := updateQueue w;
     rateLimiter := rateLimiter w; recoveryAttempts := recoveryAttempts w;
     sessionId := sessionId w; userId := userId w;
     stateManager := stateManager w; clock := clock w;
     jitterSample := jitterSample w; telegram := telegram w;
     requests := requests w |}.

Definition withUpdateQueue (x : list string) (w : t) : t :=
  {| state := state w; config := config w; updateQueue := x;
     rateLimiter := rateLimiter w; recoveryAttempts := recoveryAttempts w;
     sessionId := sessionId w; userId := userId w;
     stateManager := stateManager w; clock := clock w;
     jitterSample := jitterSample w; telegram := telegram w;
     requests := requests w |}.

Definition withRateLimiter (x : RL.t) (w : t) : t :=
  {| state := state w; config := config w; updateQueue := updateQueue w;
     rateLimiter := x; recoveryAttempts := recoveryAttempts w;
     sessionId := sessionId w; userId := userId w;
     stateManager := stateManager w; clock := clock w;
     jitterSample := jitterSample w; telegram := telegram w;
     requests := requests w |}.

Definition withRecoveryAttempts (x : gmap string Z) (w : t) : t :=
  {| state := state w; config := config w; updateQueue := updateQueue w;
     rateLimiter := rateLimiter w; recoveryAttempts := x;
     sessionId := sessionId w; userId := userId w;
     stateManager := stateManager w; clock := clock w;
     jitterSample := jitterSample w; telegram := telegram w;
     requests := requests w |}.

Definition withSessionId (x : option string) (w : t) : t :=
  {| state := state w; config := config w; updateQueue := updateQueue w;
     rateLimiter := rateLimiter w; recoveryAttempts := recoveryAttempts w;
     sessionId := x; userId := userId w;
     stateManager := stateManager w; clock := clock w;
     jitterSample := jitterSample w; telegram := telegram w;
     requests := requests w |}.

Definition withStateManager (x : SM.t) (w : t) : t :=
  {| state := state w; config := config w; updateQueue := updateQueue w;
     rateLimiter := rateLimiter w; recoveryAttempts := recoveryAttempts w;
     sessionId := sessionId w; userId := userId w;
     stateManager := x; clock := clock w;
     jitterSample := jitterSample w; telegram := telegram w;
     requests := requests w |}.

Definition withClock (x : Z) (w : t) : t :=
  {| state := state w; config := config w; updateQueue := updateQueue w;
     rateLimiter := rateLimiter w; recoveryAttempts := recoveryAttempts w;
     sessionId := sessionId w; userId := userId w;
     stateManager := stateManager w; clock := x;
     jitterSample := jitterSample w; telegram := telegram w;
     requests := requests w |}.

Definition withRequests (x : list ApiCall) (w : t) : t :=
  {| state := state w; config := config w; updateQueue := updateQueue w;
     rateLimiter := rateLimiter w; recoveryAttempts := recoveryAttempts w;
     sessionId := sessionId w; userId := userId w;
     stateManager := stateManager w; clock := clock w;
     jitterSample := jitterSample w; telegram := telegram w;
     requests := x |}.

Definition withMessageId (x : option Z) (s : StreamState) : StreamState :=
  {| messageId := x; chatId := chatId s; currentText := currentText s;
     lastSentText := lastSentText s; lastUpdateTime := lastUpdateTime s;
     isActive := isActive s; isPaused := isPaused s |}.

Definition withCurrentText (x : string) (s : StreamState) : StreamState :=
  {| messageId := messageId s; chatId := chatId s; currentText := x;
     lastSentText := lastSentText s; lastUpdateTime := lastUpdateTime s;
     isActive := isActive s; isPaused := isPaused s |}.

Definition withLastSentText (x : string) (s : StreamState) : StreamState :=
  {| messageId := messageId s; chatId := chatId s;
     currentText := currentText s; lastSentText := x;
     lastUpdateTime := lastUpdateTime s; isActive := isActive s;
     isPaused := isPaused s |}.

Definition withLastUpdateTime (x : Z) (s : StreamState) : StreamState :=
  {| messageId := messageId s; chatId := chatId s;
     currentText := currentText s; lastSentText := lastSentText s;
     lastUpdateTime := x; isActive := isActive s; isPaused := isPaused s |}.

Definition withIsActive (x : bool) (s : StreamState) : StreamState :=
  {| messageId := messageId s; chatId := chatId s;
     currentText := currentText s; lastSentText := lastSentText s;
     lastUpdateTime := lastUpdateTime s; isActive := x;
     isPaused := isPaused s |}.

Definition withIsPaused (x : bool) (s : StreamState) : StreamState :=
  {| messageId := messageId s; chatId := chatId s;
     currentText := currentText s; lastSentText := lastSentText s;
     lastUpdateTime := lastUpdateTime s; isActive := isActive s;
     isPaused := x |}.

(** *** Asynchronous methods run one after the other

    A method run to its end is a function of the world that completes
    normally with a value or with a thrown [Error]. *)

Inductive Completion (A : Type) :=
| Normal (value : A)
| Thrown (error : Error).
Arguments Normal {A} value.
Arguments Thrown {A} error.

Definition Task (A : Type) : Type := t -> t * Completion A.

#[local] Instance task_ret : MRet Task := fun A a w => (w, Normal a).

#[local] Instance task_bind : MBind Task := fun A B f m w =>
  match m w with
  | (w', Normal a) => f a w'
  | (w', Thrown e) => (w', Thrown e)
  end.

(** [throw e] *)
Definition throw {A} (e : Error) : Task A := fun w => (w, Thrown e).

(** [try { body } catch (error) { handler }] *)
Definition tryCatch {A} (body : Task A) (handler : Error -> Task A) : Task A :=
  fun w =>
    match body w with
    | (w', Normal a) => (w', Normal a)
    | (w', Thrown e) => handler e w'
    end.

(** Reads and writes of the world. *)
Definition get {A} (f : t -> A) : Task A := fun w => (w, Normal (f w)).
Definition modify (f : t -> t) : Task unit := fun w => (f w, Normal tt).
Definition modifyState (f : StreamState -> StreamState) : Task unit :=
  modify (fun w => withState (f (state w)) w).

(** [Date.now()] *)
Definition now : Task Z := get clock.

(** [await this.delay(ms)] *)
Definition delay (ms : Z) : Task unit :=
  modify (fun w => withClock (clock w + Z.max 0 ms) w).

(** A call of the state manager with the session id, when there is one. *)
Definition withSession (f : Z -> string -> SM.t -> SM.t) : Task unit :=
  modify (fun w =>
    match sessionId w with
    | Some id => withStateManager (f (clock w) id (stateManager w)) w
    | None => w
    end).

(** *** The Telegram Bot API *)

(** [makeApiRequest(url, body)] *)
Definition makeApiRequest (call : ApiCall) : Task RL.Response := fun w =>
  let reply := telegram w (length (requests w)) in
  let w := withRequests (requests w ++ [call]) w in
  match reply with
  | Accepted result => (w, Normal result)
  | Refused reason => (w, Thrown {| message := reason |})
  end.

(** The number of requests made to Telegram so far. *)
Definition remoteCalls (w : t) : nat := length (requests w).


(** *** Strings *)

Definition newline : ascii := "010"%char.

(** [s.lastIndexOf(c)] *)
Fixpoint lastIndexOfFrom (c : ascii) (i : Z) (found : Z) (s : string) : Z :=
  match s with
  | EmptyString => found
  | String a s' =>
      lastIndexOfFrom c (i + 1) (if Ascii.eqb a c then i else found) s'
  end.

Definition lastIndexOf (c : ascii) (s : string) : Z :=
  lastIndexOfFrom c 0 (-1) s.

(** [s.substring(0, n)] *)
Definition prefixOf (n : Z) (s : string) : string :=
  String.substring 0 (Z.to_nat n) s.

Definition truncationMarker : string :=
  String newline (String newline "...(消息过长，已截断)").

(** The truncation of [updateMessage]. *)
Definition truncateMessage (maxLength : Z) (messageText : string) : string :=
  if maxLength <? Z.of_nat (String.length messageText) then
    let truncateLength := maxLength - 15 in
    let truncatedAtNewline :=
      lastIndexOf newline (prefixOf truncateLength messageText) in
    let cutPoint :=
      if truncateLength - 200 <? truncatedAtNewline
      then truncatedAtNewline else truncateLength in
    (prefixOf cutPoint messageText +:+ truncationMarker)%string
  else messageText.

(** The key of [recoveryAttempts]: [`${chatId}-${messageId || 'new'}`] *)
Definition contextKey (chat : Z) (messageId : option Z) : string :=
  (pretty chat +:+ "-" +:+
   (match messageId with
    | Some m => if (m =? 0)%Z then "new" else pretty m
    | None => "new"
    end))%string.

(** *** Recovery *)

Inductive OperationType := send | edit.

Record RecoveryContext := {
  contextChatId : Z;
  contextMessageId : option Z;
  contextCurrentText : string;
  lastSuccessfulText : string;
  retryCount : Z;
  operationType : OperationType
}.

Record RecoveryResult := {
  success : bool;
  strategy : ErrorRecovery.RecoveryStrategy;
  fallbackUsed : bool;
  newMessageId : option Z;
  errorMessage : option string
}.

Section Methods.

(** The rewriting of texts by regular expressions is left open: what follows
    holds whatever these three functions compute. *)

(** [MessageConverter.formatMarkdownForTelegram] *)
Variable formatMarkdownForTelegram : string -> string.
(** the removal of formatting in [sendMessage] and [editMessage] *)
Variable plainTextOf : string -> string.
(** [ErrorRecoveryExecutor.stripMarkdown] *)
Variable stripMarkdown : string -> string.

(** [sendMessage(text)] *)
Definition sendMessage (text : string) : Task RL.Response :=
  chat ← get (fun w => chatId (state w));
  tryCatch
    (makeApiRequest
       {| method := sendMessageMethod; chat_id := chat; message_id := None;
          text := text; markdown := true |})
    (fun _ =>
       makeApiRequest
         {| method := sendMessageMethod; chat_id := chat; message_id := None;
            text := plainTextOf text; markdown := false |}).

(** [editMessage(text)] *)
Definition editMessage (text : string) : Task unit :=
  chat ← get (fun w => chatId (state w));
  target ← get (fun w => messageId (state w));
  if negb (SM.truthy target) then mret tt
  else
    tryCatch
      (makeApiRequest
         {| method := editMessageTextMethod; chat_id := chat;
            message_id := target; text := text; markdown := true |};;
       mret tt)
      (fun _ =>
         makeApiRequest
           {| method := editMessageTextMethod; chat_id := chat;
              message_id := target; text := plainTextOf text;
              markdown := false |};;
         mret tt).

(** The operation a queued request carries, run. *)
Definition runThunk (d : RL.Thunk) : Task RL.Response :=
  match d with
  | RL.SendMessage text => sendMessage text
  | RL.EditMessage text => editMessage text;; mret None
  | RL.Opaque _ => mret None
  end.

(** *** The rate limiter, driven to rest *)

Definition limiterStep (ev : RL.Event) (w : t) : t :=
  withRateLimiter (RL.step (rateLimiter w) ev) w.

(** The time a token wait lasts. *)
Definition tokenWait (w : t) : Z :=
  match snd (TokenBucket.getNextTokenTime (clock w) 1
               (RL.tokenBucket (rateLimiter w))) with
  | Js.Finite q => Qceiling q
  | Js.PosInfinity => 0
  end.

(** The time the timer of a backoff delay takes: the delay is a whole number
    of milliseconds, and one that is not a finite number counts as 0. *)
Definition timerOf (ms : Binary64.Double) : Z :=
  match ms with
  | Binary64.Finite q => Qfloor q
  | _ => 0
  end.

Definition outcomeOf (c : Completion RL.Response) : RL.Outcome :=
  match c with
  | Normal v => RL.Fulfilled v
  | Thrown e => RL.Failed e
  end.

(** Runs what the suspended [processQueue] waits for, until it has nothing
    left to do: timers fire, the operation in flight is run against
    Telegram and settles, the loop resumes. *)
Fixpoint drive (fuel : nat) (w : t) : t :=
  match fuel with
  | O => w
  | S fuel' =>
      match RL.continuation (rateLimiter w) with
      | RL.NotRunning => w
      | RL.AwaitTokenDelay _ =>
          let w := fst (delay (tokenWait w) w) in
          drive fuel' (limiterStep (RL.TimerFires (clock w)) w)
      | RL.AwaitRequest request _ =>
          let (w, c) := runThunk (RL.data request) w in
          drive fuel'
            (limiterStep
               (RL.RequestSettles (clock w) (jitterSample w) (outcomeOf c)) w)
      | RL.AwaitBackoffDelay _ ms =>
          let w := fst (delay (timerOf ms) w) in
          drive fuel' (limiterStep (RL.TimerFires (clock w)) w)
      | RL.AwaitExecuteRequest =>
          drive fuel' (limiterStep (RL.ProcessQueueResumes (clock w)) w)
      end
  end.

(** Enough for four attempts at one request. *)
Definition driveFuel : nat := 64.

Definition neverSettled : Error := {| message := "request never settled" |}.

(** [await this.rateLimiter.execute(request, priority)]. The operations the
    handler submits reject with an [Error] ([outcomeOf]), so that its
    limiter rejects no promise with anything else; the case of [RL.Rejected]
    is there for the [match] to be complete. *)
Definition rateLimiterExecute (d : RL.Thunk) (p : RL.RequestPriority)
  : Task RL.Response := fun w =>
  let position := length (RL.settled (rateLimiter w)) in
  let id := ("req_" +:+ pretty (clock w))%string in
  let w := limiterStep (RL.Execute (clock w) id d p 0) w in
  let w := drive driveFuel w in
  match RL.settled (rateLimiter w) !! position with
  | Some (_, RL.Fulfilled v) => (w, Normal v)
  | Some (_, RL.Failed e) => (w, Thrown e)
  | Some (_, RL.Rejected reason) => (w, Thrown {| message := reason |})
  | None => (w, Thrown neverSettled)
  end.

(** *** [ErrorRecoveryExecutor] and [StreamErrorRecoveryManager] *)

Definition failed (s : ErrorRecovery.RecoveryStrategy) (fallback : bool)
  (why : string) : RecoveryResult :=
  {| success := false; strategy := s; fallbackUsed := fallback;
     newMessageId := None; errorMessage := Some why |}.

Definition succeeded (s : ErrorRecovery.RecoveryStrategy) (fallback : bool)
  (created : option Z) : RecoveryResult :=
  {| success := true; strategy := s; fallbackUsed := fallback;
     newMessageId := created; errorMessage := None |}.

(** [executeRetryStrategy] *)
Definition executeRetryStrategy (context : RecoveryContext)
  (analysis : ErrorRecovery.ErrorAnalysis) : Task RecoveryResult :=
  if ErrorRecovery.maxRetries analysis <=? retryCount context then
    mret (failed ErrorRecovery.RETRY false
            ("Maximum retries (" +:+
             pretty (ErrorRecovery.maxRetries analysis) +:+ ") exceeded"))
  else
    let baseDelay := 1000%Q in
    let ms :=
      (baseDelay *
       Qpower (ErrorRecovery.backoffMultiplier analysis) (retryCount context))%Q
    in
    delay (Qfloor ms);;
    tryCatch
      (editMessage (contextCurrentText context);;
       mret (succeeded ErrorRecovery.RETRY false None))
      (fun retryError =>
         mret (failed ErrorRecovery.RETRY false
                 ("Retry failed: " +:+ message retryError))).

(** [executeFallbackStrategy], with the function that
    [createPlainTextEditFunction] makes. *)
Definition executeFallbackStrategy (context : RecoveryContext)
  : Task RecoveryResult :=
  let plainText := stripMarkdown (contextCurrentText context) in
  tryCatch
    (makeApiRequest
       {| method := editMessageTextMethod; chat_id := contextChatId context;
          message_id := contextMessageId context; text := plainText;
          markdown := false |};;
     mret (succeeded ErrorRecovery.FALLBACK true None))
    (fun fallbackError =>
       mret (failed ErrorRecovery.FALLBACK true
               ("Fallback failed: " +:+ message fallbackError))).

(** [executeRecreateStrategy] *)
Definition executeRecreateStrategy (context : RecoveryContext)
  : Task RecoveryResult :=
  tryCatch
    (response ← sendMessage (contextCurrentText context);
     mret (succeeded ErrorRecovery.RECREATE_MESSAGE false response))
    (fun recreateError =>
       mret (failed ErrorRecovery.RECREATE_MESSAGE false
               ("Message recreation failed: " +:+ message recreateError))).

(** [executeRecovery] *)
Definition executeRecovery (error : Error) (context : RecoveryContext)
  : Task RecoveryResult :=
  let analysis := ErrorRecovery.analyzeError error in
  match ErrorRecovery.strategy analysis with
  | ErrorRecovery.RETRY => executeRetryStrategy context analysis
  | ErrorRecovery.FALLBACK => executeFallbackStrategy context
  | ErrorRecovery.RECREATE_MESSAGE => executeRecreateStrategy context
  | ErrorRecovery.SKIP => mret (succeeded ErrorRecovery.SKIP false None)
  | ErrorRecovery.ABORT =>
      mret (failed ErrorRecovery.ABORT false
              (default "Stream aborted due to unrecoverable error"%string
                 (ErrorRecovery.gracefulDegradation analysis)))
  end.

(** [handleStreamError], which [attemptErrorRecovery] calls. *)
Definition handleStreamError (error : Error) (context : RecoveryContext)
  : Task RecoveryResult :=
  let key := contextKey (contextChatId context) (contextMessageId context) in
  currentAttempts ← get (fun w => default 0 (recoveryAttempts w !! key));
  let context :=
    {| contextChatId := contextChatId context;
       contextMessageId := contextMessageId context;
       contextCurrentText := contextCurrentText context;
       lastSuccessfulText := lastSuccessfulText context;
       retryCount := currentAttempts;
       operationType := operationType context |} in
  modify (fun w =>
    withRecoveryAttempts
      (<[key := currentAttempts + 1]> (recoveryAttempts w)) w);;
  result ← executeRecovery error context;
  (if success result
   then modify (fun w =>
          withRecoveryAttempts (delete key (recoveryAttempts w)) w)
   else mret tt);;
  mret result.

(** [resetRetryCount(chatId, messageId)] *)
Definition resetRetryCount : Task unit :=
  modify (fun w =>
    withRecoveryAttempts
      (delete (contextKey (chatId (state w)) (messageId (state w)))
              (recoveryAttempts w)) w).

(** *** The update path *)

(** [stateManager.addMessageVersion(sessionId, text, true, messageId)] *)
Definition recordVersion (text : string) : Task unit :=
  target ← get (fun w => messageId (state w));
  withSession (fun clock id m =>
    fst (SM.addMessageVersion clock id text true target m)).

(** The text [updateMessage] compares and sends. *)
Definition outgoingText (w : t) : string :=
  formatMarkdownForTelegram
    (truncateMessage (maxMessageLength (config w)) (currentText (state w))).

(** [updateMessage()] *)
Definition updateMessage : Task unit :=
  messageText ← get outgoingText;
  last ← get (fun w => lastSentText (state w));
  if String.eqb last messageText then mret tt
  else
    tryCatch
      (target ← get (fun w => messageId (state w));
       (if negb (SM.truthy target) then
          response ← rateLimiterExecute (RL.SendMessage messageText) RL.HIGH;
          if SM.truthy response then
            modifyState (fun s =>
              withLastSentText messageText (withMessageId response s));;
            recordVersion messageText
          else mret tt
        else
          rateLimiterExecute (RL.EditMessage messageText) RL.NORMAL;;
          modifyState (withLastSentText messageText);;
          recordVersion messageText);;
       time ← now;
       modifyState (withLastUpdateTime time);;
       resetRetryCount)
      (fun error =>
         withSession (fun clock id m => fst (SM.recordError clock id error m));;
         target ← get (fun w => messageId (state w));
         chat ← get (fun w => chatId (state w));
         last ← get (fun w => lastSentText (state w));
         let recoveryContext :=
           {| contextChatId := chat; contextMessageId := target;
              contextCurrentText := messageText; lastSuccessfulText := last;
              retryCount := 0;
              operationType := if SM.truthy target then edit else send |} in
         recoveryResult ← handleStreamError error recoveryContext;
         (if negb (success recoveryResult)
          then withSession (fun clock id m => fst (SM.recordRetry clock id m))
          else mret tt);;
         if negb (success recoveryResult) then
           throw {| message :=
                      ("Message update and recovery failed: " +:+
                       default "undefined" (errorMessage recoveryResult))%string |}
         else if SM.truthy (newMessageId recoveryResult) then
           time ← now;
           modifyState (fun s =>
             withLastUpdateTime time
               (withLastSentText messageText
                  (withMessageId (newMessageId recoveryResult) s)))
         else mret tt).

(** [s.substring(0, s.length - chunk.length)] *)
Definition withoutChunk (chunk s : string) : string :=
  prefixOf (Z.of_nat (String.length s) - Z.of_nat (String.length chunk)) s.

(** The loop of [processUpdateQueue()]; every turn takes one chunk off the
    queue or leaves the loop, so that as many turns as the queue is long
    are enough. *)
Fixpoint processUpdateQueueLoop (turns : nat) : Task unit :=
  match turns with
  | O => mret tt
  | S turns' =>
      queue ← get updateQueue;
      match queue with
      | [] => mret tt
      | chunk :: rest =>
          modify (withUpdateQueue rest);;
          modifyState (fun s => withCurrentText (currentText s +:+ chunk) s);;
          continue ←
            tryCatch
              (updateMessage;;
               time ← now;
               modifyState (withLastUpdateTime time);;
               pending ← get updateQueue;
               interval ← get (fun w => minUpdateInterval (config w));
               (if (0 <? length pending)%nat then delay interval
                else mret tt);;
               mret true)
              (fun _ =>
                 modify (fun w => withUpdateQueue (chunk :: updateQueue w) w);;
                 modifyState (fun s =>
                   withCurrentText (withoutChunk chunk (currentText s)) s);;
                 mret false);
          if continue : bool then processUpdateQueueLoop turns' else mret tt
      end
  end.

(** [processUpdateQueue()] *)
Definition processUpdateQueue : Task unit :=
  queue ← get updateQueue;
  processUpdateQueueLoop (length queue).

(** [finalize(finalText?)] *)
Definition finalize (finalText : option string) : Task unit :=
  withSession (fun clock id m =>
    fst (SM.updateSessionStatus clock id SM.FINALIZING m));;
  (match finalText with
   | Some final =>
       if (0 <? String.length final)%nat then
         modifyState (withCurrentText final);;
         modify (withUpdateQueue [])
       else processUpdateQueue
   | None => processUpdateQueue
   end);;
  current ← get (fun w => currentText (state w));
  last ← get (fun w => lastSentText (state w));
  (if (0 <? String.length current)%nat && negb (String.eqb current last)
   then updateMessage
   else mret tt);;
  modifyState (withIsActive false);;
  current ← get (fun w => currentText (state w));
  target ← get (fun w => messageId (state w));
  withSession (fun clock id m =>
    let m := fst (SM.updateSessionStatus clock id SM.COMPLETED m) in
    if (0 <? String.length current)%nat
    then fst (SM.addMessageVersion clock id current true
                (if SM.truthy target then target else None) m)
    else m).

(** [initialize(metadata)], with the random part of the session id. *)
Definition initialize (random : string) (metadata : gmap string SM.JsValue)
  : Task unit :=
  modifyState (fun s =>
    withLastUpdateTime 0
      (withMessageId None (withCurrentText "" (withIsActive true s))));;
  modify (withUpdateQueue []);;
  modify (fun w =>
    let created :=
      SM.createSession (clock w) random (chatId (state w)) (userId w)
        metadata (stateManager w) in
    withSessionId (Some (SM.sessionId (snd created)))
      (withStateManager (fst created) w));;
  withSession (fun clock id m =>
    fst (SM.updateSessionStatus clock id SM.ACTIVE m)).

(** [onStreamChunk(chunk)] *)
Definition onStreamChunk (chunk : string) : Task unit :=
  active ← get (fun w => isActive (state w));
  paused ← get (fun w => isPaused (state w));
  if negb active || paused then
    modify (fun w => withUpdateQueue (updateQueue w ++ [chunk]) w)
  else
    withSession (fun clock id m => fst (SM.recordChunk clock id m));;
    time ← now;
    lastUpdate ← get (fun w => lastUpdateTime (state w));
    interval ← get (fun w => minUpdateInterval (config w));
    if time - lastUpdate <? interval then
      modify (fun w => withUpdateQueue (updateQueue w ++ [chunk]) w)
    else
      modifyState (fun s => withCurrentText (currentText s +:+ chunk) s);;
      tryCatch updateMessage
        (fun _ =>
           modifyState (fun s =>
             withCurrentText (withoutChunk chunk (currentText s)) s);;
           modify (fun w => withUpdateQueue (updateQueue w ++ [chunk]) w)).


(** *** A request that Telegram accepts *)

(** The handler's own fields are those of [w]; the rate limiter, the clock
    and the log of requests may differ. *)
Definition sameHandler (w w' : t) : Prop :=
  state w' = state w /\ config w' = config w /\
  updateQueue w' = updateQueue w /\
  recoveryAttempts w' = recoveryAttempts w /\
  sessionId w' = sessionId w /\ userId w' = userId w /\
  stateManager w' = stateManager w /\
  jitterSample w' = jitterSample w /\ telegram w' = telegram w.

Ltac run_task :=
  unfold mbind, mret, task_bind, task_ret, get, modify, modifyState, now,
    tryCatch, throw, makeApiRequest; cbn beta iota zeta.

Lemma sendMessage_accepted text w result :
  telegram w (length (requests w)) = Accepted result ->
  sendMessage text w =
    (withRequests
       (requests w ++
        [{| method := sendMessageMethod; chat_id := chatId (state w);
            message_id := None; text := text; markdown := true |}]) w,
     Normal result).
Proof. intros H. unfold sendMessage. run_task. by rewrite H. Qed.

Lemma editMessage_accepted text w result :
  SM.truthy (messageId (state w)) = true ->
  telegram w (length (requests w)) = Accepted result ->
  editMessage text w =
    (withRequests
       (requests w ++
        [{| method := editMessageTextMethod; chat_id := chatId (state w);
            message_id := messageId (state w); text := text;
            markdown := true |}]) w,
     Normal tt).
Proof.
  intros Ht H. unfold editMessage. run_task. rewrite Ht. cbn.
  run_task. by rewrite H.
Qed.

(** The operations the handler submits: a send, or an edit of an existing
    message. *)
Definition submittable (d : RL.Thunk) (w : t) : Prop :=
  match d with
  | RL.SendMessage _ => True
  | RL.EditMessage _ => SM.truthy (messageId (state w)) = true
  | RL.Opaque _ => False
  end.

Definition answerTo (d : RL.Thunk) (result : RL.Response) : RL.Response :=
  match d with
  | RL.SendMessage _ => result
  | _ => None
  end.

Lemma runThunk_accepted d w result :
  submittable d w ->
  telegram w (length (requests w)) = Accepted result ->
  exists call,
    runThunk d w =
      (withRequests (requests w ++ [call]) w, Normal (answerTo d result)).
Proof.
  intros Hd H. destruct d as [text|text|tag]; simpl in Hd; [| |done].
  - eexists. simpl. by apply sendMessage_accepted.
  - eexists. simpl. unfold mbind, task_bind.
    by rewrite (editMessage_accepted text w result Hd H).
Qed.

Lemma drive_unfold fuel w :
  drive (S fuel) w =
  match RL.continuation (rateLimiter w) with
  | RL.NotRunning => w
  | RL.AwaitTokenDelay _ =>
      let w := fst (delay (tokenWait w) w) in
      drive fuel (limiterStep (RL.TimerFires (clock w)) w)
  | RL.AwaitRequest request _ =>
      let (w, c) := runThunk (RL.data request) w in
      drive fuel
        (limiterStep
           (RL.RequestSettles (clock w) (jitterSample w) (outcomeOf c)) w)
  | RL.AwaitBackoffDelay _ ms =>
      let w := fst (delay (timerOf ms) w) in
      drive fuel (limiterStep (RL.TimerFires (clock w)) w)
  | RL.AwaitExecuteRequest =>
      drive fuel (limiterStep (RL.ProcessQueueResumes (clock w)) w)
  end.
Proof. reflexivity. Qed.

(** From the invocation of the operation to the limiter at rest. *)
Lemma drive_request fuel w l0 request startTime result :
  RL.continuation (rateLimiter w) = RL.AwaitRequest request startTime ->
  RL.serving l0 (rateLimiter w) ->
  0 < maxQueueSize (RL.config l0) ->
  submittable (RL.data request) w ->
  telegram w (length (requests w)) = Accepted result ->
  exists w' call,
    drive (S (S (S fuel))) w = w' /\
    sameHandler w w' /\ requests w' = requests w ++ [call] /\
    RL.atRest (rateLimiter w') /\
    RL.config (rateLimiter w') = RL.config l0 /\
    RL.settled (rateLimiter w') =
      RL.settled l0 ++
      [(request, RL.Fulfilled (answerTo (RL.data request) result))].
Proof.
  intros Hk (Hs & Hq & Hp & Hc) Hmax Hd Hreply.
  destruct (runThunk_accepted _ w result Hd Hreply) as [call Hrun].
  rewrite drive_unfold, Hk, Hrun. cbn [outcomeOf].
  set (w1 := withRequests (requests w ++ [call]) w).
  set (ev1 := RL.RequestSettles (clock w1) (jitterSample w1)
                (RL.Fulfilled (answerTo (RL.data request) result))).
  unfold ev1.
  destruct (RL.settle_fulfilled (rateLimiter w) request startTime (clock w1)
              (jitterSample w1) (answerTo (RL.data request) result) Hk)
    as (Hs2 & Hq2 & Hp2 & Hc2 & Hk2).
  fold ev1 in Hs2, Hq2, Hp2, Hc2, Hk2 |- *.
  set (w2 := limiterStep ev1 w1).
  assert (Hl2 : rateLimiter w2 = RL.step (rateLimiter w) ev1) by done.
  rewrite drive_unfold, Hl2, Hk2.
  rewrite Hq in Hq2.
  destruct (RL.resume_with_empty_queue (RL.step (rateLimiter w) ev1)
              (clock w2) Hk2 Hq2) as (Hs3 & Hq3 & Hp3 & Hc3 & Hk3).
  set (w3 := limiterStep (RL.ProcessQueueResumes (clock w2)) w2).
  assert (Hl3 : rateLimiter w3 =
                RL.step (RL.step (rateLimiter w) ev1)
                  (RL.ProcessQueueResumes (clock w2))) by done.
  rewrite drive_unfold, Hl3, Hk3.
  exists w3, call. split; [done|]. split; [by repeat split|].
  split; [done|]. rewrite Hl3. split; [|split].
  - unfold RL.atRest. by rewrite Hk3, Hp3, Hq3, Hc3, Hc2, Hc.
  - by rewrite Hc3, Hc2, Hc.
  - by rewrite Hs3, Hs2, Hs.
Qed.

Lemma sameHandler_trans w1 w2 w3 :
  sameHandler w1 w2 -> sameHandler w2 w3 -> sameHandler w1 w3.
Proof.
  unfold sameHandler.
  intros (-> & -> & -> & -> & -> & -> & -> & -> & ->)
         (-> & -> & -> & -> & -> & -> & -> & -> & ->).
  by repeat split.
Qed.

Lemma sameHandler_limiterStep ev w : sameHandler w (limiterStep ev w).
Proof. by repeat split. Qed.

Lemma sameHandler_delay ms w : sameHandler w (fst (delay ms w)).
Proof. by repeat split. Qed.

(** [rateLimiter.execute] on a limiter at rest, when Telegram accepts the
    request: one request is made and the limiter is at rest again. *)
Lemma rateLimiterExecute_accepted d p w result :
  RL.atRest (rateLimiter w) -> submittable d w ->
  telegram w (length (requests w)) = Accepted result ->
  exists w' call,
    rateLimiterExecute d p w = (w', Normal (answerTo d result)) /\
    sameHandler w w' /\ requests w' = requests w ++ [call] /\
    RL.atRest (rateLimiter w').
Proof.
  intros Hrest Hd Hreply. unfold rateLimiterExecute.
  set (i := ("req_" +:+ pretty (clock w))%string).
  set (request := {| RL.id := i; RL.priority := p; RL.timestamp := clock w;
                     RL.retryCount := 0; RL.data := d |}).
  destruct (RL.execute_atRest (rateLimiter w) (clock w) i d p 0 Hrest)
    as [Hserv Hk].
  pose proof Hrest as (_ & _ & _ & Hmax).
  set (w1 := limiterStep (RL.Execute (clock w) i d p 0) w) in *.
  assert (Hl1 : rateLimiter w1 =
                RL.step (rateLimiter w) (RL.Execute (clock w) i d p 0)) by done.
  rewrite <- Hl1 in Hserv, Hk.
  pose proof (sameHandler_limiterStep (RL.Execute (clock w) i d p 0) w) as H1.
  fold w1 in H1.
  assert (Hfinal : exists w' call,
             drive driveFuel w1 = w' /\ sameHandler w w' /\
             requests w' = requests w ++ [call] /\
             RL.atRest (rateLimiter w') /\
             RL.settled (rateLimiter w') =
               RL.settled (rateLimiter w) ++
               [(request, RL.Fulfilled (answerTo d result))]).
  { destruct Hk as [Hk|Hk].
    - destruct (drive_request 61 w1 (rateLimiter w) request (clock w) result
                  Hk Hserv Hmax Hd Hreply)
        as (w' & call & Hdrive & Hsame & Hreq & Hrest' & _ & Hset).
      exists w', call. split; [done|].
      split; [by apply (sameHandler_trans w w1 w')|].
      split; [exact Hreq|]. split; [exact Hrest'|]. exact Hset.
    - unfold driveFuel. rewrite drive_unfold, Hk. cbn zeta.
      set (w2 := fst (delay (tokenWait w1) w1)).
      destruct (RL.timer_after_token_wait (rateLimiter w1) request (clock w2)
                  Hk) as (Hs2 & Hq2 & Hp2 & Hc2 & Hk2).
      set (w3 := limiterStep (RL.TimerFires (clock w2)) w2).
      assert (Hl3 : rateLimiter w3 =
                    RL.step (rateLimiter w1) (RL.TimerFires (clock w2)))
        by done.
      assert (Hserv3 : RL.serving (rateLimiter w) (rateLimiter w3)).
      { destruct Hserv as (Hs & Hq & Hp & Hc). rewrite Hl3.
        unfold RL.serving. by rewrite Hs2, Hq2, Hp2, Hc2. }
      rewrite <- Hl3 in Hk2.
      assert (H3 : sameHandler w w3).
      { apply (sameHandler_trans w w1 w3); [done|].
        apply (sameHandler_trans w1 w2 w3).
        - apply sameHandler_delay.
        - apply sameHandler_limiterStep. }
      destruct (drive_request 60 w3 (rateLimiter w) request (clock w2) result
                  Hk2 Hserv3 Hmax Hd Hreply)
        as (w' & call & Hdrive & Hsame & Hreq & Hrest' & _ & Hset).
      exists w', call. split; [done|].
      split; [by apply (sameHandler_trans w w3 w')|].
      split; [exact Hreq|]. split; [exact Hrest'|]. exact Hset. }
  destruct Hfinal as (w' & call & -> & Hsame & Hreq & Hrest' & Hset).
  exists w', call. rewrite Hset, lookup_app_r by done.
  rewrite Nat.sub_diag. simpl. done.
Qed.

(** *** The update path skips, or makes one request *)

(** The update path makes no request when the text to send is the text last
    sent: the world stays as it is. *)
Lemma updateMessage_unchanged w :
  lastSentText (state w) = outgoingText w ->
  updateMessage w = (w, Normal tt).
Proof.
  intros H. unfold updateMessage. run_task. by rewrite H, String.eqb_refl.
Qed.

(** What an update that Telegram accepts leaves behind. *)
Definition updated (w w' : t) : Prop :=
  currentText (state w') = currentText (state w) /\
  lastSentText (state w') = outgoingText w /\
  updateQueue w' = updateQueue w /\ config w' = config w /\
  sessionId w' = sessionId w /\ telegram w' = telegram w /\
  remoteCalls w' = S (remoteCalls w) /\
  RL.atRest (rateLimiter w').

Lemma updateMessage_accepted w result :
  lastSentText (state w) <> outgoingText w ->
  RL.atRest (rateLimiter w) ->
  telegram w (length (requests w)) = Accepted result ->
  (SM.truthy (messageId (state w)) = false -> SM.truthy result = true) ->
  exists w', updateMessage w = (w', Normal tt) /\ updated w w'.
Proof.
  intros Hne Hrest Hreply Hid. unfold updateMessage. run_task.
  destruct (String.eqb_spec (lastSentText (state w)) (outgoingText w));
    [done|].
  destruct (SM.truthy (messageId (state w))) eqn:Et; cbn [negb].
  - destruct (rateLimiterExecute_accepted
                (RL.EditMessage (outgoingText w)) RL.NORMAL w result
                Hrest Et Hreply)
      as (w1 & call & -> & Hsame & Hreq & Hrest1).
    destruct Hsame as (Hst & Hcfg & Hq & _ & Hsid & _ & _ & _ & Htg).
    unfold recordVersion, withSession, resetRetryCount. run_task.
    eexists. split; [reflexivity|].
    unfold updated, remoteCalls.
    cbn. rewrite Hsid.
    destruct (sessionId w); cbn;
      (split; [by rewrite Hst|]); do 5 (split; [done|]);
      (split; [rewrite Hreq, length_app; cbn; lia | exact Hrest1]).
  - specialize (Hid eq_refl).
    destruct (rateLimiterExecute_accepted
                (RL.SendMessage (outgoingText w)) RL.HIGH w result
                Hrest I Hreply)
      as (w1 & call & -> & Hsame & Hreq & Hrest1).
    destruct Hsame as (Hst & Hcfg & Hq & _ & Hsid & _ & _ & _ & Htg).
    cbn [answerTo]. rewrite Hid.
    unfold recordVersion, withSession, resetRetryCount. run_task.
    eexists. split; [reflexivity|].
    unfold updated, remoteCalls.
    cbn. rewrite Hsid.
    destruct (sessionId w); cbn;
      (split; [by rewrite Hst|]); do 5 (split; [done|]);
      (split; [rewrite Hreq, length_app; cbn; lia | exact Hrest1]).
Qed.

(** *** [finalize] *)

Lemma processUpdateQueue_empty w :
  updateQueue w = [] -> processUpdateQueue w = (w, Normal tt).
Proof. intros H. unfold processUpdateQueue. run_task. by rewrite H. Qed.

Lemma outgoingText_ext w w' :
  currentText (state w') = currentText (state w) -> config w' = config w ->
  outgoingText w' = outgoingText w.
Proof. unfold outgoingText. by intros -> ->. Qed.

(** What [finalize] keeps, and the text it leaves as the last sent one. *)
Definition finalized (w w' : t) (sent : string) : Prop :=
  currentText (state w') = currentText (state w) /\ config w' = config w /\
  updateQueue w' = [] /\ lastSentText (state w') = sent.

(** The world in which [finalize] reaches its test. *)
Definition finalizing (w : t) : t :=
  match sessionId w with
  | Some id =>
      withStateManager
        (fst (SM.updateSessionStatus (clock w) id SM.FINALIZING
                (stateManager w))) w
  | None => w
  end.

Lemma finalizing_same w :
  state (finalizing w) = state w /\ config (finalizing w) = config w /\
  updateQueue (finalizing w) = updateQueue w /\
  rateLimiter (finalizing w) = rateLimiter w /\
  telegram (finalizing w) = telegram w /\
  requests (finalizing w) = requests w /\
  sessionId (finalizing w) = sessionId w.
Proof. unfold finalizing. by destruct (sessionId w) eqn:E. Qed.

(** With nothing buffered, [finalize] makes no request when there is no
    text, when the text is the last sent one, or when the text to send is
    the last sent one. *)
Lemma finalize_nothing_to_send w :
  updateQueue w = [] ->
  currentText (state w) = ""%string \/
  currentText (state w) = lastSentText (state w) \/
  lastSentText (state w) = outgoingText w ->
  exists w',
    finalize None w = (w', Normal tt) /\ requests w' = requests w /\
    finalized w w' (lastSentText (state w)).
Proof.
  intros Hq Hcase.
  destruct (finalizing_same w) as (Hst & Hcfg & Hq' & _ & _ & Hreq & Hsid).
  unfold finalize, withSession. run_task. fold (finalizing w).
  rewrite processUpdateQueue_empty by congruence.
  rewrite Hst.
  assert (Hskip :
    (if (0 <? String.length (currentText (state w)))%nat &&
        negb (String.eqb (currentText (state w)) (lastSentText (state w)))
     then updateMessage else mret tt) (finalizing w) =
    (finalizing w, Normal tt)).
  { destruct (0 <? String.length (currentText (state w)))%nat eqn:El;
      [|done].
    destruct (String.eqb_spec (currentText (state w))
                (lastSentText (state w))) as [|Hne]; [done|].
    simpl. apply updateMessage_unchanged.
    rewrite Hst, (outgoingText_ext w (finalizing w)) by congruence.
    destruct Hcase as [H0|[H1|H2]]; [|done|done].
    rewrite H0 in El. done. }
  unfold mret, task_ret in Hskip. rewrite Hskip. cbn. rewrite Hst, Hsid.
  eexists. split; [reflexivity|].
  unfold finalized.
  destruct (sessionId w); cbn; rewrite ?Hreq, ?Hcfg, ?Hq', ?Hst; by repeat split.
Qed.

(** With nothing buffered and a text that differs from the last sent one,
    [finalize] makes one request when Telegram accepts it. *)
Lemma finalize_one_request w result :
  updateQueue w = [] ->
  currentText (state w) <> ""%string ->
  currentText (state w) <> lastSentText (state w) ->
  lastSentText (state w) <> outgoingText w ->
  RL.atRest (rateLimiter w) ->
  telegram w (length (requests w)) = Accepted result ->
  (SM.truthy (messageId (state w)) = false -> SM.truthy result = true) ->
  exists w',
    finalize None w = (w', Normal tt) /\
    remoteCalls w' = S (remoteCalls w) /\
    finalized w w' (outgoingText w).
Proof.
  intros Hq Htext Hne Hout Hrest Hreply Hid.
  destruct (finalizing_same w) as (Hst & Hcfg & Hq' & Hrl & Htg & Hreq & Hsid).
  unfold finalize, withSession. run_task. fold (finalizing w).
  rewrite processUpdateQueue_empty by congruence.
  rewrite Hst.
  assert (El : (0 <? String.length (currentText (state w)))%nat = true).
  { destruct (currentText (state w)); [done|]. done. }
  rewrite El.
  destruct (String.eqb_spec (currentText (state w)) (lastSentText (state w)));
    [done|].
  cbn [andb negb].
  destruct (updateMessage_accepted (finalizing w) result)
    as (w1 & -> & Hc1 & Hl1 & Hq1 & Hcfg1 & Hsid1 & _ & Hn1 & _).
  { rewrite Hst, (outgoingText_ext w (finalizing w)) by congruence. done. }
  { by rewrite Hrl. }
  { by rewrite Htg, Hreq. }
  { by rewrite Hst. }
  rewrite (outgoingText_ext w (finalizing w)) in Hl1 by congruence.
  unfold remoteCalls in *. rewrite Hreq in Hn1.
  cbn. eexists. split; [reflexivity|].
  unfold finalized.
  destruct (sessionId w1); cbn;
    rewrite ?Hc1, ?Hl1, ?Hq1, ?Hcfg1, ?Hq', ?Hst, ?Hcfg, ?El; cbn;
    by repeat split.
Qed.

(** The world with the final text, when one is given, in the place of the
    accumulated text and of the buffered fragments. *)
Definition supplied (finalText : option string) (w : t) : t :=
  match finalText with
  | Some final =>
      if (0 <? String.length final)%nat
      then withUpdateQueue [] (withState (withCurrentText final (state w)) w)
      else w
  | None => w
  end.

Lemma supplied_same finalText w :
  rateLimiter (supplied finalText w) = rateLimiter w /\
  telegram (supplied finalText w) = telegram w /\
  requests (supplied finalText w) = requests w /\
  messageId (state (supplied finalText w)) = messageId (state w).
Proof.
  unfold supplied. destruct finalText as [final|]; [|done].
  by destruct (0 <? String.length final)%nat.
Qed.

Lemma finalize_supplied finalText w :
  finalize finalText w = finalize None (supplied finalText w).
Proof.
  destruct finalText as [final|]; [|done]. unfold supplied.
  destruct (0 <? String.length final)%nat eqn:El.
  - unfold finalize at 1. rewrite El.
    unfold finalize, withSession, processUpdateQueue. run_task.
    destruct (sessionId w) eqn:Es; cbn -[updateMessage]; rewrite ?Es;
      reflexivity.
  - unfold finalize. by rewrite El.
Qed.

(** C7, as the code has it. The update path makes no request when the
    formatted text is the text last sent. With no fragment buffered,
    [finalize] makes no request when the accumulated text is empty or is the
    text last sent. With no fragment buffered (or a final text given), a
    rate limiter at rest and a request that Telegram accepts, [finalize]
    makes one request exactly when the text is not empty, differs from the
    text last sent and its formatted form differs from it too, and a second
    [finalize] makes none: two calls in succession make one request at
    most. *)
Theorem finalize_twice_one_request_at_most
  (w : t) (finalText : option string) (result : RL.Response) :
  (lastSentText (state w) = outgoingText w ->
   updateMessage w = (w, Normal tt)) /\
  (updateQueue w = [] ->
   currentText (state w) = ""%string \/
   currentText (state w) = lastSentText (state w) ->
   exists w',
     finalize None w = (w', Normal tt) /\ requests w' = requests w) /\
  (updateQueue (supplied finalText w) = [] ->
   RL.atRest (rateLimiter w) ->
   telegram w (length (requests w)) = Accepted result ->
   (SM.truthy (messageId (state w)) = false -> SM.truthy result = true) ->
   exists w1 w2,
     finalize finalText w = (w1, Normal tt) /\
     finalize None w1 = (w2, Normal tt) /\
     (remoteCalls w1 <= S (remoteCalls w))%nat /\
     remoteCalls w2 = remoteCalls w1 /\
     (remoteCalls w1 = S (remoteCalls w) <->
      currentText (state (supplied finalText w)) <> ""%string /\
      currentText (state (supplied finalText w)) <>
        lastSentText (state (supplied finalText w)) /\
      lastSentText (state (supplied finalText w)) <>
        outgoingText (supplied finalText w))).
Proof.
  split; [apply updateMessage_unchanged|]. split.
  - intros Hq Hcase.
    destruct (finalize_nothing_to_send w Hq) as (w' & Hf & Hreq & _).
    { destruct Hcase; auto. }
    by exists w'.
  - rewrite finalize_supplied.
    destruct (supplied_same finalText w) as (Hrl & Htg & Hreq & Hmid).
    set (w0 := supplied finalText w) in *.
    intros Hq Hrest Hreply Hid.
    assert (Hcalls : remoteCalls w0 = remoteCalls w).
    { unfold remoteCalls. by rewrite Hreq. }
    rewrite <- Hcalls.
    destruct (decide (currentText (state w0) = ""%string)) as [H0|H0];
      [|destruct (decide (currentText (state w0) = lastSentText (state w0)))
          as [H1|H1];
        [|destruct (decide (lastSentText (state w0) = outgoingText w0))
            as [H2|H2]]].
    1-3: destruct (finalize_nothing_to_send w0 Hq)
           as (w1 & Hf1 & Hreq1 & Hc1 & Hcfg1 & Hq1 & Hl1); [by auto|];
         destruct (finalize_nothing_to_send w1 Hq1)
           as (w2 & Hf2 & Hreq2 & _);
         [ rewrite Hc1, Hl1, (outgoingText_ext w0 w1) by done; by auto
         | exists w1, w2; unfold remoteCalls; rewrite Hreq2, Hreq1;
           repeat split; try done; try lia; try tauto ].
    destruct (finalize_one_request w0 result Hq H0 H1 H2)
      as (w1 & Hf1 & Hn1 & Hc1 & Hcfg1 & Hq1 & Hl1).
    { by rewrite Hrl. }
    { by rewrite Htg, Hreq. }
    { by rewrite Hmid. }
    destruct (finalize_nothing_to_send w1 Hq1) as (w2 & Hf2 & Hreq2 & _).
    { right. right. by rewrite Hl1, (outgoingText_ext w0 w1). }
    exists w1, w2. unfold remoteCalls in *. rewrite Hreq2, Hn1.
    repeat split; try done; lia.
Qed.
(** *** The text and the buffered chunks *)

(** [pause()] *)
Definition pause : Task unit :=
  modifyState (withIsPaused true);;
  withSession (fun clock id m =>
    fst (SM.updateSessionStatus clock id SM.PAUSED m)).

(** [resume()] *)
Definition resume : Task unit :=
  modifyState (withIsPaused false);;
  withSession (fun clock id m =>
    fst (SM.updateSessionStatus clock id SM.ACTIVE m));;
  processUpdateQueue.

(** [stop()] *)
Definition stop : Task unit :=
  modifyState (fun s => withIsPaused false (withIsActive false s));;
  modify (withUpdateQueue []).

(** The accumulated text and the buffered chunks of [w'] are those of
    [w]. *)
Definition sameText (w w' : t) : Prop :=
  currentText (state w') = currentText (state w) /\
  updateQueue w' = updateQueue w.

(** A task that leaves the text and the buffered chunks alone, however it
    completes. *)
Definition keepsText {A} (m : Task A) : Prop :=
  forall w, sameText w (fst (m w)).

Lemma sameText_refl w : sameText w w.
Proof. done. Qed.

Lemma sameText_trans w1 w2 w3 :
  sameText w1 w2 -> sameText w2 w3 -> sameText w1 w3.
Proof. unfold sameText. intros [-> ->] [-> ->]. done. Qed.

Lemma keepsText_ret {A} (a : A) : keepsText (mret a).
Proof. intros w. apply sameText_refl. Qed.

Lemma keepsText_throw {A} (e : Error) : keepsText (throw (A := A) e).
Proof. intros w. apply sameText_refl. Qed.

Lemma keepsText_get {A} (f : t -> A) : keepsText (get f).
Proof. intros w. apply sameText_refl. Qed.

Lemma keepsText_modify (f : t -> t) :
  (forall w, sameText w (f w)) -> keepsText (modify f).
Proof. intros H w. apply H. Qed.

Lemma keepsText_bind {A B} (m : Task A) (f : A -> Task B) :
  keepsText m -> (forall a, keepsText (f a)) -> keepsText (m ≫= f).
Proof.
  intros Hm Hf w. unfold mbind, task_bind.
  specialize (Hm w). destruct (m w) as [w' [a|e]]; simpl in *; [|done].
  eapply sameText_trans; [exact Hm | apply Hf].
Qed.

Lemma keepsText_tryCatch {A} (body : Task A) (handler : Error -> Task A) :
  keepsText body -> (forall e, keepsText (handler e)) ->
  keepsText (tryCatch body handler).
Proof.
  intros Hm Hh w. unfold tryCatch.
  specialize (Hm w). destruct (body w) as [w' [a|e]]; simpl in *; [done|].
  eapply sameText_trans; [exact Hm | apply Hh].
Qed.

Lemma keepsText_makeApiRequest call : keepsText (makeApiRequest call).
Proof.
  intros w. unfold makeApiRequest. by destruct (telegram w _).
Qed.

Lemma keepsText_delay ms : keepsText (delay ms).
Proof. intros w. done. Qed.

Lemma keepsText_withSession f : keepsText (withSession f).
Proof. intros w. unfold withSession, modify. simpl. by destruct (sessionId w). Qed.

Lemma keepsText_modifyState (f : StreamState -> StreamState) :
  (forall s, currentText (f s) = currentText s) -> keepsText (modifyState f).
Proof. intros H w. split; [apply H | done]. Qed.

Ltac keeps_text_with known :=
  repeat first
    [ known
    | apply keepsText_ret | apply keepsText_throw | apply keepsText_get
    | apply keepsText_makeApiRequest | apply keepsText_delay
    | apply keepsText_withSession
    | apply keepsText_modifyState; intros; reflexivity
    | apply keepsText_modify; intros; split; reflexivity
    | apply keepsText_bind | apply keepsText_tryCatch
    | match goal with
      | |- keepsText (if ?c then _ else _) => destruct c
      | |- keepsText (match ?x with _ => _ end) => destruct x
      | |- forall _, _ => intros ?
      end ].

Ltac keeps_text := keeps_text_with fail.

Lemma keepsText_sendMessage text : keepsText (sendMessage text).
Proof. unfold sendMessage. keeps_text. Qed.

Lemma keepsText_editMessage text : keepsText (editMessage text).
Proof. unfold editMessage. keeps_text. Qed.

Lemma keepsText_runThunk d : keepsText (runThunk d).
Proof.
  destruct d; simpl;
    [apply keepsText_sendMessage | | apply keepsText_ret].
  apply keepsText_bind; [apply keepsText_editMessage|].
  intros. apply keepsText_ret.
Qed.

Lemma sameText_limiterStep ev w : sameText w (limiterStep ev w).
Proof. done. Qed.

Lemma sameText_drive fuel : forall w, sameText w (drive fuel w).
Proof.
  induction fuel as [|fuel IH]; intros w; [done|].
  rewrite drive_unfold. destruct (RL.continuation (rateLimiter w)).
  - done.
  - eapply sameText_trans; [|apply IH]. done.
  - pose proof (keepsText_runThunk (RL.data request) w) as H.
    destruct (runThunk (RL.data request) w) as [w1 c]. simpl in H.
    eapply sameText_trans; [exact H|].
    eapply sameText_trans; [|apply IH]. done.
  - eapply sameText_trans; [|apply IH]. done.
  - eapply sameText_trans; [|apply IH]. done.
Qed.

Lemma keepsText_rateLimiterExecute d p : keepsText (rateLimiterExecute d p).
Proof.
  intros w. unfold rateLimiterExecute.
  match goal with
  | |- context [drive driveFuel ?w0] =>
      pose proof (sameText_drive driveFuel w0) as H;
      assert (H0 : sameText w w0) by done
  end.
  pose proof (sameText_trans _ _ _ H0 H) as Hw.
  by destruct (_ !! _) as [[? [?|?|?]]|].
Qed.

Lemma keepsText_handleStreamError error context :
  keepsText (handleStreamError error context).
Proof.
  unfold handleStreamError, executeRecovery, executeRetryStrategy,
    executeFallbackStrategy, executeRecreateStrategy.
  keeps_text_with
    ltac:(first [apply keepsText_editMessage | apply keepsText_sendMessage]).
Qed.

Lemma keepsText_updateMessage : keepsText updateMessage.
Proof.
  unfold updateMessage, recordVersion, resetRetryCount, now.
  keeps_text_with
    ltac:(first [apply keepsText_rateLimiterExecute
                | apply keepsText_handleStreamError]).
Qed.

(** [s.substring(0, s.length - chunk.length)] takes back [s += chunk]. *)
Lemma substring_append_prefix (s chunk : string) :
  String.substring 0 (String.length s) (s +:+ chunk) = s.
Proof.
  induction s as [|a s IH]; simpl.
  - by destruct chunk.
  - by rewrite IH.
Qed.

Lemma length_of_append (s1 s2 : string) :
  String.length (s1 +:+ s2) = (String.length s1 + String.length s2)%nat.
Proof. induction s1 as [|a s1 IH]; simpl; [done|]. by rewrite IH. Qed.

Lemma withoutChunk_append (chunk s : string) :
  withoutChunk chunk (s +:+ chunk) = s.
Proof.
  unfold withoutChunk, prefixOf. rewrite length_of_append.
  replace (Z.to_nat _) with (String.length s) by lia.
  apply substring_append_prefix.
Qed.

(** X18. [onStreamChunk] never fails, and it neither loses nor repeats the
    fragment: the fragment ends up either at the end of the buffered
    fragments, the text being as before, or at the end of the text, the
    buffer being as before. When the handler is inactive or paused, or when
    less than [minUpdateInterval] has passed since the last update, the
    fragment is buffered, nothing is sent to Telegram and the state of the
    stream is unchanged. *)
Theorem onStreamChunk_appends_or_buffers (chunk : string) (w : t) :
  let w' := fst (onStreamChunk chunk w) in
  snd (onStreamChunk chunk w) = Normal tt /\
  ((currentText (state w') = currentText (state w) /\
    updateQueue w' = updateQueue w ++ [chunk]) \/
   (currentText (state w') = (currentText (state w) +:+ chunk)%string /\
    updateQueue w' = updateQueue w)) /\
  (isActive (state w) = false \/ isPaused (state w) = true \/
   clock w - lastUpdateTime (state w) < minUpdateInterval (config w) ->
   updateQueue w' = updateQueue w ++ [chunk] /\
   state w' = state w /\ requests w' = requests w).
Proof.
  unfold onStreamChunk.
  generalize keepsText_updateMessage. generalize updateMessage.
  intros u Hk. unfold withSession. run_task.
  destruct (isActive (state w)) eqn:Ea, (isPaused (state w)) eqn:Ep; simpl;
    try (split; [done|]; split; [by left|]; intros _; done).
  set (w0 := match sessionId w with Some _ => _ | None => _ end).
  assert (H0 : state w0 = state w /\ updateQueue w0 = updateQueue w /\
               requests w0 = requests w /\ clock w0 = clock w /\
               config w0 = config w)
    by (subst w0; by destruct (sessionId w)).
  destruct H0 as (Hs & Hq & Hr & Hc & Hcfg). rewrite Hs, Hc, Hcfg.
  destruct (_ <? _) eqn:Et; simpl.
  - rewrite Hs, Hq, Hr. split; [done|]. split; [by left|]. done.
  - match goal with
    | |- context [u ?w1] => specialize (Hk w1); destruct (u w1) as [w2 [[]|e]]
    end; destruct Hk as [Hk1 Hk2]; simpl in *.
    + split; [done|]. split; [right; by rewrite Hk1, Hk2, Hs, Hq|].
      intros [H|[H|H]]; [done|done|lia].
    + split; [done|].
      split; [left; by rewrite Hk1, Hk2, Hs, Hq, withoutChunk_append|].
      intros [H|[H|H]]; [done|done|lia].
Qed.

Lemma processUpdateQueueLoop_text turns : forall w,
  snd (processUpdateQueueLoop turns w) = Normal tt /\
  exists taken,
    updateQueue w =
      taken ++ updateQueue (fst (processUpdateQueueLoop turns w)) /\
    currentText (state (fst (processUpdateQueueLoop turns w))) =
      foldl String.append (currentText (state w)) taken.
Proof.
  induction turns as [|turns IH]; intros w.
  { split; [done|]. by exists []. }
  cbn [processUpdateQueueLoop]. unfold modifyState, delay, now. run_task.
  destruct (updateQueue w) as [|chunk rest] eqn:Eq.
  { split; [done|]. by exists []. }
  match goal with
  | |- context [updateMessage ?w1] =>
      pose proof (keepsText_updateMessage w1) as [Hk1 Hk2];
      destruct (updateMessage w1) as [w2 [[]|e]]
  end; simpl in Hk1, Hk2.
  - destruct (0 <? _)%nat; cbn beta iota zeta;
      match goal with
      | |- context [processUpdateQueueLoop turns ?w3] =>
          destruct (IH w3) as (Hn & taken & Hq & Ht)
      end;
      simpl in Hq, Ht; rewrite Hk2 in Hq; rewrite Hk1 in Ht;
      (split; [exact Hn|]); exists (chunk :: taken);
      (split; [by rewrite Hq at 1 | exact Ht]).
  - simpl. rewrite Hk1, Hk2, withoutChunk_append.
    split; [done|]. by exists [].
Qed.

(** As many turns as the queue is long end the loop: further turns change
    nothing. *)
Lemma processUpdateQueueLoop_enough turns : forall extra w,
  (length (updateQueue w) <= turns)%nat ->
  processUpdateQueueLoop (turns + extra) w = processUpdateQueueLoop turns w.
Proof.
  induction turns as [|turns IH]; intros extra w Hl.
  { destruct extra as [|extra]; [done|].
    cbn [Nat.add processUpdateQueueLoop]. run_task.
    destruct (updateQueue w); [done | simpl in Hl; lia]. }
  cbn [Nat.add processUpdateQueueLoop]. unfold modifyState, delay, now.
  run_task.
  destruct (updateQueue w) as [|chunk rest] eqn:Eq; [done|].
  match goal with
  | |- context [updateMessage ?w1] =>
      pose proof (keepsText_updateMessage w1) as [_ Hk];
      destruct (updateMessage w1) as [w2 [[]|e]]
  end; simpl in Hk; [|done].
  destruct (0 <? _)%nat; cbn beta iota zeta;
    apply IH; simpl; rewrite Hk; simpl in Hl; lia.
Qed.

(** X19. [processUpdateQueue] never fails and keeps every buffered
    fragment: it moves a front part of the queue, fragment by fragment and
    in order, to the end of the text, and leaves the rest of the queue as it
    was. The loop has ended by then: more turns would change nothing. *)
Theorem processUpdateQueue_keeps_every_fragment (w : t) :
  let w' := fst (processUpdateQueue w) in
  snd (processUpdateQueue w) = Normal tt /\
  (exists taken,
     updateQueue w = taken ++ updateQueue w' /\
     currentText (state w') =
       foldl String.append (currentText (state w)) taken) /\
  (forall extra,
     processUpdateQueueLoop (length (updateQueue w) + extra) w =
       processUpdateQueue w).
Proof.
  unfold processUpdateQueue. run_task.
  destruct (processUpdateQueueLoop_text (length (updateQueue w)) w)
    as (Hn & Ht).
  split; [exact Hn|]. split; [exact Ht|].
  intros extra. by apply processUpdateQueueLoop_enough.
Qed.

(** The fragments of [chunks] arrive one after the other. *)
Fixpoint feed (chunks : list string) : Task unit :=
  match chunks with
  | [] => mret tt
  | chunk :: chunks' => onStreamChunk chunk;; feed chunks'
  end.

Lemma onStreamChunk_buffers chunk w :
  isActive (state w) = false \/ isPaused (state w) = true ->
  onStreamChunk chunk w =
    (withUpdateQueue (updateQueue w ++ [chunk]) w, Normal tt).
Proof.
  intros H. unfold onStreamChunk. run_task.
  by destruct H as [-> | ->]; [|destruct (isActive (state w))].
Qed.

Lemma feed_buffers chunks : forall w,
  isActive (state w) = false \/ isPaused (state w) = true ->
  feed chunks w = (withUpdateQueue (updateQueue w ++ chunks) w, Normal tt).
Proof.
  induction chunks as [|chunk chunks IH]; intros w H.
  { simpl. rewrite app_nil_r. by destruct w. }
  cbn [feed]. unfold mbind, task_bind. rewrite (onStreamChunk_buffers _ _ H).
  rewrite IH by done. simpl. by rewrite <- app_assoc.
Qed.

(** X20. Fragments that arrive between [pause] and [resume] are buffered
    behind those already waiting, in their order of arrival; the text is
    untouched and nothing is sent to Telegram. [resume] then never fails,
    and moves a front part of that buffer, in order, to the end of the
    text. *)
Theorem paused_fragments_wait_for_resume (chunks : list string) (w : t) :
  let w1 := fst ((pause;; feed chunks) w) in
  let w2 := fst (resume w1) in
  snd ((pause;; feed chunks) w) = Normal tt /\
  updateQueue w1 = updateQueue w ++ chunks /\
  currentText (state w1) = currentText (state w) /\
  requests w1 = requests w /\
  snd (resume w1) = Normal tt /\
  exists taken,
    updateQueue w ++ chunks = taken ++ updateQueue w2 /\
    currentText (state w2) =
      foldl String.append (currentText (state w)) taken.
Proof.
  intros w1 w2.
  assert (Hp : exists wp,
             pause w = (wp, Normal tt) /\
             updateQueue wp = updateQueue w /\
             currentText (state wp) = currentText (state w) /\
             requests wp = requests w /\ isPaused (state wp) = true).
  { unfold pause, withSession, modifyState. run_task.
    eexists. split; [reflexivity|]. simpl. by destruct (sessionId w). }
  destruct Hp as (wp & Hp & Hq & Ht & Hr & Hpa).
  assert (H1 : (pause;; feed chunks) w =
               (withUpdateQueue (updateQueue wp ++ chunks) wp, Normal tt)).
  { unfold mbind, task_bind. rewrite Hp. apply feed_buffers. by right. }
  subst w2 w1. rewrite H1. cbn [fst snd].
  repeat (split; [by rewrite ?Hq, ?Ht, ?Hr|]).
  unfold resume, processUpdateQueue, withSession, modifyState. run_task.
  match goal with
  | |- context [processUpdateQueueLoop ?n ?w3] =>
      destruct (processUpdateQueueLoop_text n w3) as (Hn & taken & Hq3 & Ht3);
      assert (H3 : updateQueue w3 = updateQueue w ++ chunks /\
                   currentText (state w3) = currentText (state w))
        by (by destruct (sessionId _); simpl; rewrite ?Hq, ?Ht);
      destruct H3 as [Hq' Ht']
  end.
  split; [exact Hn|]. exists taken.
  split; [by rewrite <- Hq' | by rewrite <- Ht'].
Qed.

(** X21. [stop] drops the buffered fragments, and the fragments that
    arrive after it are buffered: nothing of them reaches the text or
    Telegram. *)
Theorem stopped_handler_only_buffers (chunks : list string) (w : t) :
  let w' := fst ((stop;; feed chunks) w) in
  snd ((stop;; feed chunks) w) = Normal tt /\
  updateQueue w' = chunks /\
  currentText (state w') = currentText (state w) /\
  requests w' = requests w /\
  isActive (state w') = false.
Proof.
  intros w'. subst w'.
  unfold stop, modifyState, mbind, task_bind, modify. cbn beta iota.
  rewrite feed_buffers by (by left). done.
Qed.

(** What a task does to the counts of attempts and to the log of requests:
    the counts are as before, and at most [n] requests were added. *)
Definition requestsAtMost {A} (n : nat) (m : Task A) : Prop :=
  forall w,
    recoveryAttempts (fst (m w)) = recoveryAttempts w /\
    exists sent,
      requests (fst (m w)) = requests w ++ sent /\ (length sent <= n)%nat.

Ltac no_request := exists []; split; [by rewrite app_nil_r | simpl; lia].

Lemma requestsAtMost_makeApiRequest call :
  requestsAtMost 1 (makeApiRequest call).
Proof.
  intros w. unfold makeApiRequest.
  destruct (telegram w _); (split; [done|]); by eexists [_].
Qed.

Lemma requestsAtMost_sendMessage text : requestsAtMost 2 (sendMessage text).
Proof.
  intros w. unfold sendMessage. run_task.
  destruct (telegram w _); simpl.
  - destruct (telegram w _); (split; [done|]); eexists [_; _]; simpl;
      by rewrite <- app_assoc.
  - split; [done|]. eexists [_]. split; [done | simpl; lia].
Qed.

Lemma requestsAtMost_editMessage text : requestsAtMost 2 (editMessage text).
Proof.
  intros w. unfold editMessage. run_task.
  destruct (negb _); [split; [done|]; no_request|].
  run_task. destruct (telegram w _); simpl.
  - destruct (telegram w _); (split; [done|]); eexists [_; _]; simpl;
      by rewrite <- app_assoc.
  - split; [done|]. eexists [_]. split; [done | simpl; lia].
Qed.

Lemma executeRecovery_requests error context w :
  exists result,
    snd (executeRecovery error context w) = Normal result /\
    recoveryAttempts (fst (executeRecovery error context w)) =
      recoveryAttempts w /\
    (ErrorRecovery.strategy (ErrorRecovery.analyzeError error) =
       ErrorRecovery.ABORT \/
     (ErrorRecovery.strategy (ErrorRecovery.analyzeError error) =
        ErrorRecovery.RETRY /\
      ErrorRecovery.maxRetries (ErrorRecovery.analyzeError error) <=
        retryCount context) ->
     success result = false /\
     requests (fst (executeRecovery error context w)) = requests w) /\
    exists sent,
      requests (fst (executeRecovery error context w)) = requests w ++ sent /\
      (length sent <= 2)%nat.
Proof.
  unfold executeRecovery.
  destruct (ErrorRecovery.strategy _) eqn:Es; cbn zeta.
  - unfold executeRetryStrategy.
    destruct (_ <=? _) eqn:El.
    + eexists. split; [done|]. split; [done|]. split; [done|].
      no_request.
    + unfold delay. run_task.
      match goal with
      | |- context [editMessage ?text ?w1] =>
          destruct (requestsAtMost_editMessage text w1) as (Ha & sent & Hr & Hl);
          destruct (editMessage text w1) as [w2 [[]|e]]
      end; simpl in *;
        (eexists; split; [done|]; split; [done|]; split;
         [intros [H|[_ H]]; [done|lia] | exists sent; split; [done | lia]]).
  - unfold executeFallbackStrategy. run_task.
    match goal with
    | |- context [telegram w ?n] => destruct (telegram w n)
    end; simpl;
      (eexists; split; [done|]; split; [done|]; split;
       [intros [H|[H _]]; done | eexists [_]; split; [done | simpl; lia]]).
  - eexists. split; [done|]. split; [done|].
    split; [intros [H|[H _]]; done|]. no_request.
  - eexists. split; [done|]. split; [done|]. split; [done|].
    no_request.
  - unfold executeRecreateStrategy. run_task.
    match goal with
    | |- context [sendMessage ?text ?w1] =>
        destruct (requestsAtMost_sendMessage text w1) as (Ha & sent & Hr & Hl);
        destruct (sendMessage text w1) as [w2 [v|e]]
    end; simpl in *;
      (eexists; split; [done|]; split; [done|]; split;
       [intros [H|[H _]]; done | exists sent; split; [done | lia]]).
Qed.

(** X23. [handleStreamError] never fails. When the recovery succeeds the
    count of attempts for the message is dropped; when it does not, the
    count is one more than before. With the strategy abort, or the strategy
    retry once the count has reached the retries the analysis allows, the
    recovery fails without a request to Telegram; in every case it makes at
    most two requests. *)
Theorem handleStreamError_counts_the_attempts
  (error : Error) (context : RecoveryContext) (w : t) :
  let key := contextKey (contextChatId context) (contextMessageId context) in
  let attempts := default 0 (recoveryAttempts w !! key) in
  let analysis := ErrorRecovery.analyzeError error in
  let w' := fst (handleStreamError error context w) in
  exists result,
    snd (handleStreamError error context w) = Normal result /\
    recoveryAttempts w' =
      (if success result then delete key (recoveryAttempts w)
       else <[key := attempts + 1]> (recoveryAttempts w)) /\
    (ErrorRecovery.strategy analysis = ErrorRecovery.ABORT \/
     (ErrorRecovery.strategy analysis = ErrorRecovery.RETRY /\
      ErrorRecovery.maxRetries analysis <= attempts) ->
     success result = false /\ requests w' = requests w) /\
    exists sent,
      requests w' = requests w ++ sent /\ (length sent <= 2)%nat.
Proof.
  intros key attempts analysis w'. subst w'.
  unfold handleStreamError. fold key. run_task. fold attempts.
  match goal with
  | |- context [executeRecovery error ?c ?w1] =>
      destruct (executeRecovery_requests error c w1)
        as (result & Hn & Ha & Hab & sent & Hr & Hl);
      destruct (executeRecovery error c w1) as [w2 r]
  end.
  simpl in Hn, Ha, Hab, Hr. subst r. exists result.
  destruct (success result) eqn:Es; simpl.
  - split; [done|]. rewrite Ha, delete_insert_eq. split; [done|].
    split; [|by exists sent].
    intros H. by destruct (Hab H).
  - split; [done|]. split; [done|]. split; [|by exists sent].
    intros H. by destruct (Hab H).
Qed.

(** X24. [initialize] never fails and asks nothing of Telegram. It leaves
    the handler active with an empty text, an empty buffer and no message,
    and opens a session of its own in the state manager: the session of the
    handler's chat and user, started at the current time and ACTIVE. What
    was sent last, and whether the handler is paused, stay as they were. *)
Theorem initialize_opens_an_active_session
  (random : string) (metadata : gmap string SM.JsValue) (w : t) :
  let w' := fst (initialize random metadata w) in
  let id := SM.generateSessionId (clock w) random (chatId (state w)) (userId w)
  in
  snd (initialize random metadata w) = Normal tt /\
  isActive (state w') = true /\ currentText (state w') = ""%string /\
  updateQueue w' = [] /\ messageId (state w') = None /\
  lastUpdateTime (state w') = 0 /\
  lastSentText (state w') = lastSentText (state w) /\
  isPaused (state w') = isPaused (state w) /\
  requests w' = requests w /\
  sessionId w' = Some id /\
  SM.getSession id (stateManager w') =
    Some {| SM.sessionId := id; SM.chatId := chatId (state w);
            SM.userId := userId w; SM.startTime := clock w;
            SM.lastActivity := clock w; SM.status := SM.ACTIVE;
            SM.messageId := None; SM.parentMessageId := None;
            SM.metadata := metadata |}.
Proof.
  intros w' id. subst w'.
  unfold initialize, withSession, modifyState. run_task. cbn [fst snd].
  repeat (split; [done|]).
  cbn [sessionId stateManager withSessionId withStateManager clock].
  pose proof (SM.createSession_stores (clock w) random (chatId (state w))
                (userId w) metadata (stateManager w)) as [Hs _].
  cbv zeta in Hs. fold id in Hs.
  unfold SM.getSession, SM.updateSessionStatus.
  cbn [state chatId withState withUpdateQueue withIsActive withCurrentText
       withMessageId withLastUpdateTime userId stateManager clock].
  match goal with
  | |- context [SM.sessions (fst ?c) !! ?k] =>
      change k with id; rewrite Hs, lookup_insert_eq
  end.
  cbn. by rewrite lookup_insert_eq.
Qed.

End Methods.

(** [new TelegramStreamHandler(chatId, botToken, userId, config)], in a world
    where the clock shows [start] and Telegram answers by [replies]. *)
Definition make (chat user : Z) (cfg : StreamConfig) (start : Z)
  (sample : Q) (replies : nat -> ApiReply) : t :=
  {| state :=
       {| messageId := None; chatId := chat; currentText := "";
          lastSentText := ""; lastUpdateTime := 0; isActive := false;
          isPaused := false |};
     config := cfg; updateQueue := [];
     rateLimiter := RL.make (rateLimitConfig cfg) start;
     recoveryAttempts := ∅; sessionId := None; userId := user;
     stateManager := SM.make SM.defaultCleanupConfig;
     clock := start; jitterSample := sample; telegram := replies;
     requests := [] |}.

Definition defaultStreamConfig : StreamConfig :=
  {| minUpdateInterval := 1000; maxMessageLength := 4096;
     rateLimitConfig := defaultRateLimitConfig |}.

(** *** Scenarios *)

(** The texts of the scenarios carry no markup, and the three rewriting
    functions return such a text as it is. *)
Definition unmarked (text : string) : string := text.

(** Telegram accepts every request and answers with the message 100. *)
Definition obliging : nat -> ApiReply := fun _ => Accepted (Some 100).

(** A handler just initialized, at the clock value 5000. *)
Definition initialized : t :=
  fst (initialize "r" ∅
         (make 7 42 defaultStreamConfig 5000 (1 # 2) obliging)).

(** Three fragments arrive in the same millisecond: the first is sent at
    once, the other two are buffered. *)
Definition buffered : t :=
  fst ((onStreamChunk unmarked unmarked unmarked "Hel";;
        onStreamChunk unmarked unmarked unmarked "lo, ";;
        onStreamChunk unmarked unmarked unmarked "world") initialized).

Lemma finalize_twice_witness :
  exists w1 w2,
    finalize unmarked unmarked unmarked (Some "Hello, world"%string)
      initialized = (w1, Normal tt) /\
    finalize unmarked unmarked unmarked None w1 = (w2, Normal tt) /\
    (remoteCalls w1 <= S (remoteCalls initialized))%nat /\
    remoteCalls w2 = remoteCalls w1 /\
    (remoteCalls w1 = S (remoteCalls initialized) <->
     currentText (state (supplied (Some "Hello, world"%string) initialized))
       <> ""%string /\
     currentText (state (supplied (Some "Hello, world"%string) initialized))
       <> lastSentText
            (state (supplied (Some "Hello, world"%string) initialized)) /\
     lastSentText (state (supplied (Some "Hello, world"%string) initialized))
       <> outgoingText unmarked
            (supplied (Some "Hello, world"%string) initialized)).
Proof.
  apply (proj2 (proj2 (finalize_twice_one_request_at_most
                         unmarked unmarked unmarked initialized
                         (Some "Hello, world"%string) (Some 100)))).
  - reflexivity.
  - repeat split; reflexivity.
  - reflexivity.
  - intros _. reflexivity.
Defined.

(** Telegram refuses the first two requests, then accepts. *)
Definition flaky : nat -> ApiReply := fun n =>
  if (n <? 2)%nat then Refused "network timeout" else Accepted (Some 100).

Definition initializedFlaky : t :=
  fst (initialize "r" ∅ (make 7 42 defaultStreamConfig 5000 (1 # 2) flaky)).

(** C7 as worded fails when fragments are buffered: [finalize] sends an
    update for each of the two buffered fragments, so that one call, and two
    calls in succession, make two requests. It also fails when Telegram
    refuses a request: the send is tried again as plain text, then retried by
    the rate limiter, three requests in one [finalize]. *)
Lemma finalize_sends_every_buffered_fragment :
  updateQueue buffered = ["lo, "; "world"]%string /\
  remoteCalls buffered = 1%nat /\
  snd (finalize unmarked unmarked unmarked None buffered) = Normal tt /\
  remoteCalls (fst (finalize unmarked unmarked unmarked None buffered)) =
    3%nat /\
  text <$> requests (fst (finalize unmarked unmarked unmarked None buffered)) =
    ["Hel"; "Hello, "; "Hello, world"]%string /\
  snd (finalize unmarked unmarked unmarked None
         (fst (finalize unmarked unmarked unmarked None buffered))) =
    Normal tt /\
  remoteCalls
    (fst (finalize unmarked unmarked unmarked None
            (fst (finalize unmarked unmarked unmarked None buffered)))) =
    3%nat /\
  remoteCalls initializedFlaky = 0%nat /\
  snd (finalize unmarked unmarked unmarked (Some "Hello, world"%string)
         initializedFlaky) = Normal tt /\
  markdown <$>
    requests (fst (finalize unmarked unmarked unmarked
                     (Some "Hello, world"%string) initializedFlaky)) =
    [true; false; true].
Proof. repeat split; by vm_compute. Qed.
End TelegramStreamHandler.


(** ** The address check of the webhook *)

Module WebhookSecurity.

Module SM := StreamStateManager.

(** [x >>> 0] *)
Definition toUint32 (x : Z) : Z := x mod 2 ^ 32.

(** [a << n], [a | b] and [a & b] on integers: the operands are taken as
    32-bit integers, the shift count modulo 32, and the result is a signed
    32-bit integer. *)
Definition shiftLeft (a n : Z) : Z :=
  SM.toInt32 (Z.shiftl (SM.toInt32 a) (n mod 32)).
Definition bitOr (a b : Z) : Z := SM.toInt32 (Z.lor (SM.toInt32 a) (SM.toInt32 b)).
Definition bitAnd (a b : Z) : Z := SM.toInt32 (Z.land (SM.toInt32 a) (SM.toInt32 b)).

(** [parts[i]] as a bit operation reads it: a missing element counts 0. *)
Definition part (parts : list Z) (i : nat) : Z := default 0 (parts !! i).

(** [(p[0] << 24) | (p[1] << 16) | (p[2] << 8) | p[3]] *)
Definition toInt (parts : list Z) : Z :=
  bitOr (bitOr (bitOr (shiftLeft (part parts 0) 24)
                      (shiftLeft (part parts 1) 16))
               (shiftLeft (part parts 2) 8))
        (part parts 3).

(** [isIPInCIDR(ip, network, prefixLength)] on arrays of integers; the
    prefix length is what [parseInt] returned, [None] for [NaN], which a
    shift takes as 0. *)
Definition isIPInCIDR (ip network : list Z) (prefixLength : option Z) : bool :=
  let ipInt := toInt ip in
  let networkInt := toInt network in
  let count := match prefixLength with Some p => 32 - p | None => 0 end in
  let mask := toUint32 (shiftLeft (-1) count) in
  bitAnd ipInt mask =? bitAnd networkInt mask.

(** Four numbers between 0 and 255. *)
Definition octets (parts : list Z) : Prop :=
  length parts = 4%nat /\ Forall (fun x => 0 <= x <= 255) parts.

(** The address as one number of 32 bits. *)
Definition address (parts : list Z) : Z :=
  part parts 0 * 2 ^ 24 + part parts 1 * 2 ^ 16 + part parts 2 * 2 ^ 8 +
  part parts 3.

(** The 32 low bits. *)
Definition low (x : Z) : Z := x mod 2 ^ 32.

Lemma low_toInt32 x : low (SM.toInt32 x) = low x.
Proof.
  destruct (SM.toInt32_wraps x) as [k ->].
  unfold low. rewrite Z.mul_comm. apply Z_mod_plus_full.
Qed.

Lemma low_toUint32 x : low (toUint32 x) = low x.
Proof. unfold low, toUint32. by apply Z.mod_mod. Qed.

Lemma low_ones x : low x = Z.land x (Z.ones 32).
Proof. unfold low. by rewrite Z.land_ones. Qed.

Lemma low_lor x x' y y' :
  low x = low x' -> low y = low y' -> low (Z.lor x y) = low (Z.lor x' y').
Proof.
  rewrite !low_ones, !Z.land_lor_distr_l. by intros -> ->.
Qed.

Lemma low_land x x' y y' :
  low x = low x' -> low y = low y' -> low (Z.land x y) = low (Z.land x' y').
Proof.
  rewrite !low_ones. intros Hx Hy.
  assert (H : forall a b, Z.land (Z.land a b) (Z.ones 32) =
                          Z.land (Z.land a (Z.ones 32)) (Z.land b (Z.ones 32))).
  { intros a b. apply Z.bits_inj'. intros n _.
    rewrite !Z.land_spec. by destruct (Z.testbit a n), (Z.testbit b n),
      (Z.testbit (Z.ones 32) n). }
  by rewrite !H, Hx, Hy.
Qed.

Lemma low_shiftl x x' n :
  0 <= n -> low x = low x' -> low (Z.shiftl x n) = low (Z.shiftl x' n).
Proof.
  intros Hn H. unfold low in *. rewrite !Z.shiftl_mul_pow2 by done.
  by rewrite <- (Zmult_mod_idemp_l x), H, Zmult_mod_idemp_l.
Qed.

Lemma toInt32_low x y : SM.toInt32 x = SM.toInt32 y <-> low x = low y.
Proof.
  split.
  - intros H. by rewrite <- (low_toInt32 x), H, low_toInt32.
  - unfold low, SM.toInt32. intros H.
    by rewrite (Zplus_mod x), H, <- Zplus_mod.
Qed.

Lemma lor_disjoint h k y :
  0 <= k -> 0 <= y < 2 ^ k -> Z.lor (h * 2 ^ k) y = h * 2 ^ k + y.
Proof.
  intros Hk Hy.
  assert (H0 : Z.land (h * 2 ^ k) y = 0).
  { apply Z.bits_inj'. intros n Hn. rewrite Z.land_spec, Z.bits_0.
    destruct (Z.lt_ge_cases n k) as [Hlt | Hge].
    - by rewrite Z.mul_pow2_bits_low.
    - rewrite <- (Z.mod_small y (2 ^ k)) by done.
      rewrite Z.mod_pow2_bits_high by lia. apply andb_false_r. }
  by rewrite <- Z.lxor_lor, <- Z.add_nocarry_lxor.
Qed.

Lemma land_clears a k : 0 <= k -> Z.land a (- 2 ^ k) = 2 ^ k * (a / 2 ^ k).
Proof.
  intros Hk.
  replace (- 2 ^ k) with (Z.lnot (Z.ones k))
    by (rewrite Z.ones_equiv; unfold Z.lnot; lia).
  rewrite <- Z.ldiff_land, Z.ldiff_ones_r by done.
  rewrite Z.shiftl_mul_pow2, Z.shiftr_div_pow2 by done. lia.
Qed.

Ltac split_octets :=
  repeat match goal with
         | H : Forall _ (_ :: _) |- _ =>
             apply Forall_cons in H; destruct H as [? H]
         end.

Lemma address_range parts : octets parts -> 0 <= address parts < 2 ^ 32.
Proof.
  intros [Hl Hf]. destruct parts as [|a [|b [|c [|d [|]]]]]; try done.
  split_octets.
  unfold address, part. simpl. lia.
Qed.

Lemma address_inj p1 p2 :
  octets p1 -> octets p2 -> address p1 = address p2 -> p1 = p2.
Proof.
  intros [Hl1 Hf1] [Hl2 Hf2].
  destruct p1 as [|a1 [|b1 [|c1 [|d1 [|]]]]]; try done.
  destruct p2 as [|a2 [|b2 [|c2 [|d2 [|]]]]]; try done.
  split_octets.
  unfold address, part. simpl. intros Heq.
  assert (a1 = a2 /\ b1 = b2 /\ c1 = c2 /\ d1 = d2) as (-> & -> & -> & ->)
    by lia.
  done.
Qed.

Lemma low_toInt parts : octets parts -> low (toInt parts) = address parts.
Proof.
  intros Ho. pose proof (address_range parts Ho) as Hr.
  destruct Ho as [Hl Hf].
  destruct parts as [|a [|b [|c [|d [|]]]]]; try done.
  split_octets.
  unfold address, toInt, part, bitOr, shiftLeft in *. simpl in *.
  change (24 mod 32) with 24. change (16 mod 32) with 16.
  change (8 mod 32) with 8.
  rewrite low_toInt32.
  rewrite (low_lor _ (Z.lor (Z.lor (a * 2 ^ 24) (b * 2 ^ 16)) (c * 2 ^ 8))
             _ d).
  - rewrite (lor_disjoint a 24 (b * 2 ^ 16)) by lia.
    replace (a * 2 ^ 24 + b * 2 ^ 16) with ((a * 2 ^ 8 + b) * 2 ^ 16) by lia.
    rewrite (lor_disjoint _ 16 (c * 2 ^ 8)) by lia.
    replace ((a * 2 ^ 8 + b) * 2 ^ 16 + c * 2 ^ 8)
      with (((a * 2 ^ 8 + b) * 2 ^ 8 + c) * 2 ^ 8) by lia.
    rewrite (lor_disjoint _ 8 d) by lia.
    unfold low. apply Z.mod_small. lia.
  - rewrite !low_toInt32.
    apply low_lor.
    + rewrite !low_toInt32. apply low_lor.
      * rewrite !low_toInt32, <- Z.shiftl_mul_pow2 by lia.
        apply low_shiftl; [lia | apply low_toInt32].
      * rewrite !low_toInt32, <- Z.shiftl_mul_pow2 by lia.
        apply low_shiftl; [lia | apply low_toInt32].
    + rewrite !low_toInt32, <- Z.shiftl_mul_pow2 by lia.
      apply low_shiftl; [lia | apply low_toInt32].
  - apply low_toInt32.
Qed.

Lemma isIPInCIDR_spec ip network prefixLength :
  octets ip -> octets network ->
  let k := match prefixLength with Some p => (32 - p) mod 32 | None => 0 end in
  isIPInCIDR ip network prefixLength = true <->
  address ip / 2 ^ k = address network / 2 ^ k.
Proof.
  intros Hi Hn k.
  assert (Hk : 0 <= k < 32).
  { subst k. destruct prefixLength; [apply Z.mod_pos_bound|]; lia. }
  pose proof (address_range ip Hi) as Hri.
  pose proof (address_range network Hn) as Hrn.
  unfold isIPInCIDR, bitAnd. cbv zeta. rewrite Z.eqb_eq, toInt32_low.
  assert (Hc : match prefixLength with Some p => 32 - p | None => 0 end
               mod 32 = k) by (subst k; by destruct prefixLength).
  assert (Hm : forall x, octets x ->
     low (Z.land (SM.toInt32 (toInt x))
            (SM.toInt32 (toUint32 (shiftLeft (-1)
               match prefixLength with Some p => 32 - p | None => 0 end)))) =
     2 ^ k * (address x / 2 ^ k)).
  { intros x Hx. pose proof (address_range x Hx) as Hr.
    rewrite (low_land _ (address x) _ (- 2 ^ k)).
    - rewrite land_clears by lia. unfold low. apply Z.mod_small.
      pose proof (Z.mul_div_le (address x) (2 ^ k)).
      pose proof (Z.div_pos (address x) (2 ^ k)). nia.
    - rewrite low_toInt32, low_toInt by done.
      unfold low. symmetry. by apply Z.mod_small.
    - rewrite low_toInt32, low_toUint32.
      unfold shiftLeft. rewrite low_toInt32, Hc.
      change (SM.toInt32 (-1)) with (-1).
      by rewrite Z.shiftl_mul_pow2 by lia. }
  rewrite (Hm ip Hi), (Hm network Hn).
  split; [|by intros ->].
  apply Z.mul_reg_l. lia.
Qed.

(** X25. For two IPv4 addresses and a prefix length from 1 to 32,
    [isIPInCIDR] holds exactly when the addresses agree on their first
    [prefixLength] bits. With the prefix length 0, and with one that is not
    a number, the shift is by 0 bits and the mask covers all 32 bits: the
    check then holds only for the network address itself. *)
Theorem isIPInCIDR_compares_the_prefix
  (ip network : list Z) (prefixLength : Z) :
  octets ip -> octets network -> 1 <= prefixLength <= 32 ->
  (isIPInCIDR ip network (Some prefixLength) = true <->
   address ip / 2 ^ (32 - prefixLength) =
     address network / 2 ^ (32 - prefixLength)) /\
  (isIPInCIDR ip network (Some 0) = true <-> ip = network) /\
  (isIPInCIDR ip network None = true <-> ip = network).
Proof.
  intros Hi Hn Hp.
  assert (Hall : address ip / 2 ^ 0 = address network / 2 ^ 0 <->
                 ip = network).
  { change (2 ^ 0) with 1. rewrite !Z.div_1_r.
    split; [by apply address_inj | by intros ->]. }
  split; [|split].
  - rewrite (isIPInCIDR_spec ip network (Some prefixLength) Hi Hn).
    destruct (decide (prefixLength = 32)) as [-> | Hne]; [done|].
    by rewrite Z.mod_small by lia.
  - rewrite (isIPInCIDR_spec ip network (Some 0) Hi Hn). by apply Hall.
  - rewrite (isIPInCIDR_spec ip network None Hi Hn). by apply Hall.
Qed.

(** 149.154.167.50 lies in 149.154.160.0/20, one of Telegram's ranges. *)
Lemma isIPInCIDR_witness :
  isIPInCIDR [149; 154; 167; 50] [149; 154; 160; 0] (Some 20) = true.
Proof.
  refine (proj2 (proj1 (isIPInCIDR_compares_the_prefix
                          [149; 154; 167; 50] [149; 154; 160; 0] 20 _ _ _)) _).
  - split; [reflexivity | repeat constructor; lia].
  - split; [reflexivity | repeat constructor; lia].
  - lia.
  - reflexivity.
Defined.

End WebhookSecurity.


(** ** The simulated stream of the demonstrations *)

Module StreamingDemo.

(** [s.split(" ")] *)
Fixpoint split (s : string) : list string :=
  match s with
  | EmptyString => [EmptyString]
  | String c s' =>
      if Ascii.eqb c " " then EmptyString :: split s'
      else match split s' with
           | word :: words => String c word :: words
           | [] => [String c EmptyString]
           end
  end.

(** [words.join(" ")] *)
Fixpoint join (words : list string) : string :=
  match words with
  | [] => ""
  | [word] => word
  | word :: words' => word +:+ " " +:+ join words'
  end.

(** The loop of [simulateAIStreamingResponse], from the index [i]; the
    pauses between the chunks are left out. With a chunk size of 1 or more,
    as many turns as there are words end it; with the chunk size 0 the loop
    of the source does not end. *)
Fixpoint chunksFrom (turns i chunkSize : nat) (words : list string)
  : list string :=
  match turns with
  | O => []
  | S turns' =>
      if (i <? length words)%nat then
        (join (take chunkSize (drop i words)) +:+
         (if (i + chunkSize <? length words)%nat then " " else ""))%string
        :: chunksFrom turns' (i + chunkSize) chunkSize words
      else []
  end.

(** [simulateAIStreamingResponse(fullText, chunkSize)]: the chunks it
    yields, in order. *)
Definition simulateAIStreamingResponse (fullText : string) (chunkSize : nat)
  : list string :=
  let words := split fullText in
  chunksFrom (length words) 0 chunkSize words.

Lemma split_not_empty s : split s <> [].
Proof. destruct s as [|c s]; simpl; [done|]. by destruct (Ascii.eqb c _), (split s). Qed.

Lemma append_assoc (a b c : string) : ((a +:+ b) +:+ c = a +:+ (b +:+ c))%string.
Proof. induction a as [|x a IH]; [done|]. exact (f_equal (String x) IH). Qed.

Lemma append_empty_r (a : string) : (a +:+ "")%string = a.
Proof. induction a as [|x a IH]; [done|]. exact (f_equal (String x) IH). Qed.

Lemma join_cons word words :
  join (word :: words) =
    (word +:+ (if words is [] then "" else " " +:+ join words))%string.
Proof.
  destruct words; simpl; [|done]. by rewrite append_empty_r.
Qed.

Lemma join_split s : join (split s) = s.
Proof.
  induction s as [|c s IH]; [done|]. simpl.
  pose proof (split_not_empty s) as Hne.
  destruct (Ascii.eqb c " ") eqn:Ec.
  - apply Ascii.eqb_eq in Ec. subst c. rewrite join_cons.
    destruct (split s); [done|]. by rewrite IH.
  - destruct (split s) as [|word words]; [done|].
    rewrite join_cons in IH. rewrite join_cons. by rewrite <- IH.
Qed.

Lemma join_take_drop n : forall words,
  (0 < n)%nat ->
  ((join (take n words) +:+
    (if (n <? length words)%nat then " " else "")) +:+
   join (drop n words))%string = join words.
Proof.
  induction n as [|n IH]; intros words Hn; [lia|].
  destruct words as [|word words]; [done|].
  cbn [take drop length]. rewrite !join_cons.
  change (S n <? S (length words))%nat with (n <? length words)%nat.
  destruct n as [|n].
  - rewrite take_0, drop_0. destruct words as [|w ws]; simpl.
    + by rewrite !append_empty_r.
    + by rewrite append_empty_r, append_assoc.
  - specialize (IH words ltac:(lia)).
    destruct words as [|w ws]; [simpl; by rewrite !append_empty_r|].
    rewrite <- IH.
    assert (Ht : take (S n) (w :: ws) <> []) by done.
    destruct (take (S n) (w :: ws)) as [|t ts]; [done|].
    by rewrite !append_assoc.
Qed.

Lemma chunksFrom_join chunkSize words turns : forall i,
  (0 < chunkSize)%nat -> (length words - i <= turns)%nat ->
  foldr String.append ""%string (chunksFrom turns i chunkSize words) =
    join (drop i words).
Proof.
  induction turns as [|turns IH]; intros i Hn Hl.
  - simpl. rewrite drop_ge by lia. done.
  - cbn [chunksFrom]. destruct (i <? length words)%nat eqn:Ei.
    + apply Nat.ltb_lt in Ei. cbn [foldr].
      rewrite IH by lia.
      rewrite <- (join_take_drop chunkSize (drop i words)) by done.
      rewrite drop_drop, length_drop.
      replace (chunkSize <? length words - i)%nat
        with (i + chunkSize <? length words)%nat; [done|].
      destruct (Nat.ltb_spec (i + chunkSize) (length words)),
        (Nat.ltb_spec chunkSize (length words - i)); done || lia.
    + apply Nat.ltb_ge in Ei. rewrite drop_ge by lia. done.
Qed.

Lemma chunksFrom_enough chunkSize words turns : forall extra i,
  (0 < chunkSize)%nat -> (length words - i <= turns)%nat ->
  chunksFrom (turns + extra) i chunkSize words =
    chunksFrom turns i chunkSize words.
Proof.
  induction turns as [|turns IH]; intros extra i Hn Hl.
  - destruct extra as [|extra]; [done|]. cbn [Nat.add chunksFrom].
    destruct (Nat.ltb_spec i (length words)); [lia | done].
  - cbn [Nat.add chunksFrom]. destruct (i <? length words)%nat eqn:Ei; [|done].
    apply Nat.ltb_lt in Ei. f_equal. apply IH; lia.
Qed.

(** X26. For a chunk size of 1 or more, the chunks that
    [simulateAIStreamingResponse] yields, put one after the other, are the
    full text: nothing is lost and no blank is added or dropped. The loop
    has ended by then: more turns would yield nothing more. *)
Theorem simulated_chunks_make_the_text (fullText : string) (chunkSize : nat) :
  (0 < chunkSize)%nat ->
  foldr String.append ""%string
    (simulateAIStreamingResponse fullText chunkSize) = fullText /\
  (forall extra,
     chunksFrom (length (split fullText) + extra) 0 chunkSize
       (split fullText) = simulateAIStreamingResponse fullText chunkSize).
Proof.
  intros Hn. unfold simulateAIStreamingResponse. cbv zeta. split.
  - rewrite chunksFrom_join by (done || lia). rewrite drop_0. apply join_split.
  - intros extra. apply chunksFrom_enough; [done | lia].
Qed.

Lemma simulated_chunks_witness :
  foldr String.append ""%string
    (simulateAIStreamingResponse "the quick brown fox jumps" 2) =
    "the quick brown fox jumps"%string.
Proof.
  apply (proj1 (simulated_chunks_make_the_text
                  "the quick brown fox jumps" 2 ltac:(lia))).
Defined.

End StreamingDemo.
